(** * dockerfiles tool: configuration merging, origin directives, build order

    A shallow embedding of four Go packages of the generator tool:

    - [config]    : [ImageConfig.UnmarshalYAML], [ImageConfig.MarshalYAML],
                    [ImageConfig.Merge], [mergeInto], [deepCopy],
                    [deepCopyValue];
    - [template]  : [NewData], [get], the [from_image] template function and
                    [Data.fromImage];
    - [workflow]  : [buildJobsFromConfig], [parseDockerfileDependencies]
                    (with the regular expressions it compiles),
                    [generateJobID], [orderJobsByDependencies] and
                    [topologicalSort];
    - [generator] : the template data [GenerateImage] builds for a version.

    Go values of type [interface{}] are the inductive [value]; Go maps are
    stdpp [gmap]s; pointers that may be nil are [option]s; functions that
    mutate their receiver return the new state next to their result; the
    recursion of [fromImage] and of the [visit] closure is driven by a fuel
    argument, and running out of fuel stands for a call that never returns. *)

From Stdlib Require Import Ascii String.
From stdpp Require Import gmap strings list fin_maps sorting relations.

Set Warnings "-register-all".

(** The newline byte, used by [Sprintf] formats and by [strings.Split]. *)
Definition nl : string := String "010"%char EmptyString.

(** [has_prefix p s]: the text [s] begins with [p]. *)
Fixpoint has_prefix (p s : string) : bool :=
  match p, s with
  | EmptyString, _ => true
  | String a p', String b s' => Ascii.eqb a b && has_prefix p' s'
  | String _ _, EmptyString => false
  end.

(* ================================================================== *)
(** * Package config *)
(* ================================================================== *)

Module config.

(** [type BaseImage struct { Name, Source string }] *)
Record BaseImage := mkBaseImage { Name : string; Source : string }.

(** The dynamic values a manifest can hold ([interface{}]): YAML scalars,
    sequences ([[]interface{}]), mappings ([map[string]interface{}]) and the
    [*BaseImage] pointer that [template.NewData] stores under ["base_image"]
    (never nil there).  Floating-point scalars are left out. *)
Inductive value :=
| VNil
| VBool (b : bool)
| VInt (n : Z)
| VStr (s : string)
| VList (l : list value)
| VMap (m : gmap string value)
| VBase (b : BaseImage).

(** [type ImageConfig struct { BaseImage *BaseImage; Values map[string]interface{} }].
    A nil [Values] map and an empty one read alike and are both [∅]. *)
Record ImageConfig := mkImageConfig {
  BaseImage_ : option BaseImage;
  Values : gmap string value
}.

(** [func deepCopyValue(val interface{}) interface{}] *)
Fixpoint deepCopyValue (val : value) : value :=
  match val with
  | VMap v => VMap (deepCopyValue <$> v)
  | VList v => VList (map deepCopyValue v)
  | v => v
  end.

(** The copy [&BaseImage{Name: b.Name, Source: b.Source}] made by [Merge]
    and [deepCopy]. *)
Definition copyBaseImage (b : BaseImage) : BaseImage :=
  {| Name := Name b; Source := Source b |}.

(** [func (ic *ImageConfig) deepCopy() *ImageConfig]; a nil receiver
    gives nil. *)
Definition deepCopy (ic : option ImageConfig) : option ImageConfig :=
  match ic with
  | None => None
  | Some ic =>
      Some {| BaseImage_ := copyBaseImage <$> BaseImage_ ic;
              Values := map_fold (fun k v result => <[k := deepCopyValue v]> result)
                                 ∅ (Values ic) |}
  end.

(** One iteration of the loop of [mergeInto], for the key whose source value
    is [srcVal] and whose current destination entry is [destVal]: the value
    the destination holds at that key afterwards.  When both are mappings the
    loop calls [mergeInto destMap srcMap], which updates [destMap] in place;
    otherwise it stores [deepCopyValue srcVal]. *)
Fixpoint mergeEntry (srcVal : value) (destVal : option value) {struct srcVal} : value :=
  match destVal, srcVal with
  | Some (VMap destMap), VMap srcMap =>
      VMap (map_fold (fun k sv dest => <[k := mergeEntry sv (dest !! k)]> dest)
                     destMap srcMap)
  | _, _ => deepCopyValue srcVal
  end.

(** [func mergeInto(dest, source map[string]interface{})]; the updated
    [dest] is returned. *)
Definition mergeInto (dest source : gmap string value) : gmap string value :=
  map_fold (fun k srcVal dest => <[k := mergeEntry srcVal (dest !! k)]> dest)
           dest source.

(** [func (ic *ImageConfig) Merge(defaults *ImageConfig) *ImageConfig] *)
Definition Merge (ic defaults : option ImageConfig) : option ImageConfig :=
  match defaults with
  | None => deepCopy ic
  | Some defaults' =>
      match ic with
      | None => deepCopy defaults
      | Some ic' =>
          let baseImage :=
            match BaseImage_ ic' with
            | Some b => Some (copyBaseImage b)
            | None =>
                match BaseImage_ defaults' with
                | Some b => Some (copyBaseImage b)
                | None => None
                end
            end in
          let values :=
            map_fold (fun k val result => <[k := deepCopyValue val]> result)
                     ∅ (Values defaults') in
          Some {| BaseImage_ := baseImage;
                  Values := mergeInto values (Values ic') |}
      end
  end.

(** The merge of two value maps as the specification words it.
    [merged overlay defaults result]: key by key, [result] holds what
    [merged_at] allows.  A key the overlay lacks keeps what the defaults
    hold there, if anything; a key at which both sides hold a nested
    mapping holds a mapping that is the merge of the two; at any other key
    of the overlay the result holds the overlay's value, whatever the
    defaults hold. *)
Inductive merged : gmap string value → gmap string value → gmap string value → Prop :=
| merged_maps overlay defaults result :
    (∀ k, merged_at (overlay !! k) (defaults !! k) (result !! k)) →
    merged overlay defaults result
with merged_at : option value → option value → option value → Prop :=
| merged_kept default :
    merged_at None default default
| merged_nested o d r :
    merged o d r →
    merged_at (Some (VMap o)) (Some (VMap d)) (Some (VMap r))
| merged_replaced v default :
    (∀ o d, v = VMap o → default ≠ Some (VMap d)) →
    merged_at (Some v) default (Some v).

(** Size of a value, the measure for induction over nested mappings. *)
Fixpoint value_size (v : value) : nat :=
  match v with
  | VMap m => S (map_fold (fun _ x n => value_size x + n) 0 m)
  | VList l => S (foldr (fun x n => value_size x + n) 0 l)
  | _ => 1
  end.

(** [type Defaults struct { BasePath, Registry string }] *)
Record Defaults := mkDefaults { BasePath : string; Registry : string }.

(** [type Image struct { Path string; Defaults *ImageConfig;
    Versions map[string]*ImageConfig }]; the field [Defaults] is
    [ImageDefaults] here, and a version declared without settings holds a
    nil pointer. *)
Record Image := mkImage {
  Path : string;
  ImageDefaults : option ImageConfig;
  Versions : gmap string (option ImageConfig)
}.

(** [type Config struct { Version int; Defaults Defaults;
    Images map[string]Image }]; the field [Defaults] is [Defaults_] here. *)
Record Config := mkConfig {
  Version : Z;
  Defaults_ : Defaults;
  Images : gmap string Image
}.

(** The string a lookup in a decoded mapping yields under the type
    assertion [m[key].(string)]; the field keeps its zero value when the
    key is missing or holds something else. *)
Definition string_field (m : gmap string value) (key : string) : string :=
  match m !! key with
  | Some (VStr s) => s
  | _ => EmptyString
  end.

(** [func (ic *ImageConfig) UnmarshalYAML(unmarshal func(interface{}) error) error].
    [decoded] is what [unmarshal(&raw)] gives: the raw mapping, or the error
    text.  The receiver [ic] keeps its [BaseImage] unless the document holds
    a mapping under ["base_image"]. *)
Definition UnmarshalYAML (ic : ImageConfig) (decoded : gmap string value + string)
    : ImageConfig + string :=
  match decoded with
  | inr err => inr err
  | inl raw =>
      let baseImage :=
        match raw !! "base_image" with
        | Some (VMap baseImageMap) =>
            Some {| Name := string_field baseImageMap "name";
                    Source := string_field baseImageMap "source" |}
        | _ => BaseImage_ ic
        end in
      let raw :=
        match raw !! "base_image" with
        | Some _ => delete "base_image" raw
        | None => raw
        end in
      inl {| BaseImage_ := baseImage;
             Values := map_fold (fun k v values => <[k := v]> values) ∅ raw |}
  end.

(** [func (ic *ImageConfig) MarshalYAML() (interface{}, error)]; the error
    is always nil.  The [*BaseImage] pointer itself is stored in the map. *)
Definition MarshalYAML (ic : ImageConfig) : gmap string value :=
  let result := map_fold (fun k v result => <[k := v]> result) ∅ (Values ic) in
  match BaseImage_ ic with
  | Some b => <["base_image" := VBase b]> result
  | None => result
  end.

(** The configuration [&ImageConfig{Values: make(map[string]interface{})}]. *)
Definition emptyImageConfig : ImageConfig :=
  {| BaseImage_ := None; Values := ∅ |}.

End config.

(* ================================================================== *)
(** * Package template *)
(* ================================================================== *)

Module template.
Import config.

(** [type Data struct { Values map[string]interface{}; rootPathIncluded bool;
    generationMessage string }] *)
Record Data := mkData {
  Values : gmap string value;
  rootPathIncluded : bool;
  generationMessage : string
}.

(** [func generateMessage(imageName string) string] *)
Definition generateMessage (imageName : string) : string :=
  "# GENERATED FILE, DO NOT MODIFY!" +:+ nl +:+
  "#" +:+ nl +:+
  "# To update this file please edit the relevant template file and run:" +:+ nl +:+
  "#   go run tool/main.go generate image " +:+ imageName +:+ nl +:+
  "#" +:+ nl +:+
  "# Or regenerate all images with:" +:+ nl +:+
  "#   go run tool/main.go generate all".

(** [func NewData(mergedConfig *config.ImageConfig, imageName string) *Data].
    The entries are written in the order of the source: ["base_image"]
    first, then every value of the merged configuration, then
    ["image_name"]; a later write replaces an earlier one. *)
Definition NewData (mergedConfig : ImageConfig) (imageName : string) : Data :=
  let data : gmap string value := ∅ in
  let data :=
    match BaseImage_ mergedConfig with
    | Some b => <["base_image" := VBase b]> data
    | None => data
    end in
  let data := map_fold (fun k v data => <[k := v]> data) data (config.Values mergedConfig) in
  let data := <["image_name" := VStr imageName]> data in
  {| Values := data;
     rootPathIncluded := false;
     generationMessage := generateMessage imageName |}.

(** [func (d *Data) get(key string) interface{}]; a missing key reads nil. *)
Definition get (d : Data) (key : string) : value :=
  default VNil (Values d !! key).

Section from_image.

(** [fmt.Sprintf("%v", v)] of Go's standard library, for the values that
    reach the [default] case of the type switch of [fromImage]. *)
Variable Sprint : value → string.

(** The part of [fromImage] after the type switch (lines 80-111): from the
    image name and source it builds the text and updates the flag of [d]. *)
Definition originDirective (imageName imageSource : string) (d : Data) : string * Data :=
  if String.eqb imageSource "dockerhub" then
    ("FROM " +:+ imageName, d)
  else
    let needsRegistryArg :=
      negb (String.eqb imageSource "dockerhub") && negb (rootPathIncluded d) in
    let needsRegistryPath := negb (String.eqb imageSource "dockerhub") in
    let imagePath :=
      if needsRegistryPath then "${REGISTRY}/" +:+ imageName else imageName in
    if needsRegistryArg then
      match Values d !! "registry" with
      | None =>
          ("# ERROR: registry not set in config" +:+ nl +:+ "FROM " +:+ imagePath, d)
      | Some (VStr registry) =>
          (("ARG REGISTRY=" +:+ registry +:+ nl) +:+ ("FROM " +:+ imagePath),
           {| Values := Values d;
              rootPathIncluded := true;
              generationMessage := generationMessage d |})
      | Some _ =>
          ("# ERROR: registry is not a string" +:+ nl +:+ "FROM " +:+ imagePath, d)
      end
    else
      ("FROM " +:+ imagePath, d).

(** [func (d *Data) fromImage(baseImage interface{}) string].  The result
    is the returned text and the receiver after the call; [None] when the
    fuel runs out, which a call that returns never does for enough fuel. *)
Fixpoint fromImage (fuel : nat) (baseImage : value) (d : Data) : option (string * Data) :=
  match fuel with
  | O => None
  | S fuel =>
      match baseImage with
      | VStr v =>
          match Values d !! v with
          | Some val => fromImage fuel val d
          | None => Some (originDirective v "" d)
          end
      | VBase v => Some (originDirective (Name v) (Source v) d)
      | VMap v =>
          let imageName := match v !! "name" with Some (VStr name) => name | _ => "" end in
          let imageSource := match v !! "source" with Some (VStr source) => source | _ => "" end in
          Some (originDirective imageName imageSource d)
      | _ => Some (originDirective (Sprint baseImage) "" d)
      end
  end.

(** The ["from_image"] entry of [func (d *Data) functions() template.FuncMap]. *)
Definition from_image (fuel : nat) (arg : value) (d : Data) : option (string * Data) :=
  match arg with
  | VStr argStr =>
      match Values d !! argStr with
      | Some val => fromImage fuel val d
      | None => fromImage fuel arg d
      end
  | _ => fromImage fuel arg d
  end.

(** A template that calls [from_image] on each of [refs] in turn, against
    one and the same [Data]: the texts produced, in order, and the final
    state. *)
Fixpoint render (fuel : nat) (refs : list value) (d : Data) : option (list string * Data) :=
  match refs with
  | [] => Some ([], d)
  | ref :: refs =>
      match from_image fuel ref d with
      | None => None
      | Some (text, d) =>
          match render fuel refs d with
          | None => None
          | Some (texts, d) => Some (text :: texts, d)
          end
      end
  end.

(** The states a render can be in: the one [NewData] creates, and those
    [from_image] leaves behind. *)
Inductive reachable : Data → Prop :=
| reachable_new mergedConfig imageName :
    reachable (NewData mergedConfig imageName)
| reachable_step d fuel ref text d' :
    reachable d → from_image fuel ref d = Some (text, d') → reachable d'.

(** ** The specification's vocabulary *)

(** One step of indirection: the key [k] holds the string [k']. *)
Definition ref_step (vals : gmap string value) (k k' : string) : Prop :=
  vals !! k = Some (VStr k').

(** The image name and source tag a value denotes by itself. *)
Definition descriptor (v : value) : string * string :=
  match v with
  | VStr s => (s, "")
  | VBase b => (Name b, Source b)
  | VMap m =>
      (match m !! "name" with Some (VStr name) => name | _ => "" end,
       match m !! "source" with Some (VStr source) => source | _ => "" end)
  | _ => (Sprint v, "")
  end.

(** [resolves vals ref t]: following the indirections of [vals] from [ref]
    ends at the terminal [t], a descriptor or a string that is no key. *)
Inductive resolves (vals : gmap string value) : value → value → Prop :=
| resolves_key k v t :
    vals !! k = Some v → resolves vals v t → resolves vals (VStr k) t
| resolves_literal k :
    vals !! k = None → resolves vals (VStr k) (VStr k)
| resolves_terminal v :
    (∀ k, v ≠ VStr k) → resolves vals v v.

(** Whether a terminal carries the public origin tag. *)
Definition is_public (t : value) : bool :=
  String.eqb (descriptor t).2 "dockerhub".

(** The texts a render is specified to produce for the terminals [ts], when
    the registry is the string [registry]; [declared] tells whether the
    [ARG REGISTRY] line was already emitted. *)
Fixpoint expected_texts (registry : string) (declared : bool) (ts : list value) : list string :=
  match ts with
  | [] => []
  | t :: ts =>
      if is_public t then
        ("FROM " +:+ (descriptor t).1) :: expected_texts registry declared ts
      else if declared then
        ("FROM ${REGISTRY}/" +:+ (descriptor t).1) :: expected_texts registry true ts
      else
        ("ARG REGISTRY=" +:+ registry +:+ nl +:+ "FROM ${REGISTRY}/" +:+ (descriptor t).1)
          :: expected_texts registry true ts
  end.

(** A text that opens with the registry declaration. *)
Definition declares_registry (text : string) : bool :=
  has_prefix "ARG REGISTRY=" text.

(** The call [from_image ref] on [d] returns [text] and leaves the state
    [d']: it does so for some amount of fuel, hence for every larger one. *)
Definition returns (ref : value) (d : Data) (text : string) (d' : Data) : Prop :=
  ∃ fuel, from_image fuel ref d = Some (text, d').

(** The same for a whole template. *)
Definition renders (refs : list value) (d : Data) (texts : list string) (d' : Data) : Prop :=
  ∃ fuel, render fuel refs d = Some (texts, d').

(** No chain of indirections comes back to a key it started from. *)
Definition chains_acyclic (vals : gmap string value) : Prop :=
  ∀ k, ¬ tc (ref_step vals) k k.

(** The state after [d.rootPathIncluded = true]. *)
Definition mark_declared (d : Data) : Data :=
  {| Values := Values d;
     rootPathIncluded := true;
     generationMessage := generationMessage d |}.

(** A value that fails the type assertion [registryVal.(string)]. *)
Definition not_a_string (v : value) : Prop := ∀ s, v ≠ VStr s.

(** The origin text the specification gives for the terminal [t], from the
    values of the context and its flag [declared]: the plain line for a
    public terminal; else the line through the registry placeholder, alone
    when the declaration was already emitted, and otherwise after the
    declaration of the registry, or after the annotation that the registry
    is not set or is not a string. *)
Definition origin_text (vals : gmap string value) (declared : bool) (t : value) : string :=
  if is_public t then "FROM " +:+ (descriptor t).1
  else if declared then "FROM ${REGISTRY}/" +:+ (descriptor t).1
  else
    match vals !! "registry" with
    | Some (VStr registry) =>
        "ARG REGISTRY=" +:+ registry +:+ nl +:+ "FROM ${REGISTRY}/" +:+ (descriptor t).1
    | Some _ =>
        "# ERROR: registry is not a string" +:+ nl +:+
        "FROM ${REGISTRY}/" +:+ (descriptor t).1
    | None =>
        "# ERROR: registry not set in config" +:+ nl +:+
        "FROM ${REGISTRY}/" +:+ (descriptor t).1
    end.

(** The context after that resolution: the flag is set when the
    declaration of the registry was emitted, and nothing else changes. *)
Definition origin_state (d : Data) (t : value) : Data :=
  if is_public t then d
  else if rootPathIncluded d then d
  else
    match Values d !! "registry" with
    | Some (VStr _) => mark_declared d
    | _ => d
    end.

End from_image.

(** ** Example contexts *)

(** A rendering of [%v] that is never consulted by the examples. *)
Definition no_Sprint (v : value) : string := EmptyString.

(** The context of the tests: the registry is ["my-registry.io"]. *)
Definition registry_ctx : Data :=
  {| Values := {[ "registry" := VStr "my-registry.io" ]};
     rootPathIncluded := false;
     generationMessage := EmptyString |}.

(** The context [NewData] makes of an empty configuration: no registry. *)
Definition bare_ctx : Data :=
  NewData {| BaseImage_ := None; config.Values := ∅ |} "app".

(** The context [NewData] makes when the registry is a number. *)
Definition numeric_ctx : Data :=
  NewData {| BaseImage_ := None;
             config.Values := {[ "registry" := VInt 12345 ]} |} "app".

(** The nested reference of the tests. *)
Definition nested_ctx : Data :=
  {| Values := <["level1" := VStr "level2"]>
                 {[ "level2" := VBase {| Name := "alpine"; Source := "dockerhub" |} ]};
     rootPathIncluded := false;
     generationMessage := EmptyString |}.

Definition nested_rank (k : string) : nat :=
  if String.eqb k "level1" then 1 else 0.

(** A key that names itself. *)
Definition looping_ctx : Data :=
  {| Values := {[ "self" := VStr "self" ]};
     rootPathIncluded := false;
     generationMessage := EmptyString |}.

(** The contexts of the tests of the two registry errors: no value at
    all, and a number for the registry; the flag is cleared. *)
Definition unset_ctx : Data :=
  {| Values := ∅; rootPathIncluded := false; generationMessage := EmptyString |}.

Definition number_ctx : Data :=
  {| Values := {[ "registry" := VInt 12345 ]};
     rootPathIncluded := false;
     generationMessage := EmptyString |}.

(** A chain of two keys that ends at a private image. *)
Definition chain_ctx : Data :=
  {| Values := <["base" := VStr "builder"]>
                 (<["builder" := VBase {| Name := "golang"; Source := "custom" |}]>
                    {[ "registry" := VStr "test.io" ]});
     rootPathIncluded := false;
     generationMessage := EmptyString |}.

Definition chain_rank (k : string) : nat :=
  if String.eqb k "base" || String.eqb k "registry" then 1 else 0.

Definition myimage : value := VBase {| Name := "myimage"; Source := "custom" |}.
Definition anotherimage : value := VBase {| Name := "anotherimage"; Source := "custom" |}.
Definition ubuntu : value := VBase {| Name := "ubuntu:20.04"; Source := "dockerhub" |}.

End template.

(* ================================================================== *)
(** * Package workflow *)
(* ================================================================== *)

Module workflow.

(** What a Go call can do: return a value, return a non-nil [error] (next
    to a nil result), or panic.  [OutOfFuel] is the model's own: the fuel of
    a recursive function was too small. *)
Inductive outcome (A : Type) :=
| Ret (a : A)
| Fail (err : string)
| Panic
| OutOfFuel.
Arguments Ret {A} a.
Arguments Fail {A} err.
Arguments Panic {A}.
Arguments OutOfFuel {A}.

(** Reading a [map[string]bool]: a missing key reads [false]. *)
Definition flag (m : gmap string bool) (k : string) : bool :=
  default false (m !! k).

(** ** Regular expressions

    The patterns of this package use literals, the repetitions [*] and [+]
    of a character class, and groups of the form [(class+)].  [exec] is the
    backtracking matcher whose first match Go's [regexp] package returns
    (leftmost-first, repetitions greedy).  Strings are sequences of bytes.
    Each class is a set of ASCII bytes or the complement of one, and each
    literal is ASCII, so the bytes of a rune outside ASCII are taken or
    refused together and the groups are those of matching by rune. *)

(** [\s], that is [[\t\n\f\r ]]. *)
Definition is_space (c : ascii) : bool :=
  Ascii.eqb c "009" || Ascii.eqb c "010" || Ascii.eqb c "012"
  || Ascii.eqb c "013" || Ascii.eqb c " ".

(** [[^\s]] *)
Definition not_space (c : ascii) : bool := negb (is_space c).

(** [[^:\s]] *)
Definition not_colon_space (c : ascii) : bool :=
  negb (Ascii.eqb c ":") && negb (is_space c).

(** [.] (any character but a newline). *)
Definition dot (c : ascii) : bool := negb (Ascii.eqb c "010").

Inductive node :=
| Lit (s : string)              (* the literal text s *)
| Star (cls : ascii → bool)     (* cls*   *)
| Plus (cls : ascii → bool)     (* cls+   *)
| Group (cls : ascii → bool).   (* (cls+) *)

(** A compiled pattern; [anchored] records a leading [^]. *)
Record regexp := mkRegexp { anchored : bool; prog : list node }.

(** [strip_prefix p s] is the rest of [s] after its prefix [p]. *)
Fixpoint strip_prefix (p s : string) : option string :=
  match p, s with
  | EmptyString, _ => Some s
  | String a p', String b s' => if Ascii.eqb a b then strip_prefix p' s' else None
  | String _ _, EmptyString => None
  end.

(** Greedy repetition of [cls] with backtracking: the longest run is tried
    first, then shorter ones; [k] receives the text taken and the rest. *)
Fixpoint greedy {R : Type} (cls : ascii → bool) (k : string → string → option R)
    (taken s : string) : option R :=
  match s with
  | String c s' =>
      if cls c then
        match greedy cls k (taken +:+ String c EmptyString) s' with
        | Some r => Some r
        | None => k taken s
        end
      else k taken s
  | EmptyString => k taken s
  end.

(** [exec prog s] matches [prog] at the start of [s] and returns the texts
    of its groups, in order. *)
Fixpoint exec (prog : list node) (s : string) : option (list string) :=
  match prog with
  | [] => Some []
  | Lit l :: prog' =>
      match strip_prefix l s with
      | Some s' => exec prog' s'
      | None => None
      end
  | Star cls :: prog' => greedy cls (fun _ rest => exec prog' rest) EmptyString s
  | Plus cls :: prog' =>
      greedy cls (fun taken rest =>
                    match taken with
                    | EmptyString => None
                    | _ => exec prog' rest
                    end) EmptyString s
  | Group cls :: prog' =>
      greedy cls (fun taken rest =>
                    match taken with
                    | EmptyString => None
                    | _ => cons taken <$> exec prog' rest
                    end) EmptyString s
  end.

(** An unanchored pattern is tried at every position, leftmost first. *)
Fixpoint search (prog : list node) (s : string) : option (list string) :=
  match exec prog s with
  | Some r => Some r
  | None =>
      match s with
      | String _ s' => search prog s'
      | EmptyString => None
      end
  end.

(** The method [FindStringSubmatch] of a compiled pattern: [None] is Go's
    nil; the list holds [match[1]], [match[2]], ... (the whole match
    [match[0]], which no caller reads, is not kept). *)
Definition FindStringSubmatch (re : regexp) (s : string) : option (list string) :=
  if anchored re then exec (prog re) s else search (prog re) s.

(** [^\s*FROM\s+\$\{REGISTRY\}/([^:\s]+):([^\s]+)] *)
Definition fromPattern : regexp :=
  {| anchored := true;
     prog := [Star is_space; Lit "FROM"; Plus is_space; Lit "${REGISTRY}/";
              Group not_colon_space; Lit ":"; Group not_space] |}.

(** [^\s*COPY\s+.*--from=([^\s]+)] *)
Definition copyFromPattern : regexp :=
  {| anchored := true;
     prog := [Star is_space; Lit "COPY"; Plus is_space; Star dot; Lit "--from=";
              Group not_space] |}.

(** [^\s*FROM\s+.*\s+AS\s+([^\s]+)] *)
Definition stagePattern : regexp :=
  {| anchored := true;
     prog := [Star is_space; Lit "FROM"; Plus is_space; Star dot; Plus is_space;
              Lit "AS"; Plus is_space; Group not_space] |}.

(** [\$\{REGISTRY\}/([^:\s]+):([^\s]+)] *)
Definition registryPattern : regexp :=
  {| anchored := false;
     prog := [Lit "${REGISTRY}/"; Group not_colon_space; Lit ":"; Group not_space] |}.

(** [strings.Split(s, "\n")] *)
Fixpoint split_lines (s : string) : list string :=
  match s with
  | EmptyString => [EmptyString]
  | String c s' =>
      if Ascii.eqb c "010" then EmptyString :: split_lines s'
      else
        match split_lines s' with
        | line :: lines => String c line :: lines
        | [] => [String c EmptyString]
        end
  end.

(** [sort.Strings]: ascending in the byte-wise lexicographic order. *)
Definition sort_strings (l : list string) : list string :=
  merge_sort String.le l.

(** The first loop of [parseDockerfileDependencies]: the stage names. *)
Definition collectStageNames (lines : list string) : gmap string bool :=
  foldl (fun stageNames line =>
           match FindStringSubmatch stagePattern line with
           | Some [alias] => <[alias := true]> stageNames
           | _ => stageNames
           end) ∅ lines.

(** The body of the second loop, for one line. *)
Definition scanLine (stageNames : gmap string bool) (depsMap : gmap string bool)
    (line : string) : gmap string bool :=
  let depsMap :=
    match FindStringSubmatch fromPattern line with
    | Some [imageName; version] => <[imageName +:+ ":" +:+ version := true]> depsMap
    | _ => depsMap
    end in
  match FindStringSubmatch copyFromPattern line with
  | Some [fromRef] =>
      if negb (flag stageNames fromRef) then
        match FindStringSubmatch registryPattern fromRef with
        | Some [imageName; version] => <[imageName +:+ ":" +:+ version := true]> depsMap
        | _ => depsMap
        end
      else depsMap
  | _ => depsMap
  end.

(** [func parseDockerfileDependencies(dockerfilePath string) ([]string, error)].
    [file] is what [os.ReadFile] finds at the path: the content, or the
    error text when the file cannot be read.  The keys of [depsMap] are
    collected in the iteration order of the map and then sorted. *)
Definition parseDockerfileDependencies (file : string + string) : outcome (list string) :=
  match file with
  | inr err => Fail ("reading Dockerfile: " +:+ err)
  | inl content =>
      let lines := split_lines content in
      let stageNames := collectStageNames lines in
      let depsMap := foldl (scanLine stageNames) ∅ lines in
      let deps := (map_to_list depsMap).*1 in
      Ret (sort_strings deps)
  end.

(** ** Jobs and their order *)

(** [type Job struct] *)
Record Job := mkJob {
  ID : string;
  Name : string;
  ImageName : string;
  Version : string;
  DockerfilePath : string;
  Needs : list string
}.

(** The variables the closure [visit] of [topologicalSort] captures and
    updates. *)
Record state := mkState {
  sorted : list Job;
  visited : gmap string bool;
  visiting : gmap string bool
}.

(** A [for _, x := range l] loop whose body may return early with an error. *)
Fixpoint each {A : Type} (body : A → state → outcome state) (l : list A) (s : state)
    : outcome state :=
  match l with
  | [] => Ret s
  | x :: l =>
      match body x s with
      | Ret s => each body l s
      | e => e
      end
  end.

(** The closure [visit] of [topologicalSort].  [jobMap[jobID]] is a nil
    pointer for an unknown identifier, and reading [job.Needs] through it
    panics. *)
Fixpoint visit (jobMap : gmap string Job) (fuel : nat) (jobID : string) (s : state)
    : outcome state :=
  match fuel with
  | O => OutOfFuel
  | S fuel =>
      if flag (visited s) jobID then Ret s
      else if flag (visiting s) jobID then
        Fail ("circular dependency detected involving job " +:+ jobID)
      else
        let s := {| sorted := sorted s; visited := visited s;
                    visiting := <[jobID := true]> (visiting s) |} in
        match jobMap !! jobID with
        | None => Panic
        | Some job =>
            match each (visit jobMap fuel) (Needs job) s with
            | Ret s =>
                Ret {| sorted := sorted s ++ [job];
                       visited := <[jobID := true]> (visited s);
                       visiting := <[jobID := false]> (visiting s) |}
            | e => e
            end
        end
  end.

(** The lookup table [jobMap] of [topologicalSort]: a later job with the
    same [ID] replaces an earlier one. *)
Definition buildJobMap (jobs : list Job) : gmap string Job :=
  foldl (fun jobMap job => <[ID job := job]> jobMap) ∅ jobs.

(** [func topologicalSort(jobs []Job) ([]Job, error)].  No chain of nested
    [visit] calls is longer than the number of jobs plus one, which is the
    fuel given to each top-level call. *)
Definition topologicalSort (jobs : list Job) : outcome (list Job) :=
  let jobMap := buildJobMap jobs in
  let s0 := {| sorted := []; visited := ∅; visiting := ∅ |} in
  match each (fun job => visit jobMap (S (length jobs)) (ID job)) jobs s0 with
  | Ret s => Ret (sorted s)
  | Fail err => Fail err
  | Panic => Panic
  | OutOfFuel => OutOfFuel
  end.

(** ** The specification's vocabulary *)

(** [depends jobs a b]: a job of [jobs] with identifier [a] lists [b] in its
    [Needs]. *)
Definition depends (jobs : list Job) (a b : string) : Prop :=
  ∃ job, job ∈ jobs ∧ ID job = a ∧ b ∈ Needs job.

(** The dependency edges form no cycle. *)
Definition acyclic (jobs : list Job) : Prop :=
  ∀ a, ¬ tc (depends jobs) a a.

(** Every [Needs] entry names a job of the list. *)
Definition needs_known (jobs : list Job) : Prop :=
  ∀ job dep, job ∈ jobs → dep ∈ Needs job → dep ∈ ID <$> jobs.

(** Every job stands after the jobs its [Needs] name. *)
Definition dependencies_first (l : list Job) : Prop :=
  ∀ i job dep, l !! i = Some job → dep ∈ Needs job →
    ∃ i' job', i' < i ∧ l !! i' = Some job' ∧ ID job' = dep.

(** ** The shape of a registry origin line *)

(** Every byte of [s] is in [cls]. *)
Fixpoint all_chars (cls : ascii → bool) (s : string) : bool :=
  match s with
  | EmptyString => true
  | String c s' => cls c && all_chars cls s'
  end.

(** [rest] does not continue a run of [cls]. *)
Definition ends_run (cls : ascii → bool) (rest : string) : Prop :=
  match rest with
  | EmptyString => True
  | String c _ => cls c = false
  end.

(** The longest prefix of [s] in [cls], and what follows it. *)
Fixpoint span (cls : ascii → bool) (s : string) : string * string :=
  match s with
  | EmptyString => (EmptyString, EmptyString)
  | String c s' =>
      if cls c then (String c (span cls s').1, (span cls s').2)
      else (EmptyString, s)
  end.

(** [line] reads: blanks, [FROM], blanks, [${REGISTRY}/], the image name,
    a colon, the version, and then a blank or the end of the line. *)
Definition registry_origin_line (line imageName version : string) : Prop :=
  ∃ indent gap rest,
    line = indent +:+ "FROM" +:+ gap +:+ "${REGISTRY}/" +:+
           imageName +:+ ":" +:+ version +:+ rest ∧
    all_chars is_space indent = true ∧
    all_chars is_space gap = true ∧ gap ≠ EmptyString ∧
    all_chars not_colon_space imageName = true ∧ imageName ≠ EmptyString ∧
    all_chars not_space version = true ∧ version ≠ EmptyString ∧
    ends_run not_space rest.














(** A reference that holds the registry form after other text. *)
Definition copy_prefixed : string := "COPY --from=x${REGISTRY}/a:b /app /app".

(** A [COPY] line with two [--from=] flags. *)
Definition copy_twice : string := "COPY --from=${REGISTRY}/a:b --from=builder /x /y".

(** Strictly ascending byte-wise order. *)
Definition string_lt (a b : string) : Prop := String.le a b ∧ a ≠ b.

(** ** Invariants of the traversal *)

(** The edges the lookup table shows: [a] is the key of a job that needs [b]. *)
Definition edge (jobMap : gmap string Job) (a b : string) : Prop :=
  ∃ job, jobMap !! a = Some job ∧ b ∈ Needs job.

(** Every needed identifier is a key of the table. *)
Definition closed (jobMap : gmap string Job) : Prop :=
  ∀ a b, edge jobMap a b → is_Some (jobMap !! b).

(** The error of [visit], naming a job that lies on a cycle. *)
Definition cycle_error (jobMap : gmap string Job) (err : string) : Prop :=
  ∃ k, err = "circular dependency detected involving job " +:+ k ∧ tc (edge jobMap) k k.

(** Both states mark the same jobs as being visited. *)
Definition same_visiting (s s' : state) : Prop :=
  ∀ k, flag (visiting s') k = flag (visiting s) k.

(** The jobs being visited all lead to [jobID]: they are the callers of
    the call [visit jobID]. *)
Definition on_stack (jobMap : gmap string Job) (s : state) (jobID : string) : Prop :=
  ∀ v, flag (visiting s) v = true → tc (edge jobMap) v jobID.

(** [W] holds every known job that is not being visited. *)
Definition covers (jobMap : gmap string Job) (W : gset string) (s : state) : Prop :=
  ∀ k, is_Some (jobMap !! k) → flag (visiting s) k = false → k ∈ W.

(** An acceptable outcome: the fuel sufficed; no panic when the table is
    closed and the identifiers visited are [known]; an error names a cycle. *)
Definition good (jobMap : gmap string Job) (known : Prop) (o : outcome state) : Prop :=
  o ≠ OutOfFuel ∧ (closed jobMap → known → o ≠ Panic) ∧
  (∀ err, o = Fail err → cycle_error jobMap err).

(** What holds of the state between two calls of [visit]. *)
Record inv (jobMap : gmap string Job) (s : state) : Prop := mkInv {
  inv_sorted : ∀ job, job ∈ sorted s →
    jobMap !! ID job = Some job ∧ flag (visited s) (ID job) = true;
  inv_visited : ∀ i, flag (visited s) i = true →
    ∃ job, jobMap !! i = Some job ∧ job ∈ sorted s;
  inv_nodup : NoDup (ID <$> sorted s);
  inv_order : dependencies_first (sorted s)
}.

(** What a returning call of [visit] does to the state. *)
Record extends (jobMap : gmap string Job) (s s' : state) : Prop := mkExtends {
  ext_inv : inv jobMap s';
  ext_visiting : same_visiting s s';
  ext_visited : ∀ k, flag (visited s) k = true → flag (visited s') k = true;
  ext_stack : ∀ k, flag (visiting s) k = true → flag (visited s') k = flag (visited s) k
}.

(** The state [topologicalSort] starts from. *)
Definition s0 : state := {| sorted := []; visited := ∅; visiting := ∅ |}.

(** What one line contributes to [depsMap], given the stage names. *)
Definition line_key (stageNames : gmap string bool) (line key : string) : Prop :=
  (∃ imageName version,
      FindStringSubmatch fromPattern line = Some [imageName; version] ∧
      key = imageName +:+ ":" +:+ version)
  ∨
  (∃ fromRef imageName version,
      FindStringSubmatch copyFromPattern line = Some [fromRef] ∧
      flag stageNames fromRef = false ∧
      FindStringSubmatch registryPattern fromRef = Some [imageName; version] ∧
      key = imageName +:+ ":" +:+ version).

(** ** Job identifiers *)

(** [[a-zA-Z0-9_-]] *)
Definition is_id_char (c : ascii) : bool :=
  let n := nat_of_ascii c in
  (97 <=? n) && (n <=? 122) || (65 <=? n) && (n <=? 90)
  || (48 <=? n) && (n <=? 57) || Ascii.eqb c "_" || Ascii.eqb c "-".

(** [[a-zA-Z_]] *)
Definition is_id_start (c : ascii) : bool :=
  let n := nat_of_ascii c in
  (97 <=? n) && (n <=? 122) || (65 <=? n) && (n <=? 90) || Ascii.eqb c "_".

(** Replace every byte outside [[a-zA-Z0-9_-]] by a dash. *)
Fixpoint replace_invalid (s : string) : string :=
  match s with
  | EmptyString => EmptyString
  | String c s' => String (if is_id_char c then c else "-"%char) (replace_invalid s')
  end.

(** Replace every run of dashes by one dash. *)
Fixpoint collapse_dashes (s : string) : string :=
  match s with
  | EmptyString => EmptyString
  | String c s' =>
      if Ascii.eqb c "-" then
        match collapse_dashes s' with
        | String "-" rest => String "-" rest
        | t => String "-" t
        end
      else String c (collapse_dashes s')
  end.

(** [strings.TrimLeft(s, "-")] *)
Fixpoint trim_left_dashes (s : string) : string :=
  match s with
  | String c s' => if Ascii.eqb c "-" then trim_left_dashes s' else s
  | EmptyString => EmptyString
  end.

(** [strings.TrimRight(s, "-")] *)
Fixpoint trim_right_dashes (s : string) : string :=
  match s with
  | EmptyString => EmptyString
  | String c s' =>
      match trim_right_dashes s' with
      | EmptyString => if Ascii.eqb c "-" then EmptyString else String c EmptyString
      | t => String c t
      end
  end.

(** [func generateJobID(imageName, version string) string] *)
Definition generateJobID (imageName version : string) : string :=
  let id := imageName +:+ "-" +:+ version in
  let id := replace_invalid id in
  let id := collapse_dashes id in
  let id := trim_right_dashes (trim_left_dashes id) in
  match id with
  | String c _ => if is_id_start c then id else "build-" +:+ id
  | EmptyString => "build-" +:+ id
  end.

(** The [Job] that [buildJobsFromConfig] makes for a version of an image
    stored under [path] (the path is [filepath.Join] of the parts, written
    out for parts that need no cleaning). *)
Definition makeJob (imageName path version : string) : Job :=
  {| ID := generateJobID imageName version;
     Name := "Build " +:+ imageName +:+ ":" +:+ version;
     ImageName := imageName;
     Version := version;
     DockerfilePath := "images/" +:+ path +:+ "/" +:+ version +:+ "/Dockerfile";
     Needs := [] |}.

(** [job] with the dependencies [needs], as [orderJobsByDependencies]
    sets them. *)
Definition withNeeds (job : Job) (needs : list string) : Job :=
  {| ID := ID job; Name := Name job; ImageName := ImageName job;
     Version := Version job; DockerfilePath := DockerfilePath job;
     Needs := needs |}.

(** ** Attaching the dependencies *)

(** The key under which [orderJobsByDependencies] files a job. *)
Definition jobKey (job : Job) : string :=
  ImageName job +:+ ":" +:+ Version job.

(** The table [jobMap] of [orderJobsByDependencies].  It holds pointers to
    the jobs; only the [ID] of a job is read through them, and no [ID]
    changes, so the table holds the jobs as they come in. *)
Definition buildKeyMap (jobs : list Job) : gmap string Job :=
  foldl (fun jobMap job => <[jobKey job := job]> jobMap) ∅ jobs.

(** The inner loop: the identifiers of the dependencies that are jobs. *)
Definition resolveNeeds (jobMap : gmap string Job) (deps : list string) : list string :=
  omap (fun dep => ID <$> jobMap !! dep) deps.

(** The second loop of [orderJobsByDependencies]; [readFile] is the file
    system as [os.ReadFile] sees it. *)
Fixpoint attachNeeds (readFile : string → string + string) (jobMap : gmap string Job)
    (jobs : list Job) : outcome (list Job) :=
  match jobs with
  | [] => Ret []
  | job :: jobs =>
      match parseDockerfileDependencies (readFile (DockerfilePath job)) with
      | Ret deps =>
          match attachNeeds readFile jobMap jobs with
          | Ret jobs => Ret (withNeeds job (resolveNeeds jobMap deps) :: jobs)
          | e => e
          end
      | Fail err => Fail ("parsing dependencies for " +:+ Name job +:+ ": " +:+ err)
      | Panic => Panic
      | OutOfFuel => OutOfFuel
      end
  end.

(** [func orderJobsByDependencies(jobs []Job) ([]Job, error)] *)
Definition orderJobsByDependencies (readFile : string → string + string)
    (jobs : list Job) : outcome (list Job) :=
  let jobMap := buildKeyMap jobs in
  match attachNeeds readFile jobMap jobs with
  | Ret jobs =>
      match topologicalSort jobs with
      | Ret sorted => Ret sorted
      | Fail err => Fail ("sorting jobs: " +:+ err)
      | Panic => Panic
      | OutOfFuel => OutOfFuel
      end
  | e => e
  end.

(** ** The jobs of a manifest *)

Section build_jobs.

(** [filepath.Join] of Go's standard library, applied to the list of its
    arguments. *)
Variable Join : list string → string.

(** [func buildJobsFromConfig(cfg *config.Config) ([]Job, error)]; the
    error is always nil.  [cfg.Images[imageName]] reads the zero [Image]
    for a missing key. *)
Definition buildJobsFromConfig (cfg : config.Config) : outcome (list Job) :=
  let jobs : list Job := [] in
  let imageNames := (map_to_list (config.Images cfg)).*1 in
  let imageNames := sort_strings imageNames in
  let jobs :=
    foldl (fun jobs imageName =>
             let image :=
               default {| config.Path := EmptyString;
                          config.ImageDefaults := None;
                          config.Versions := ∅ |}
                       (config.Images cfg !! imageName) in
             let versions := (map_to_list (config.Versions image)).*1 in
             let versions := sort_strings versions in
             foldl (fun jobs version =>
                      let dockerfilePath :=
                        Join ["images"; config.Path image; version; "Dockerfile"] in
                      let job :=
                        {| ID := generateJobID imageName version;
                           Name := "Build " +:+ imageName +:+ ":" +:+ version;
                           ImageName := imageName;
                           Version := version;
                           DockerfilePath := dockerfilePath;
                           Needs := [] |} in
                      jobs ++ [job])
                   jobs versions)
          jobs imageNames in
  Ret jobs.

(** The job list that [Generate] and [GenerateToWriter] hand to the writer
    of the workflow file (lines 34-42 and 52-60); [readFile] is the file
    system as [os.ReadFile] sees it. *)
Definition orderedJobs (readFile : string → string + string) (cfg : config.Config)
    : outcome (list Job) :=
  match buildJobsFromConfig cfg with
  | Ret jobs =>
      match orderJobsByDependencies readFile jobs with
      | Ret orderedJobs => Ret orderedJobs
      | Fail err => Fail ("ordering jobs by dependencies: " +:+ err)
      | Panic => Panic
      | OutOfFuel => OutOfFuel
      end
  | Fail err => Fail ("building jobs from config: " +:+ err)
  | Panic => Panic
  | OutOfFuel => OutOfFuel
  end.

End build_jobs.

(** The pair that identifies a job in the manifest. *)
Definition jobPair (job : Job) : string * string := (ImageName job, Version job).

(** The order of [buildJobsFromConfig]: by image name, then by version,
    both strictly ascending. *)
Definition pair_lt (a b : string * string) : Prop :=
  string_lt a.1 b.1 ∨ (a.1 = b.1 ∧ string_lt a.2 b.2).

(** [text] holds [part] somewhere. *)
Definition mentions (part text : string) : Prop :=
  ∃ before after, text = before +:+ part +:+ after.

(** [job'] is [job] with the needs [orderJobsByDependencies] attaches: the
    identifiers of the jobs of [jobMap] that the build file of [job]
    depends on. *)
Definition attached (readFile : string → string + string) (jobMap : gmap string Job)
    (job job' : Job) : Prop :=
  ∃ deps, parseDockerfileDependencies (readFile (DockerfilePath job)) = Ret deps ∧
          job' = withNeeds job (resolveNeeds jobMap deps).

(** [[a-zA-Z0-9_]]: a letter, a digit or an underscore. *)
Definition is_word_char (c : ascii) : bool :=
  is_id_char c && negb (Ascii.eqb c "-").

(** A word: a non-empty name made of letters, digits and underscores. *)
Definition word (s : string) : Prop :=
  all_chars is_word_char s = true ∧ s ≠ EmptyString.

(** ** Example job lists *)

(** A job of the tests: only [ID] and [Needs] are set. *)
Definition testJob (id : string) (needs : list string) : Job :=
  {| ID := id; Name := ""; ImageName := ""; Version := "";
     DockerfilePath := ""; Needs := needs |}.

(** The diamond of the tests. *)
Definition diamond : list Job :=
  [testJob "d" ["b"; "c"]; testJob "b" ["a"]; testJob "c" ["a"]; testJob "a" []].

Definition diamond_rank (id : string) : nat :=
  if String.eqb id "a" then 0 else if String.eqb id "d" then 2 else 1.

(** The diamond in a valid build order. *)
Definition diamond_sorted : list Job :=
  [testJob "a" []; testJob "b" ["a"]; testJob "c" ["a"]; testJob "d" ["b"; "c"]].

(** The build files of two images, the first built on the second. *)
Definition app_on_base (path : string) : string + string :=
  if String.eqb path "images/app/v1/Dockerfile"
  then inl ("ARG REGISTRY=test.io" +:+ nl +:+ "FROM ${REGISTRY}/base:v1" +:+ nl)
  else inl ("FROM alpine" +:+ nl).

(** A file system in which only the build file of ["base"] can be read. *)
Definition only_base (path : string) : string + string :=
  if String.eqb path "images/base/v1/Dockerfile"
  then inl ("FROM alpine" +:+ nl)
  else inr "open: no such file or directory".

(** The circular dependency of the tests. *)
Definition two_cycle : list Job :=
  [testJob "a" ["b"]; testJob "b" ["a"]].

(** An image stored under [path] with the one version ["v1"]. *)
Definition one_version (path : string) : config.Image :=
  {| config.Path := path;
     config.ImageDefaults := None;
     config.Versions := {[ "v1" := None ]} |}.

(** A manifest with the image ["app"] in two versions and the image
    ["base"] in one. *)
Definition app_base_cfg : config.Config :=
  {| config.Version := 1;
     config.Defaults_ := {| config.BasePath := EmptyString; config.Registry := "test.io" |};
     config.Images :=
       {[ "app" := {| config.Path := "app";
                      config.ImageDefaults := None;
                      config.Versions := {[ "v1" := None; "v2" := None ]} |};
          "base" := one_version "base" ]} |}.

(** The jobs of [app_base_cfg], as built. *)
Definition app_base_jobs : list Job :=
  [makeJob "app" "app" "v1"; makeJob "app" "app" "v2"; makeJob "base" "base" "v1"].

(** The jobs of [app_base_cfg] in the order of the build, when the first
    version of ["app"] is built on ["base"] (the files [app_on_base]). *)
Definition app_base_ordered : list Job :=
  [makeJob "base" "base" "v1";
   withNeeds (makeJob "app" "app" "v1") ["base-v1"];
   makeJob "app" "app" "v2"].

(** A manifest with the images ["a-b"] and ["a.b"]. *)
Definition colliding_cfg : config.Config :=
  {| config.Version := 1;
     config.Defaults_ := {| config.BasePath := EmptyString; config.Registry := "test.io" |};
     config.Images := {[ "a-b" := one_version "a-b"; "a.b" := one_version "a.b" ]} |}.

(** The jobs of [colliding_cfg]: both get the identifier ["a-b-v1"]. *)
Definition colliding_jobs : list Job :=
  [makeJob "a-b" "a-b" "v1"; makeJob "a.b" "a.b" "v1"].

(** A file system in which every build file starts from a public image. *)
Definition no_dependencies (path : string) : string + string :=
  inl ("FROM alpine" +:+ nl).

(** A manifest with the images ["a-b"], ["a.b"] and ["c"]. *)
Definition cyclic_cfg : config.Config :=
  {| config.Version := 1;
     config.Defaults_ := {| config.BasePath := EmptyString; config.Registry := "test.io" |};
     config.Images := {[ "a-b" := one_version "a-b"; "a.b" := one_version "a.b";
                         "c" := one_version "c" ]} |}.

(** The build files of [cyclic_cfg]: ["a-b"] is built from ["c"] and
    ["c"] from ["a-b"]; ["a.b"] starts from a public image. *)
Definition cyclic_files (path : string) : string + string :=
  if String.eqb path "images/a-b/v1/Dockerfile"
  then inl ("FROM ${REGISTRY}/c:v1" +:+ nl)
  else if String.eqb path "images/c/v1/Dockerfile"
  then inl ("FROM ${REGISTRY}/a-b:v1" +:+ nl)
  else inl ("FROM alpine" +:+ nl).

(** The jobs of [cyclic_cfg], without needs. *)
Definition cyclic_plain : list Job :=
  [makeJob "a-b" "a-b" "v1"; makeJob "a.b" "a.b" "v1"; makeJob "c" "c" "v1"].

(** The jobs of [cyclic_cfg] with the needs their build files give. *)
Definition cyclic_jobs : list Job :=
  [withNeeds (makeJob "a-b" "a-b" "v1") ["c-v1"];
   makeJob "a.b" "a.b" "v1";
   withNeeds (makeJob "c" "c" "v1") ["a-b-v1"]].

End workflow.

(* ================================================================== *)
(** * Package generator *)
(* ================================================================== *)

Module generator.
Import config.

(** The data [GenerateImage] hands to the templates of the version
    [versionName] of [image]: the defaults of lines 51-56, and of the loop
    body the lines 61-72 and 82.  The directory operations in between read
    and write none of these values and are left out.  [None] stands for the
    panic of writing through a nil [mergedConfig]. *)
Definition templateData (cfg : Config) (image : Image) (imageName versionName : string)
    (versionConfig : option ImageConfig) : option template.Data :=
  let imageDefaults :=
    match ImageDefaults image with
    | None => Some emptyImageConfig
    | Some imageDefaults => Some imageDefaults
    end in
  let versionConfig :=
    match versionConfig with
    | None => Some emptyImageConfig
    | Some versionConfig => Some versionConfig
    end in
  match Merge versionConfig imageDefaults with
  | None => None
  | Some mergedConfig =>
      let values := <["version" := VStr versionName]> (Values mergedConfig) in
      let values :=
        match values !! "registry" with
        | Some _ => values
        | None => <["registry" := VStr (Registry (Defaults_ cfg))]> values
        end in
      Some (template.NewData {| BaseImage_ := BaseImage_ mergedConfig;
                                Values := values |} imageName)
  end.

(** The image and the manifest of the loader's tests: one version ["v1"]
    built on [ubuntu], and the default registry ["test.io"]. *)
Definition test_version : ImageConfig :=
  {| BaseImage_ := Some {| Name := "ubuntu"; Source := EmptyString |}; Values := ∅ |}.

Definition test_image : Image :=
  {| Path := "test/path";
     ImageDefaults := None;
     Versions := {[ "v1" := Some test_version ]} |}.

Definition test_cfg : Config :=
  {| Version := 1;
     Defaults_ := {| BasePath := "/repo"; Registry := "test.io" |};
     Images := {[ "test" := test_image ]} |}.

End generator.

(* ================================================================== *)
(** * Strings *)
(* ================================================================== *)

Lemma string_append_assoc (a b c : string) : (a +:+ b) +:+ c = a +:+ b +:+ c.
Proof. induction a as [|x a IH]; [done|]. exact (f_equal (String x) IH). Qed.

Lemma string_append_nil_r (a : string) : a +:+ "" = a.
Proof. induction a as [|x a IH]; [done|]. exact (f_equal (String x) IH). Qed.

Lemma string_append_nil_l (a : string) : "" +:+ a = a.
Proof. done. Qed.

(* ================================================================== *)
(** * Properties of package config *)
(* ================================================================== *)

Module config_spec.
Import config.

(** ** Copies *)

(** The copying loops of [Merge] and [deepCopy] map over the values. *)
Lemma copy_fold_lookup (f : value → value) (m : gmap string value) k :
  map_fold (fun k v result => <[k := f v]> result) (∅ : gmap string value) m !! k = f <$> m !! k.
Proof.
  revert k. apply (map_fold_weak_ind (fun r m => ∀ k, r !! k = f <$> m !! k)).
  - intros k. by rewrite !lookup_empty.
  - intros i x m' r Hi IH k. rewrite !lookup_insert. case_decide; [done|apply IH].
Qed.

Lemma copy_fold_fmap (f : value → value) (m : gmap string value) :
  map_fold (fun k v result => <[k := f v]> result) (∅ : gmap string value) m = f <$> m.
Proof. apply map_eq. intros k. by rewrite copy_fold_lookup, lookup_fmap. Qed.

Lemma value_size_lookup (m : gmap string value) k v :
  m !! k = Some v → value_size v < value_size (VMap m).
Proof.
  simpl. revert k v.
  apply (map_fold_weak_ind (fun r m => ∀ k v, m !! k = Some v → value_size v < S r)).
  - intros k v. by rewrite lookup_empty.
  - intros i x m' r Hi IH k v. rewrite lookup_insert. case_decide as Hd.
    + intros [= ->]. lia.
    + intros Hk. apply IH in Hk. lia.
Qed.

Lemma value_size_elem (l : list value) v :
  v ∈ l → value_size v < value_size (VList l).
Proof.
  simpl. induction l as [|x l IH]; [by intros ?%elem_of_nil|].
  intros [->|H]%elem_of_cons; simpl; [lia|]. apply IH in H. lia.
Qed.

(** A deep copy is equal to what it copies. *)
Lemma deepCopyValue_id_n n : ∀ v, value_size v < n → deepCopyValue v = v.
Proof.
  induction n as [|n IH]; intros v Hv; [lia|].
  destruct v as [| | | |l|m|]; try done; simpl; f_equal.
  - rewrite <-(list_fmap_id l) at 2. apply list_fmap_ext. intros i x Hx.
    apply IH. assert (x ∈ l) as Hin by (by eapply list_elem_of_lookup_2).
    apply value_size_elem in Hin. unfold id. lia.
  - apply map_eq. intros k. rewrite lookup_fmap.
    destruct (m !! k) as [x|] eqn:E; [|done]. simpl. f_equal.
    apply IH. apply value_size_lookup in E. lia.
Qed.

Lemma deepCopyValue_id v : deepCopyValue v = v.
Proof. apply (deepCopyValue_id_n (S (value_size v))). lia. Qed.

Lemma copyBaseImage_id b : copyBaseImage b = b.
Proof. by destruct b. Qed.

Lemma deepCopy_id ic : deepCopy ic = ic.
Proof.
  destruct ic as [[b vals]|]; [|done]. simpl. f_equal. f_equal.
  - destruct b as [b|]; [|done]. simpl. by rewrite copyBaseImage_id.
  - rewrite copy_fold_fmap. apply map_eq. intros k. rewrite lookup_fmap.
    destruct (vals !! k); [|done]. simpl. by rewrite deepCopyValue_id.
Qed.

(** ** Merging *)

Lemma mergeEntry_nested srcMap destMap :
  mergeEntry (VMap srcMap) (Some (VMap destMap)) = VMap (mergeInto destMap srcMap).
Proof. done. Qed.

(** The result of [mergeInto], key by key, whatever the order in which
    the source is traversed. *)
Lemma mergeInto_lookup_entry dest source k :
  mergeInto dest source !! k
  = match source !! k with
    | None => dest !! k
    | Some srcVal => Some (mergeEntry srcVal (dest !! k))
    end.
Proof.
  unfold mergeInto. revert k.
  apply (map_fold_weak_ind (fun r m => ∀ k, r !! k =
    match m !! k with None => dest !! k | Some srcVal => Some (mergeEntry srcVal (dest !! k)) end)).
  - intros k. by rewrite lookup_empty.
  - intros i x m r Hi IH k. rewrite !lookup_insert. case_decide as Hd; [|apply IH].
    subst i. by rewrite IH, Hi.
Qed.

(** Where the loop does not recurse it stores a copy, which is the value
    itself. *)
Lemma mergeEntry_replaced srcVal destVal :
  (∀ o d, srcVal = VMap o → destVal ≠ Some (VMap d)) →
  mergeEntry srcVal destVal = srcVal.
Proof.
  intros H. destruct srcVal as [| | | |l|o|], destVal as [[| | | |l'|d|]|];
    try exact (deepCopyValue_id _).
  by destruct (H o d eq_refl).
Qed.

Lemma mergeInto_merged_n n : ∀ dest source : gmap string value,
  value_size (VMap source) < n → merged source dest (mergeInto dest source).
Proof.
  induction n as [|n IH]; intros dest source Hn; [lia|].
  constructor. intros k. rewrite mergeInto_lookup_entry.
  destruct (source !! k) as [sv|] eqn:E; [|constructor].
  assert ((∃ o d, sv = VMap o ∧ dest !! k = Some (VMap d)) ∨
          (∀ o d, sv = VMap o → dest !! k ≠ Some (VMap d))) as [(o & d & -> & ->)|Hno].
  { destruct sv as [| | | |l|o|]; try (right; intros; discriminate).
    destruct (dest !! k) as [[| | | |l'|d|]|]; try (right; intros; discriminate).
    left. by exists o, d. }
  - rewrite mergeEntry_nested. apply merged_nested. apply IH.
    apply value_size_lookup in E. lia.
  - rewrite mergeEntry_replaced by done. by apply merged_replaced.
Qed.

Lemma mergeInto_merged dest source : merged source dest (mergeInto dest source).
Proof. apply (mergeInto_merged_n (S (value_size (VMap source)))). lia. Qed.

(** The specification leaves no choice: two merges of the same maps are
    equal. *)
Lemma merged_unique_n n : ∀ (o d r r' : gmap string value),
  value_size (VMap o) < n → merged o d r → merged o d r' → r = r'.
Proof.
  induction n as [|n IH]; intros o d r r' Hn H1 H2; [lia|].
  inversion H1 as [? ? ? Hr]; subst. inversion H2 as [? ? ? Hr']; subst.
  apply map_eq. intros k. specialize (Hr k). specialize (Hr' k).
  destruct (o !! k) as [ov|] eqn:Eo.
  - inversion Hr; subst; inversion Hr'; subst; try done;
      try (exfalso;
           match goal with
           | Hno : ∀ o d, _ = VMap o → _ ≠ Some (VMap d), Hd : Some (VMap _) = _ |- _ =>
               symmetry in Hd; exact (Hno _ _ eq_refl Hd)
           end).
    match goal with
    | Ha : Some (VMap ?a) = d !! k, Hb : Some (VMap ?b) = d !! k |- _ =>
        assert (a = b) as -> by congruence
    end.
    f_equal. f_equal. eapply IH; [|eassumption|eassumption].
    apply value_size_lookup in Eo. lia.
  - inversion Hr; inversion Hr'; congruence.
Qed.

Lemma merged_unique (o d r r' : gmap string value) :
  merged o d r → merged o d r' → r = r'.
Proof. apply (merged_unique_n (S (value_size (VMap o)))). lia. Qed.

(** C5.  Merging two present overlays: the base image of the result is the
    overlay's descriptor as a whole when it has one, else the defaults'
    descriptor as a whole; the values of the result are the merge of the
    overlay's values over the defaults' values: a key the overlay lacks
    holds the defaults' value, a key at which both sides hold a mapping
    holds the merge of the two mappings (and so on inside), and any other
    key of the overlay holds the overlay's value.  No other values are
    such a merge. *)
Theorem Merge_present ic defaults :
  ∃ result, Merge (Some ic) (Some defaults) = Some result ∧
    BaseImage_ result
    = match BaseImage_ ic with
      | Some b => Some b
      | None => BaseImage_ defaults
      end ∧
    merged (Values ic) (Values defaults) (Values result) ∧
    ∀ values, merged (Values ic) (Values defaults) values → values = Values result.
Proof.
  eexists. split; [done|]. simpl.
  assert (merged (Values ic) (Values defaults)
            (mergeInto (map_fold (fun k val result => <[k := deepCopyValue val]> result)
                                 ∅ (Values defaults)) (Values ic))) as Hm.
  { rewrite copy_fold_fmap.
    assert (deepCopyValue <$> Values defaults = Values defaults) as ->.
    { apply map_eq. intros k. rewrite lookup_fmap.
      destruct (Values defaults !! k); [|done]. simpl. by rewrite deepCopyValue_id. }
    apply mergeInto_merged. }
  split; [|split; [done|]].
  - destruct (BaseImage_ ic) as [b|]; [by rewrite copyBaseImage_id|].
    destruct (BaseImage_ defaults) as [b|]; [by rewrite copyBaseImage_id|done].
  - intros values Hv. by apply (merged_unique _ _ _ _ Hv).
Qed.

(** C6 as stated: merging two absent overlays gives an empty configuration.
    It gives nil, which is no configuration at all. *)
Lemma Merge_absent_absent_not_empty :
  Merge None None = None ∧
  Merge None None ≠ Some {| BaseImage_ := None; Values := ∅ |}.
Proof. done. Qed.

(** C6, amended.  Merging with absent defaults gives the deep copy of the
    overlay, merging an absent overlay gives the deep copy of the defaults,
    a deep copy equals what it copies, and merging two absent overlays
    gives the absent configuration (nil). *)
Theorem Merge_absent x :
  Merge x None = deepCopy x ∧ Merge None x = deepCopy x ∧ deepCopy x = x ∧
  Merge None None = None.
Proof.
  split; [done|]. split; [by destruct x|]. split; [apply deepCopy_id|done].
Qed.

(** The nested-mapping example of the specification. *)
Example Merge_nested :
  Merge (Some {| BaseImage_ := None;
                 Values := {[ "nested" := VMap (<["a" := VInt 1]> {[ "b" := VInt 2 ]}) ]} |})
        (Some {| BaseImage_ := None;
                 Values := {[ "nested" := VMap (<["a" := VInt 0]> {[ "c" := VInt 3 ]}) ]} |})
  = Some {| BaseImage_ := None;
            Values := {[ "nested" :=
              VMap (<["a" := VInt 1]> (<["b" := VInt 2]> {[ "c" := VInt 3 ]})) ]} |}.
Proof. vm_compute. reflexivity. Qed.

End config_spec.

(* ================================================================== *)
(** * Properties of package template *)
(* ================================================================== *)

Module template_spec.
Import config template.

(** ** Fuel *)

Section from_image_proofs.
Variable Sprint : value → string.

Lemma fromImage_mono fuel : ∀ ref d r fuel',
  fromImage Sprint fuel ref d = Some r → fuel ≤ fuel' →
  fromImage Sprint fuel' ref d = Some r.
Proof.
  induction fuel as [|fuel IH]; intros ref d r fuel' H Hle; [done|].
  destruct fuel' as [|fuel']; [lia|]. simpl in *.
  destruct ref; try done. destruct (Values d !! s); [|done].
  apply IH; [done|lia].
Qed.

Lemma from_image_mono fuel ref d r fuel' :
  from_image Sprint fuel ref d = Some r → fuel ≤ fuel' →
  from_image Sprint fuel' ref d = Some r.
Proof.
  unfold from_image. destruct ref; try apply fromImage_mono.
  destruct (Values d !! s); apply fromImage_mono.
Qed.

Lemma from_image_fromImage fuel ref d r :
  fromImage Sprint fuel ref d = Some r → from_image Sprint fuel ref d = Some r.
Proof.
  intros H. unfold from_image. destruct ref; try done.
  destruct (Values d !! s) eqn:E; [|done].
  destruct fuel as [|fuel]; [done|]. simpl in H. rewrite E in H.
  eapply fromImage_mono; [done|lia].
Qed.

Lemma returns_deterministic ref d text1 d1 text2 d2 :
  returns Sprint ref d text1 d1 → returns Sprint ref d text2 d2 →
  text1 = text2 ∧ d1 = d2.
Proof.
  intros [f1 H1] [f2 H2].
  apply from_image_mono with (fuel' := f1 `max` f2) in H1; [|lia].
  apply from_image_mono with (fuel' := f1 `max` f2) in H2; [|lia].
  by simplify_eq.
Qed.

(** ** Following the indirections *)

Lemma fromImage_terminal fuel v d :
  (∀ k, v ≠ VStr k) →
  fromImage Sprint (S fuel) v d
  = Some (originDirective (descriptor Sprint v).1 (descriptor Sprint v).2 d).
Proof. intros H. destruct v; try done. by destruct (H s). Qed.

Lemma fromImage_resolves d ref t :
  resolves (Values d) ref t →
  ∃ fuel, fromImage Sprint fuel ref d
          = Some (originDirective (descriptor Sprint t).1 (descriptor Sprint t).2 d).
Proof.
  induction 1 as [k v t Hk _ [fuel IH]|k Hk|v Hv].
  - exists (S fuel). simpl. by rewrite Hk.
  - exists 1. simpl. by rewrite Hk.
  - exists 1. by apply fromImage_terminal.
Qed.

Lemma returns_resolves d ref t :
  resolves (Values d) ref t →
  returns Sprint ref d
    (originDirective (descriptor Sprint t).1 (descriptor Sprint t).2 d).1
    (originDirective (descriptor Sprint t).1 (descriptor Sprint t).2 d).2.
Proof.
  intros [fuel H]%fromImage_resolves. exists fuel.
  apply from_image_fromImage. rewrite H. by destruct (originDirective _ _ _).
Qed.

(** ** Bounded recursion on acyclic chains *)

Lemma fromImage_bounded d (Hac : chains_acyclic (Values d)) fuel :
  ∀ (X : gset string) ref,
    X ⊆ dom (Values d) →
    (∀ k x, ref = VStr k → x ∈ X → tc (ref_step (Values d)) x k) →
    size (Values d) < fuel + size X →
    ∃ t, resolves (Values d) ref t ∧
         fromImage Sprint fuel ref d
         = Some (originDirective (descriptor Sprint t).1 (descriptor Sprint t).2 d).
Proof.
  induction fuel as [|fuel IH]; intros X ref HX Hreach Hsz.
  { apply subseteq_size in HX. rewrite size_dom in HX. lia. }
  assert ((∃ k, ref = VStr k) ∨ ∀ k, ref ≠ VStr k) as [[k ->]|Hne]
    by (destruct ref; try (by right); left; by eexists); last first.
  { exists ref. split; [by apply resolves_terminal|]. by apply fromImage_terminal. }
  simpl. destruct (Values d !! k) as [v|] eqn:Hk; last first.
  { exists (VStr k). split; [by apply resolves_literal|done]. }
  assert (k ∉ X) as HkX.
  { intros Hin. apply (Hac k). by apply (Hreach k). }
  destruct (IH ({[k]} ∪ X) v) as (t & Ht & Hf).
  - apply union_subseteq. split; [|done]. apply singleton_subseteq_l, elem_of_dom. by eexists.
  - intros k' x -> [->%elem_of_singleton|Hx]%elem_of_union.
    + by apply tc_once.
    + eapply tc_r; [by apply (Hreach k)|done].
  - rewrite size_union by set_solver. rewrite size_singleton. lia.
  - exists t. split; [by eapply resolves_key|done].
Qed.

Lemma fromImage_cycle d k :
  tc (ref_step (Values d)) k k → ∀ fuel, fromImage Sprint fuel (VStr k) d = None.
Proof.
  intros Hc fuel. revert k Hc. induction fuel as [|fuel IH]; intros k Hc; [done|].
  assert (∃ k', ref_step (Values d) k k' ∧ tc (ref_step (Values d)) k' k') as (k' & Hs & Hc').
  { inversion Hc as [?? H1|? k1 ? H1 H2]; subst.
    - exists k. split; [done|]. by apply tc_once.
    - exists k1. split; [done|]. eapply tc_r; [done|done]. }
  simpl. rewrite Hs. by apply IH.
Qed.

(** ** What [originDirective] does *)

Lemma originDirective_public name d :
  originDirective name "dockerhub" d = ("FROM " +:+ name, d).
Proof. done. Qed.

Lemma originDirective_declared name source d :
  source ≠ "dockerhub" → rootPathIncluded d = true →
  originDirective name source d = ("FROM ${REGISTRY}/" +:+ name, d).
Proof.
  intros Hs Hd. unfold originDirective.
  destruct (String.eqb_spec source "dockerhub"); [done|]. by rewrite Hd.
Qed.

Lemma originDirective_first name source registry d :
  source ≠ "dockerhub" → rootPathIncluded d = false →
  Values d !! "registry" = Some (VStr registry) →
  originDirective name source d
  = ("ARG REGISTRY=" +:+ registry +:+ nl +:+ "FROM ${REGISTRY}/" +:+ name,
     mark_declared d).
Proof.
  intros Hs Hd Hr. unfold originDirective.
  destruct (String.eqb_spec source "dockerhub"); [done|]. rewrite Hd, Hr. simpl.
  rewrite !string_append_assoc. reflexivity.
Qed.

Lemma originDirective_absent name source d :
  source ≠ "dockerhub" → rootPathIncluded d = false →
  Values d !! "registry" = None →
  originDirective name source d
  = ("# ERROR: registry not set in config" +:+ nl +:+ "FROM ${REGISTRY}/" +:+ name, d).
Proof.
  intros Hs Hd Hr. unfold originDirective.
  destruct (String.eqb_spec source "dockerhub"); [done|]. by rewrite Hd, Hr.
Qed.

Lemma originDirective_not_a_string name source v d :
  source ≠ "dockerhub" → rootPathIncluded d = false →
  Values d !! "registry" = Some v → not_a_string v →
  originDirective name source d
  = ("# ERROR: registry is not a string" +:+ nl +:+ "FROM ${REGISTRY}/" +:+ name, d).
Proof.
  intros Hs Hd Hr Hv. unfold originDirective.
  destruct (String.eqb_spec source "dockerhub"); [done|]. rewrite Hd, Hr. simpl.
  destruct v; try done. by destruct (Hv s).
Qed.

Lemma originDirective_state name source d :
  (originDirective name source d).2 = d ∨
  ((originDirective name source d).2 = mark_declared d ∧
   ∃ registry, Values d !! "registry" = Some (VStr registry)).
Proof.
  unfold originDirective. destruct (String.eqb source "dockerhub"); [by left|]. simpl.
  destruct (rootPathIncluded d); [by left|]. simpl.
  destruct (Values d !! "registry") as [[]|]; try by left.
  right. split; [done|]. by eexists.
Qed.

Lemma fromImage_originDirective fuel : ∀ ref d r,
  fromImage Sprint fuel ref d = Some r → ∃ name source, r = originDirective name source d.
Proof.
  induction fuel as [|fuel IH]; intros ref d r H; [done|]. simpl in H.
  destruct ref; try (injection H as <-; by do 2 eexists).
  destruct (Values d !! s); [by eapply IH|]. injection H as <-; by do 2 eexists.
Qed.

Lemma from_image_originDirective fuel ref d r :
  from_image Sprint fuel ref d = Some r → ∃ name source, r = originDirective name source d.
Proof.
  unfold from_image. destruct ref; try apply fromImage_originDirective.
  destruct (Values d !! s); apply fromImage_originDirective.
Qed.

(** Once the flag is set the registry is a string. *)
Lemma reachable_declared d :
  reachable Sprint d → rootPathIncluded d = true →
  ∃ registry, Values d !! "registry" = Some (VStr registry).
Proof.
  induction 1 as [|d fuel ref text d' _ IH H]; [done|].
  apply from_image_originDirective in H as (name & source & H).
  destruct (originDirective_state name source d) as [E|[E ?]];
    rewrite <-H in E; simpl in E; subst d'; [done|]. by intros _.
Qed.


(** ** A whole template *)

Lemma render_mono fuel fuel' : ∀ refs d r,
  render Sprint fuel refs d = Some r → fuel ≤ fuel' →
  render Sprint fuel' refs d = Some r.
Proof.
  induction refs as [|ref refs IH]; intros d r H Hle; [done|]. simpl in *.
  destruct (from_image Sprint fuel ref d) as [[text d1]|] eqn:E; [|done].
  rewrite (from_image_mono _ _ _ _ _ E Hle).
  destruct (render Sprint fuel refs d1) as [[texts d2]|] eqn:E2; [|done].
  by rewrite (IH _ _ E2 Hle).
Qed.

Lemma renders_cons ref refs d text d1 texts d2 :
  returns Sprint ref d text d1 → renders Sprint refs d1 texts d2 →
  renders Sprint (ref :: refs) d (text :: texts) d2.
Proof.
  intros [f1 H1] [f2 H2]. exists (f1 `max` f2). simpl.
  rewrite (from_image_mono _ _ _ _ (f1 `max` f2) H1) by lia.
  by rewrite (render_mono _ (f1 `max` f2) _ _ _ H2) by lia.
Qed.

Lemma resolves_end vals ref t :
  resolves vals ref t → ∀ k, t = VStr k → vals !! k = None.
Proof.
  induction 1 as [| |v Hv]; intros k' E;
    [by eapply IHresolves|congruence|by destruct (Hv k')].
Qed.

Lemma render_expected registry vals refs ts :
  vals !! "registry" = Some (VStr registry) →
  Forall2 (resolves vals) refs ts →
  ∀ d, Values d = vals →
  ∃ d', renders Sprint refs d
          (expected_texts Sprint registry (rootPathIncluded d) ts) d' ∧
        Values d' = vals ∧
        rootPathIncluded d'
        = rootPathIncluded d || existsb (fun t => negb (is_public Sprint t)) ts.
Proof.
  intros Hr. induction 1 as [|ref t refs ts Hres _ IH]; intros d Hd.
  { exists d. split; [by exists 0|]. split; [done|]. simpl. by rewrite orb_false_r. }
  subst vals. pose proof (returns_resolves d ref t Hres) as Hret. simpl.
  destruct (is_public Sprint t) eqn:Hp; unfold is_public in Hp; simpl.
  - apply String.eqb_eq in Hp. rewrite Hp, originDirective_public in Hret. simpl in Hret.
    destruct (IH d eq_refl) as (d' & ? & ? & ?). exists d'. split; [|done].
    by eapply renders_cons.
  - apply String.eqb_neq in Hp. destruct (rootPathIncluded d) eqn:Hflag.
    + rewrite originDirective_declared in Hret by done. simpl in Hret.
      destruct (IH d eq_refl) as (d' & ? & ? & Hf). exists d'.
      split; [|by rewrite Hf, Hflag].
      eapply renders_cons; [done|]. by rewrite Hflag in *.
    + rewrite (originDirective_first _ _ registry) in Hret by done. simpl in Hret.
      destruct (IH (mark_declared d) eq_refl) as (d' & ? & ? & ?).
      exists d'. split; [|done]. by eapply renders_cons.
Qed.

Lemma expected_texts_declarations registry declared ts :
  length (filter (fun text => declares_registry text = true)
                 (expected_texts Sprint registry declared ts))
  ≤ if declared then 0 else 1.
Proof.
  revert declared. induction ts as [|t ts IH]; intros declared; simpl.
  { destruct declared; simpl; lia. }
  destruct (is_public Sprint t).
  - rewrite filter_cons_False by done. apply IH.
  - destruct declared.
    + rewrite filter_cons_False by done. apply (IH true).
    + rewrite filter_cons_True by reflexivity. simpl. specialize (IH true). simpl in IH. lia.
Qed.

(** C4.  In a context whose flag is unset and whose registry is the string
    [registry], a template that resolves the references [refs] one after
    the other produces [expected_texts]: the first reference that is not
    public gives the [ARG REGISTRY=registry] line followed by its [FROM]
    line and sets the flag, every later one gives its [FROM] line alone; so
    at most one text declares the registry. *)
Theorem registry_declared_once d registry refs ts :
  Values d !! "registry" = Some (VStr registry) →
  rootPathIncluded d = false →
  Forall2 (resolves (Values d)) refs ts →
  ∃ d', renders Sprint refs d (expected_texts Sprint registry false ts) d' ∧
        rootPathIncluded d' = existsb (fun t => negb (is_public Sprint t)) ts ∧
        length (filter (fun text => declares_registry text = true)
                       (expected_texts Sprint registry false ts)) ≤ 1.
Proof.
  intros Hr Hflag Hres.
  destruct (render_expected registry _ refs ts Hr Hres d eq_refl) as (d' & H1 & _ & H2).
  rewrite Hflag in H1, H2. exists d'. split; [done|]. split; [done|].
  apply (expected_texts_declarations registry false).
Qed.

(** C7.  Whatever the state of the context, a reference that ends at a
    descriptor tagged ["dockerhub"] gives exactly [FROM name] and leaves
    the context as it was. *)
Theorem public_origin_plain d ref t :
  resolves (Values d) ref t →
  (descriptor Sprint t).2 = "dockerhub" →
  returns Sprint ref d ("FROM " +:+ (descriptor Sprint t).1) d.
Proof.
  intros Hres Hs. pose proof (returns_resolves d ref t Hres) as Hret.
  by rewrite Hs, originDirective_public in Hret.
Qed.

(** C8.  With the flag cleared, resolving a reference that is not public
    returns text and leaves the context as it was: the annotation
    [# ERROR: registry not set in config] and the [FROM] line with the
    placeholder path when the registry is absent, the annotation
    [# ERROR: registry is not a string] and the same line when it is
    there but no string. *)
Theorem registry_error_annotation d ref t :
  rootPathIncluded d = false →
  resolves (Values d) ref t →
  (descriptor Sprint t).2 ≠ "dockerhub" →
  (Values d !! "registry" = None →
   returns Sprint ref d
     ("# ERROR: registry not set in config" +:+ nl +:+
      "FROM ${REGISTRY}/" +:+ (descriptor Sprint t).1) d)
  ∧
  (∀ v, Values d !! "registry" = Some v → not_a_string v →
   returns Sprint ref d
     ("# ERROR: registry is not a string" +:+ nl +:+
      "FROM ${REGISTRY}/" +:+ (descriptor Sprint t).1) d).
Proof.
  intros Hflag Hres Hs. pose proof (returns_resolves d ref t Hres) as Hret.
  split.
  - intros Hr. by rewrite originDirective_absent in Hret.
  - intros v Hr Hv. by rewrite (originDirective_not_a_string _ _ v) in Hret.
Qed.

(** What [originDirective] returns for a terminal is the origin text and
    the state the specification gives. *)
Lemma originDirective_origin_text d t :
  originDirective (descriptor Sprint t).1 (descriptor Sprint t).2 d
  = (origin_text Sprint (Values d) (rootPathIncluded d) t, origin_state Sprint d t).
Proof.
  unfold origin_text, origin_state, is_public.
  destruct (String.eqb (descriptor Sprint t).2 "dockerhub") eqn:Hp.
  { apply String.eqb_eq in Hp. rewrite Hp. apply originDirective_public. }
  apply String.eqb_neq in Hp.
  destruct (rootPathIncluded d) eqn:Hflag; [by apply originDirective_declared|].
  destruct (Values d !! "registry") as [v|] eqn:Hr;
    [|by apply originDirective_absent].
  destruct v;
    try (apply (originDirective_not_a_string _ _ _ _ Hp Hflag Hr); by intros ?).
  by apply originDirective_first.
Qed.

(** C9.  When no chain of indirections of the context is circular, the
    resolution of a string key follows the chain to its terminal, a
    descriptor or a string that is no key, and returns for every fuel above
    the number of values; what it returns is the origin text of that
    terminal, and the context with the flag set when the declaration of the
    registry was emitted. *)
Theorem fromImage_follows_chain d k :
  chains_acyclic (Values d) →
  ∃ t, resolves (Values d) (VStr k) t ∧
       (∀ k', t = VStr k' → Values d !! k' = None) ∧
       ∀ fuel, size (Values d) < fuel →
         fromImage Sprint fuel (VStr k) d
         = Some (origin_text Sprint (Values d) (rootPathIncluded d) t,
                 origin_state Sprint d t) ∧
         from_image Sprint fuel (VStr k) d
         = Some (origin_text Sprint (Values d) (rootPathIncluded d) t,
                 origin_state Sprint d t).
Proof.
  intros Hac.
  destruct (fromImage_bounded d Hac (S (size (Values d))) ∅ (VStr k)) as (t & Ht & Hf).
  - set_solver.
  - intros ?? _ ?. set_solver.
  - lia.
  - exists t. split; [done|]. split; [by eapply resolves_end|].
    intros fuel Hfuel. rewrite <-originDirective_origin_text.
    assert (fromImage Sprint fuel (VStr k) d
      = Some (originDirective (descriptor Sprint t).1 (descriptor Sprint t).2 d)) as H.
    { eapply fromImage_mono; [done|lia]. }
    split; [done|]. by apply from_image_fromImage.
Qed.

(** C10.  A resolution that takes a registry error branch returns an
    [# ERROR] text and leaves the context unchanged, flag unset; in any
    context with that flag whose registry is a string, a resolution that is
    not public emits the [ARG REGISTRY] line and sets the flag. *)
Theorem registry_error_keeps_flag d ref t :
  resolves (Values d) ref t →
  (descriptor Sprint t).2 ≠ "dockerhub" →
  rootPathIncluded d = false →
  (Values d !! "registry" = None ∨
   ∃ v, Values d !! "registry" = Some v ∧ not_a_string v) →
  ∃ text, returns Sprint ref d text d ∧
    has_prefix "# ERROR: registry" text = true ∧
    ∀ d2 registry ref2 t2,
      rootPathIncluded d2 = rootPathIncluded d →
      Values d2 !! "registry" = Some (VStr registry) →
      resolves (Values d2) ref2 t2 →
      (descriptor Sprint t2).2 ≠ "dockerhub" →
      returns Sprint ref2 d2
        ("ARG REGISTRY=" +:+ registry +:+ nl +:+
         "FROM ${REGISTRY}/" +:+ (descriptor Sprint t2).1)
        (mark_declared d2).
Proof.
  intros Hres Hs Hflag Hreg. pose proof (returns_resolves d ref t Hres) as Hret.
  assert (∃ text, returns Sprint ref d text d ∧ has_prefix "# ERROR: registry" text = true)
    as (text & H1 & H2).
  { destruct Hreg as [Hr|(v & Hr & Hv)].
    - rewrite originDirective_absent in Hret by done. by eexists.
    - rewrite (originDirective_not_a_string _ _ v) in Hret by done. by eexists. }
  exists text. split; [done|]. split; [done|].
  intros d2 registry ref2 t2 Hflag2 Hr2 Hres2 Hs2.
  pose proof (returns_resolves d2 ref2 t2 Hres2) as Hret2.
  rewrite (originDirective_first _ _ registry) in Hret2; [done..|congruence|done].
Qed.

End from_image_proofs.

(** ** Examples and witnesses *)

(** A rank that decreases along the indirections rules out circular chains. *)
Lemma chains_acyclic_by_rank (vals : gmap string value) (rank : string → nat) :
  (∀ k k', ref_step vals k k' → rank k' < rank k) → chains_acyclic vals.
Proof.
  intros H k Hc.
  assert (∀ a b, tc (ref_step vals) a b → rank b < rank a) as Htc.
  { clear k Hc. induction 1 as [a b Hab|a c b Hac _ IH]; [by apply H|].
    apply H in Hac. lia. }
  specialize (Htc k k Hc). lia.
Qed.

Lemma descriptor_terminal vals b : resolves vals (VBase b) (VBase b).
Proof. by apply resolves_terminal. Qed.

(** The two private resolutions of the tests: a witness of C4. *)
Lemma registry_declared_once_witness :
  ∃ d', renders no_Sprint [myimage; anotherimage] registry_ctx
          (expected_texts no_Sprint "my-registry.io" false [myimage; anotherimage]) d' ∧
        rootPathIncluded d'
        = existsb (fun t => negb (is_public no_Sprint t)) [myimage; anotherimage] ∧
        length (filter (fun text => declares_registry text = true)
                  (expected_texts no_Sprint "my-registry.io" false
                     [myimage; anotherimage])) ≤ 1.
Proof.
  apply (registry_declared_once no_Sprint registry_ctx "my-registry.io"
           [myimage; anotherimage] [myimage; anotherimage]).
  - reflexivity.
  - reflexivity.
  - constructor; [apply descriptor_terminal|].
    constructor; [apply descriptor_terminal|]. constructor.
Defined.

Example render_private_twice :
  render no_Sprint 1 [myimage; anotherimage] registry_ctx
  = Some (["ARG REGISTRY=my-registry.io" +:+ nl +:+ "FROM ${REGISTRY}/myimage";
           "FROM ${REGISTRY}/anotherimage"],
          mark_declared registry_ctx).
Proof. vm_compute. reflexivity. Qed.

(** A public image in between changes nothing, and comes out plain. *)
Example render_public_between :
  render no_Sprint 1 [ubuntu; myimage; ubuntu; anotherimage] registry_ctx
  = Some (["FROM ubuntu:20.04";
           "ARG REGISTRY=my-registry.io" +:+ nl +:+ "FROM ${REGISTRY}/myimage";
           "FROM ubuntu:20.04";
           "FROM ${REGISTRY}/anotherimage"],
          mark_declared registry_ctx).
Proof. vm_compute. reflexivity. Qed.

(** The public image of the specification: a witness of C7. *)
Lemma public_origin_plain_witness :
  returns no_Sprint ubuntu (mark_declared registry_ctx) "FROM ubuntu:20.04"
    (mark_declared registry_ctx).
Proof.
  exact (public_origin_plain no_Sprint (mark_declared registry_ctx) ubuntu ubuntu
           (descriptor_terminal _ _) eq_refl).
Defined.

Lemma custom_not_public : (descriptor no_Sprint myimage).2 ≠ "dockerhub".
Proof. done. Qed.

Lemma bare_ctx_no_registry : Values bare_ctx !! "registry" = None.
Proof. by vm_compute. Qed.

Lemma numeric_ctx_registry : Values numeric_ctx !! "registry" = Some (VInt 12345).
Proof. by vm_compute. Qed.

Lemma number_not_a_string n : not_a_string (VInt n).
Proof. by intros s. Qed.

Lemma unset_ctx_no_registry : Values unset_ctx !! "registry" = None.
Proof. done. Qed.

Lemma number_ctx_registry : Values number_ctx !! "registry" = Some (VInt 12345).
Proof. done. Qed.

(** Both error annotations, in the contexts of the tests: a witness of C8. *)
Lemma registry_error_annotation_witness :
  returns no_Sprint myimage unset_ctx
    ("# ERROR: registry not set in config" +:+ nl +:+ "FROM ${REGISTRY}/myimage")
    unset_ctx
  ∧
  returns no_Sprint myimage number_ctx
    ("# ERROR: registry is not a string" +:+ nl +:+ "FROM ${REGISTRY}/myimage")
    number_ctx.
Proof.
  split.
  - exact (proj1 (registry_error_annotation no_Sprint unset_ctx myimage myimage
                    eq_refl (descriptor_terminal _ _) custom_not_public)
             unset_ctx_no_registry).
  - exact (proj2 (registry_error_annotation no_Sprint number_ctx myimage myimage
                    eq_refl (descriptor_terminal _ _) custom_not_public)
             (VInt 12345) number_ctx_registry (number_not_a_string _)).
Defined.

Lemma nested_ctx_acyclic : chains_acyclic (Values nested_ctx).
Proof.
  apply (chains_acyclic_by_rank _ nested_rank). intros k k' H.
  unfold ref_step, nested_ctx in H. simpl in H.
  rewrite lookup_insert in H. case_decide as Hk.
  - injection H as <-. subst k. vm_compute. lia.
  - rewrite lookup_singleton in H. by case_decide.
Qed.

Lemma chain_ctx_acyclic : chains_acyclic (Values chain_ctx).
Proof.
  apply (chains_acyclic_by_rank _ chain_rank). intros k k' H.
  unfold ref_step, chain_ctx in H. simpl in H.
  rewrite lookup_insert in H. case_decide as Hk.
  - subst k. injection H as <-. vm_compute. lia.
  - rewrite lookup_insert in H. case_decide; [done|].
    rewrite lookup_singleton in H. case_decide; [|done].
    subst k. injection H as <-. vm_compute. lia.
Qed.

(** A chain of two keys that ends at a private image: a witness of C9. *)
Lemma fromImage_follows_chain_witness :
  ∃ t, resolves (Values chain_ctx) (VStr "base") t ∧
       (∀ k', t = VStr k' → Values chain_ctx !! k' = None) ∧
       ∀ fuel, size (Values chain_ctx) < fuel →
         fromImage no_Sprint fuel (VStr "base") chain_ctx
         = Some (origin_text no_Sprint (Values chain_ctx) (rootPathIncluded chain_ctx) t,
                 origin_state no_Sprint chain_ctx t) ∧
         from_image no_Sprint fuel (VStr "base") chain_ctx
         = Some (origin_text no_Sprint (Values chain_ctx) (rootPathIncluded chain_ctx) t,
                 origin_state no_Sprint chain_ctx t).
Proof. exact (fromImage_follows_chain no_Sprint chain_ctx "base" chain_ctx_acyclic). Defined.

(** The chain above, evaluated. *)
Example fromImage_chain :
  fromImage no_Sprint 4 (VStr "base") chain_ctx
  = Some ("ARG REGISTRY=test.io" +:+ nl +:+ "FROM ${REGISTRY}/golang",
          mark_declared chain_ctx).
Proof. vm_compute. reflexivity. Qed.

Example fromImage_nested :
  fromImage no_Sprint 3 (VStr "level1") nested_ctx = Some ("FROM alpine", nested_ctx).
Proof. vm_compute. reflexivity. Qed.

(** A key that names itself is followed for ever. *)
Example fromImage_self_reference fuel :
  fromImage no_Sprint fuel (VStr "self") looping_ctx = None.
Proof. apply fromImage_cycle. apply tc_once. by vm_compute. Qed.

Lemma bare_ctx_flag : rootPathIncluded bare_ctx = false.
Proof. done. Qed.

(** After the error the declaration is still to come: a witness of C10. *)
Lemma registry_error_keeps_flag_witness :
  ∃ text, returns no_Sprint myimage bare_ctx text bare_ctx ∧
    has_prefix "# ERROR: registry" text = true ∧
    ∀ d2 registry ref2 t2,
      rootPathIncluded d2 = rootPathIncluded bare_ctx →
      Values d2 !! "registry" = Some (VStr registry) →
      resolves (Values d2) ref2 t2 →
      (descriptor no_Sprint t2).2 ≠ "dockerhub" →
      returns no_Sprint ref2 d2
        ("ARG REGISTRY=" +:+ registry +:+ nl +:+
         "FROM ${REGISTRY}/" +:+ (descriptor no_Sprint t2).1)
        (mark_declared d2).
Proof.
  exact (registry_error_keeps_flag no_Sprint bare_ctx myimage myimage
           (descriptor_terminal _ _) custom_not_public bare_ctx_flag
           (or_introl bare_ctx_no_registry)).
Defined.

(** The error, then the registry is set, then the declaration. *)
Example fromImage_error_then_declared :
  fromImage no_Sprint 1 myimage bare_ctx
  = Some ("# ERROR: registry not set in config" +:+ nl +:+ "FROM ${REGISTRY}/myimage",
          bare_ctx) ∧
  fromImage no_Sprint 1 anotherimage
    {| Values := <["registry" := VStr "my-registry.io"]> (Values bare_ctx);
       rootPathIncluded := rootPathIncluded bare_ctx;
       generationMessage := generationMessage bare_ctx |}
  = Some ("ARG REGISTRY=my-registry.io" +:+ nl +:+ "FROM ${REGISTRY}/anotherimage",
          mark_declared
            {| Values := <["registry" := VStr "my-registry.io"]> (Values bare_ctx);
               rootPathIncluded := rootPathIncluded bare_ctx;
               generationMessage := generationMessage bare_ctx |}).
Proof. split; vm_compute; reflexivity. Qed.

End template_spec.

(* ================================================================== *)
(** * Properties of package workflow *)
(* ================================================================== *)

Module workflow_spec.
Import workflow.

(** ** The traversal of [visit] *)

Section traversal.
Variable jobMap : gmap string Job.

Local Abbreviation edge := (workflow.edge jobMap).
Local Abbreviation closed := (workflow.closed jobMap).
Local Abbreviation cycle_error := (workflow.cycle_error jobMap).
Local Abbreviation on_stack := (workflow.on_stack jobMap).
Local Abbreviation covers := (workflow.covers jobMap).
Local Abbreviation good := (workflow.good jobMap).
Local Abbreviation inv := (workflow.inv jobMap).
Local Abbreviation extends := (workflow.extends jobMap).

Lemma flag_insert (m : gmap string bool) k b k' :
  flag (<[k := b]> m) k' = if decide (k = k') then b else flag m k'.
Proof. unfold flag. rewrite lookup_insert. by case_decide. Qed.

(** A returning call leaves the marks of the jobs being visited as they
    were. *)
Lemma each_frame {A} (body : A → state → outcome state) l s s' :
  (∀ x s s', x ∈ l → body x s = Ret s' → same_visiting s s') →
  each body l s = Ret s' → same_visiting s s'.
Proof.
  revert s. induction l as [|x l IH]; intros s Hb; simpl.
  - intros [= <-]. by intros k.
  - destruct (body x s) as [s1| | |] eqn:E; try done.
    intros H. apply IH in H; [|intros; eapply Hb; [by right|done]].
    apply Hb in E; [|by left]. intros k. by rewrite H, E.
Qed.

Lemma visit_frame fuel jobID s s' :
  visit jobMap fuel jobID s = Ret s' → same_visiting s s'.
Proof.
  revert jobID s s'. induction fuel as [|fuel IH]; intros jobID s s'; simpl; [done|].
  destruct (flag (visited s) jobID) eqn:Hd; [by intros [= <-] k|].
  destruct (flag (visiting s) jobID) eqn:Hg; [done|].
  destruct (jobMap !! jobID) as [job|]; [|done].
  destruct (each _ _ _) as [s2| | |] eqn:E; try done.
  intros [= <-]. apply each_frame in E; [|by intros; eapply IH].
  intros k. simpl. rewrite flag_insert. specialize (E k). simpl in E.
  rewrite flag_insert in E. case_decide; by subst.
Qed.

(** The fuel suffices when it exceeds the number of known jobs that are
    not being visited; an error names a job on a cycle; nothing panics
    when every needed identifier is known. *)
Lemma each_good {A} (key : A → string) (body : A → state → outcome state) l s0 s :
  (∀ x s, x ∈ l → same_visiting s0 s → good (is_Some (jobMap !! key x)) (body x s)) →
  (∀ x s s', x ∈ l → body x s = Ret s' → same_visiting s s') →
  same_visiting s0 s →
  good (∀ x, x ∈ l → is_Some (jobMap !! key x)) (each body l s).
Proof.
  revert s. induction l as [|x l IH]; intros s Hg Hf Hs; simpl.
  - by repeat split.
  - destruct (Hg x s) as (H1 & H2 & H3); [by left|done|].
    destruct (body x s) as [s1| | |] eqn:E.
    + destruct (IH s1) as (I1 & I2 & I3).
      * intros; apply Hg; [by right|done].
      * intros; eapply Hf; [by right|done].
      * apply Hf in E; [|by left]. intros k. by rewrite E, Hs.
      * split; [done|]. split; [|done].
        intros Hc Hk. apply I2; [done|]. intros; apply Hk. by right.
    + repeat split; try done. 
    + split; [done|]. split; [|done]. intros Hc Hk. apply H2; [done|]. apply Hk. by left.
    + done.
Qed.

Lemma visit_good fuel : ∀ jobID s (W : gset string),
  on_stack s jobID → covers W s → size W < fuel →
  good (is_Some (jobMap !! jobID)) (visit jobMap fuel jobID s).
Proof.
  induction fuel as [|fuel IH]; intros jobID s W Hst Hcov Hsz; [lia|]. simpl.
  destruct (flag (visited s) jobID) eqn:Hd; [by repeat split|].
  destruct (flag (visiting s) jobID) eqn:Hv.
  { repeat split; try done. intros err [= <-]. exists jobID. split; [done|]. by apply Hst. }
  destruct (jobMap !! jobID) as [job|] eqn:Hjob;
    [|split; [done|]; split; [|done]; by intros _ [??]].
  set (s1 := {| sorted := sorted s; visited := visited s;
                visiting := <[jobID:=true]> (visiting s) |}).
  assert (jobID ∈ W) as HW by (apply Hcov; [by rewrite Hjob|done]).
  destruct (each_good id (visit jobMap fuel) (Needs job) s1 s1) as (G1 & G2 & G3).
  - intros dep s' Hdep Hs'. apply (IH dep s' (W ∖ {[jobID]})).
    + intros v Hvv. rewrite Hs' in Hvv. simpl in Hvv. rewrite flag_insert in Hvv.
      assert (edge jobID dep) by (by exists job).
      case_decide; [subst; by apply tc_once|].
      eapply tc_r; [by apply Hst|done].
    + intros k Hk Hkv. rewrite Hs' in Hkv. simpl in Hkv. rewrite flag_insert in Hkv.
      case_decide; [done|]. apply elem_of_difference. split; [by apply Hcov|set_solver].
    + assert (size W = size (W ∖ {[jobID]}) + 1); [|lia].
      rewrite (size_difference W {[jobID]}) by set_solver. rewrite size_singleton.
      assert (size W ≠ 0); [|lia]. intros ?%size_empty_inv. set_solver.
  - intros; by eapply visit_frame.
  - done.
  - destruct (each _ _ s1) as [s2| | |] eqn:E.
    + by repeat split.
    + by repeat split.
    + split; [done|]. split; [|done]. intros Hc _. apply G2; [done|].
      intros dep Hdep. apply (Hc jobID). by exists job.
    + done.
Qed.


(** From here on the table files every job under its own identifier. *)
Hypothesis jobMap_ID : ∀ i job, jobMap !! i = Some job → ID job = i.

Lemma extends_refl s : inv s → extends s s.
Proof. by split. Qed.

Lemma extends_trans s1 s2 s3 : extends s1 s2 → extends s2 s3 → extends s1 s3.
Proof.
  intros [A1 A2 A3 A4] [B1 B2 B3 B4]. split; [done| | |].
  - intros k. by rewrite B2, A2.
  - auto.
  - intros k Hk. rewrite B4; [by apply A4|]. by rewrite A2.
Qed.

Lemma each_extends {A} (key : A → string) (body : A → state → outcome state) l s s' :
  (∀ x s s', x ∈ l → inv s → body x s = Ret s' →
     extends s s' ∧ flag (visited s') (key x) = true) →
  inv s → each body l s = Ret s' →
  extends s s' ∧ ∀ x, x ∈ l → flag (visited s') (key x) = true.
Proof.
  revert s. induction l as [|x l IH]; intros s Hb Hs; simpl.
  - intros [= <-]. split; [by apply extends_refl|]. by intros x ?%elem_of_nil.
  - destruct (body x s) as [s1| | |] eqn:E; try done.
    intros H. destruct (Hb x s s1) as [E1 E2]; [by left|done..|].
    destruct (IH s1) as [I1 I2]; [|by destruct E1|done|].
    { intros; apply Hb; [by right|done..]. }
    split; [by eapply extends_trans|].
    intros y [->|Hy]%elem_of_cons; [|by apply I2].
    by apply (ext_visited _ _ _ I1).
Qed.

(** A returning call keeps the invariant, marks its job as visited and
    leaves the jobs being visited unvisited. *)
Lemma visit_extends fuel : ∀ jobID s s',
  inv s → visit jobMap fuel jobID s = Ret s' →
  extends s s' ∧ flag (visited s') jobID = true.
Proof.
  induction fuel as [|fuel IH]; intros jobID s s' Hs Hv; [done|].
  pose proof (visit_frame _ _ _ _ Hv) as Hframe. simpl in Hv.
  destruct (flag (visited s) jobID) eqn:Hd.
  { injection Hv as <-. split; [by apply extends_refl|done]. }
  destruct (flag (visiting s) jobID) eqn:Hg; [done|].
  destruct (jobMap !! jobID) as [job|] eqn:Hjob; [|done].
  set (s1 := {| sorted := sorted s; visited := visited s;
                visiting := <[jobID:=true]> (visiting s) |}) in *.
  destruct (each _ _ s1) as [s2| | |] eqn:E; try done.
  injection Hv as <-.
  apply (each_extends id) in E as [[I2 F2 V2 S2] D2];
    [|by intros; apply IH|by destruct Hs].
  assert (flag (visited s2) jobID = false) as Hfresh.
  { rewrite S2; [done|]. simpl. rewrite flag_insert. by case_decide. }
  pose proof (jobMap_ID _ _ Hjob) as Hid.
  split; [|simpl; rewrite flag_insert; by case_decide].
  split; [|done| |]; simpl.
  - destruct I2 as [J1 J2 J3 J4]. split; simpl.
    + intros job' [Hj| ->%list_elem_of_singleton]%elem_of_app.
      * destruct (J1 _ Hj) as [??]. split; [done|].
        rewrite flag_insert. by case_decide.
      * rewrite Hid. split; [done|]. rewrite flag_insert. by case_decide.
    + intros i. rewrite flag_insert. case_decide as Hi.
      * subst i. intros _. exists job. split; [done|]. apply elem_of_app. right. by left.
      * intros (job' & ? & ?)%J2. exists job'. split; [done|]. apply elem_of_app. by left.
    + rewrite fmap_app. apply NoDup_app. split; [done|]. split; [|apply NoDup_singleton].
      intros i Hi ->%list_elem_of_singleton.
      apply list_elem_of_fmap in Hi as (job' & Hid' & Hj').
      destruct (J1 _ Hj') as [_ Hvis]. rewrite <-Hid', Hid in Hvis. congruence.
    + intros i job' dep Hi Hdep.
      destruct (decide (i < length (sorted s2))) as [Hlt|Hge].
      * rewrite lookup_app_l in Hi by done.
        destruct (J4 i job' dep Hi Hdep) as (i' & j' & ? & ? & ?).
        exists i', j'. split; [done|]. split; [|done].
        rewrite lookup_app_l; [done|lia].
      * rewrite lookup_app_r in Hi by lia.
        apply list_lookup_singleton_Some in Hi as [Hi <-].
        destruct (J2 dep) as (j' & Hj' & Hin); [by apply D2|].
        apply list_elem_of_lookup in Hin as [i' Hi'].
        pose proof (lookup_lt_Some _ _ _ Hi').
        exists i', j'. split; [lia|]. split; [|by eapply jobMap_ID].
        by rewrite lookup_app_l.
  - intros k Hk. rewrite flag_insert. case_decide; [done|]. by apply V2.
  - intros k Hk. rewrite flag_insert. case_decide; [congruence|].
    rewrite S2; [done|]. simpl. rewrite flag_insert. by case_decide.
Qed.

End traversal.


(** ** The lookup table *)

Section job_map.

Lemma buildJobMap_fold_lookup jobs : ∀ (m : gmap string Job) i job,
  foldl (fun jobMap job => <[ID job := job]> jobMap) m jobs !! i = Some job →
  (job ∈ jobs ∧ ID job = i) ∨ m !! i = Some job.
Proof.
  induction jobs as [|x l IH]; intros m i job; simpl; [by right|].
  intros H. apply IH in H as [[??]|H]; [left; split; [by right|done]|].
  rewrite lookup_insert in H. case_decide; [|by right].
  injection H as <-. left. split; [by left|done].
Qed.

Lemma buildJobMap_fold_is_Some jobs : ∀ (m : gmap string Job) i,
  is_Some (foldl (fun jobMap job => <[ID job := job]> jobMap) m jobs !! i) ↔
  i ∈ ID <$> jobs ∨ is_Some (m !! i).
Proof.
  induction jobs as [|x l IH]; intros m i; simpl.
  - rewrite elem_of_nil. tauto.
  - rewrite IH, elem_of_cons, lookup_insert. case_decide as Hd.
    + subst i. split; intros _; [by left; left|right; by eexists].
    + split.
      * intros [?|?]; [left; by right|by right].
      * intros [[?|?]|?]; [congruence|by left|by right].
Qed.

Lemma buildJobMap_fold_other jobs : ∀ (m : gmap string Job) i,
  i ∉ ID <$> jobs →
  foldl (fun jobMap job => <[ID job := job]> jobMap) m jobs !! i = m !! i.
Proof.
  induction jobs as [|x l IH]; intros m i; simpl; [done|].
  rewrite not_elem_of_cons. intros [??]. rewrite IH by done. by rewrite lookup_insert_ne.
Qed.

Lemma buildJobMap_fold_size jobs : ∀ (m : gmap string Job),
  size (foldl (fun jobMap job => <[ID job := job]> jobMap) m jobs) ≤ size m + length jobs.
Proof.
  induction jobs as [|x l IH]; intros m; simpl; [lia|].
  etrans; [apply IH|]. rewrite map_size_insert. destruct (m !! ID x); simpl; lia.
Qed.

Lemma buildJobMap_lookup jobs i job :
  buildJobMap jobs !! i = Some job → job ∈ jobs ∧ ID job = i.
Proof. intros [?|H]%buildJobMap_fold_lookup; [done|]. by rewrite lookup_empty in H. Qed.

Lemma buildJobMap_is_Some jobs i :
  is_Some (buildJobMap jobs !! i) ↔ i ∈ ID <$> jobs.
Proof.
  unfold buildJobMap. rewrite buildJobMap_fold_is_Some, lookup_empty.
  split; [intros [?|[? [=]]]; done|by left].
Qed.

Lemma buildJobMap_size jobs : size (dom (buildJobMap jobs)) ≤ length jobs.
Proof.
  rewrite size_dom. pose proof (buildJobMap_fold_size jobs ∅) as H.
  by rewrite map_size_empty in H.
Qed.

Lemma buildJobMap_lookup_NoDup jobs job :
  NoDup (ID <$> jobs) → job ∈ jobs → buildJobMap jobs !! ID job = Some job.
Proof.
  unfold buildJobMap. generalize (∅ : gmap string Job).
  induction jobs as [|x l IH]; intros m Hnd Hin; [by apply elem_of_nil in Hin|].
  rewrite fmap_cons in Hnd. apply NoDup_cons in Hnd as [Hx Hnd]. simpl.
  apply elem_of_cons in Hin as [->|Hin]; [|by apply IH].
  rewrite buildJobMap_fold_other by done. by rewrite lookup_insert_eq.
Qed.

Lemma edge_depends jobs a b : edge (buildJobMap jobs) a b → depends jobs a b.
Proof. intros (job & [??]%buildJobMap_lookup & ?). by exists job. Qed.

Lemma tc_edge_depends jobs a b :
  tc (edge (buildJobMap jobs)) a b → tc (depends jobs) a b.
Proof. induction 1; [apply tc_once|eapply tc_l; [|done]]; by apply edge_depends. Qed.

Lemma needs_known_closed jobs : needs_known jobs → closed (buildJobMap jobs).
Proof.
  intros Hk a b (job & [??]%buildJobMap_lookup & ?).
  apply buildJobMap_is_Some. by eapply Hk.
Qed.

End job_map.

(** ** Order and cycles *)

(** In a list where dependencies come first, a chain of needs leads to
    earlier and earlier positions. *)
Lemma dependencies_first_tc l a b :
  NoDup (ID <$> l) → dependencies_first l → tc (depends l) a b →
  ∀ i job, l !! i = Some job → ID job = a →
    ∃ i' job', i' < i ∧ l !! i' = Some job' ∧ ID job' = b.
Proof.
  intros Hnd Hord. 
  assert (∀ a b, depends l a b → ∀ i job, l !! i = Some job → ID job = a →
    ∃ i' job', i' < i ∧ l !! i' = Some job' ∧ ID job' = b) as Hstep.
  { clear a b. intros a b (job0 & Hin & Hid & Hdep) i job Hi Hj.
    apply list_elem_of_lookup in Hin as [i0 Hi0].
    assert (i0 = i) as ->.
    { eapply (NoDup_lookup _ _ _ a Hnd); rewrite list_lookup_fmap.
      - by rewrite Hi0; simpl; rewrite Hid.
      - by rewrite Hi; simpl; rewrite Hj. }
    assert (job0 = job) as -> by congruence. by eapply Hord. }
  induction 1 as [a b H|a c b H _ IH]; intros i job Hi Hj; [by eapply Hstep|].
  destruct (Hstep _ _ H _ _ Hi Hj) as (i' & job' & ? & Hi' & Hj').
  destruct (IH _ _ Hi' Hj') as (i'' & job'' & ? & ? & ?).
  exists i'', job''. split; [lia|done].
Qed.

Lemma dependencies_first_acyclic l :
  NoDup (ID <$> l) → dependencies_first l → acyclic l.
Proof.
  intros Hnd Hord a Hc.
  assert (∃ job, job ∈ l ∧ ID job = a) as (job & Hin & Hid).
  { inversion Hc as [?? (job & ? & ? & ?)|??? (job & ? & ? & ?)]; by exists job. }
  apply list_elem_of_lookup in Hin as [i Hi].
  destruct (dependencies_first_tc l a a Hnd Hord Hc i job Hi Hid) as (i' & job' & Hlt & Hi' & Hid').
  assert (i' = i); [|lia].
  eapply (NoDup_lookup _ _ _ a Hnd); rewrite list_lookup_fmap.
  - by rewrite Hi'; simpl; rewrite Hid'.
  - by rewrite Hi; simpl; rewrite Hid.
Qed.


(** ** The sort *)

Lemma inv_s0 jobMap : inv jobMap s0.
Proof.
  split; simpl.
  - by intros job ?%elem_of_nil.
  - intros i. unfold flag. by rewrite lookup_empty.
  - apply NoDup_nil_2.
  - by intros i job dep ?.
Qed.

(** The loop of [topologicalSort] over all jobs. *)
Lemma sort_loop_good jobs :
  good (buildJobMap jobs) (∀ x, x ∈ jobs → is_Some (buildJobMap jobs !! ID x))
    (each (fun job => visit (buildJobMap jobs) (S (length jobs)) (ID job)) jobs s0).
Proof.
  apply (each_good (buildJobMap jobs) ID _ jobs s0 s0); [| |done].
  - intros x s Hx Hs. apply (visit_good _ _ _ _ (dom (buildJobMap jobs))).
    + intros v Hv. rewrite Hs in Hv. unfold flag in Hv. simpl in Hv.
      by rewrite lookup_empty in Hv.
    + intros k Hk _. by apply elem_of_dom.
    + pose proof (buildJobMap_size jobs). lia.
  - intros. by eapply visit_frame.
Qed.

Lemma sort_loop_extends jobs s :
  each (fun job => visit (buildJobMap jobs) (S (length jobs)) (ID job)) jobs s0 = Ret s →
  inv (buildJobMap jobs) s ∧ ∀ job, job ∈ jobs → flag (visited s) (ID job) = true.
Proof.
  assert (∀ i job, buildJobMap jobs !! i = Some job → ID job = i) as HID.
  { intros i job H. by apply buildJobMap_lookup in H as [??]. }
  intros H. apply (each_extends (buildJobMap jobs)) with (key := ID) in H as [[??] ?]; [done| |].
  - intros x s1 s2 _ Hs1 Hv. by eapply visit_extends.
  - apply inv_s0.
Qed.

Lemma topologicalSort_Ret jobs l :
  NoDup (ID <$> jobs) → topologicalSort jobs = Ret l →
  l ≡ₚ jobs ∧ dependencies_first l.
Proof.
  intros Hnd. unfold topologicalSort. fold s0.
  destruct (each _ _ _) as [s| | |] eqn:E; try done. intros [= <-].
  apply sort_loop_extends in E as [[J1 J2 J3 J4] Hall]. split; [|done].
  apply NoDup_Permutation.
  - by eapply NoDup_fmap_1.
  - by eapply NoDup_fmap_1.
  - intros job. split.
    + intros [[??]%buildJobMap_lookup _]%J1. done.
    + intros Hin. destruct (J2 (ID job)) as (job' & Hj' & ?); [by apply Hall|].
      rewrite buildJobMap_lookup_NoDup in Hj' by done. congruence.
Qed.

(** For jobs with pairwise distinct identifiers whose needs
    all name jobs of the list and form no cycle, [topologicalSort] returns
    a list that holds every job exactly once (a permutation of the input)
    and in which every job stands after the jobs it needs. *)
Theorem topologicalSort_acyclic jobs :
  NoDup (ID <$> jobs) → needs_known jobs → acyclic jobs →
  ∃ l, topologicalSort jobs = Ret l ∧ l ≡ₚ jobs ∧ dependencies_first l.
Proof.
  intros Hnd Hk Hac.
  destruct (sort_loop_good jobs) as (G1 & G2 & G3).
  assert (∃ l, topologicalSort jobs = Ret l) as [l Hl].
  { unfold topologicalSort. fold s0. destruct (each _ _ _) as [s|err| |] eqn:E.
    - by eexists.
    - destruct (G3 err eq_refl) as (k & _ & Hc). by apply tc_edge_depends, Hac in Hc.
    - destruct G2; [by apply needs_known_closed| |done].
      intros x Hx. apply buildJobMap_is_Some. by apply list_elem_of_fmap_2.
    - done. }
  exists l. split; [done|]. by apply topologicalSort_Ret.
Qed.

(** For jobs with pairwise distinct identifiers whose needs
    all name jobs of the list, when the needs form a cycle
    [topologicalSort] returns the error that names a job lying on a cycle,
    and no list. *)
Theorem topologicalSort_cyclic jobs :
  NoDup (ID <$> jobs) → needs_known jobs → (∃ a, tc (depends jobs) a a) →
  ∃ k, topologicalSort jobs = Fail ("circular dependency detected involving job " +:+ k)
       ∧ k ∈ ID <$> jobs ∧ tc (depends jobs) k k.
Proof.
  intros Hnd Hk [a Ha].
  destruct (sort_loop_good jobs) as (G1 & G2 & G3).
  destruct (topologicalSort jobs) as [l|err| |] eqn:Hts.
  - apply topologicalSort_Ret in Hts as [Hp Hord]; [|done].
    destruct (dependencies_first_acyclic l) with (a := a); [by rewrite Hp|done|].
    eapply tc_congruence with (f := λ x, x); [|done].
    intros x y (job & ? & ? & ?). exists job. by rewrite Hp.
  - unfold topologicalSort in Hts. fold s0 in Hts.
    destruct (each _ _ _) as [s|err'| |] eqn:E; try done. injection Hts as <-.
    destruct (G3 err' eq_refl) as (k & -> & Hc%tc_edge_depends). exists k.
    split; [done|]. split; [|done].
    inversion Hc as [?? (job & ? & ? & ?)|??? (job & ? & ? & ?)]; subst;
      by apply list_elem_of_fmap_2.
  - unfold topologicalSort in Hts. fold s0 in Hts.
    destruct (each _ _ _) as [s|err'| |] eqn:E; try done.
    destruct G2; [by apply needs_known_closed| |done].
    intros x Hx. apply buildJobMap_is_Some. by apply list_elem_of_fmap_2.
  - unfold topologicalSort in Hts. fold s0 in Hts.
    by destruct (each _ _ _) as [s|err'| |] eqn:E.
Qed.

(** ** Matching [fromPattern] *)

Lemma strip_prefix_Some p : ∀ s r, strip_prefix p s = Some r ↔ s = p +:+ r.
Proof.
  induction p as [|a p IH]; intros s r; simpl.
  - split; [by intros [= ->]|by intros ->].
  - destruct s as [|b s]; [done|].
    destruct (Ascii.eqb_spec a b) as [->|Hne].
    + rewrite IH. split; [by intros ->|]. intros H. by injection H.
    + split; [done|]. intros H. injection H as ??. done.
Qed.

Lemma span_spec cls s :
  s = (span cls s).1 +:+ (span cls s).2 ∧
  all_chars cls (span cls s).1 = true ∧ ends_run cls (span cls s).2.
Proof.
  induction s as [|c s (IH1 & IH2 & IH3)]; simpl; [done|].
  destruct (cls c) eqn:Hc; simpl; [|done].
  split; [exact (f_equal (String c) IH1)|]. by rewrite Hc.
Qed.

Lemma span_app cls run : ∀ rest,
  all_chars cls run = true → ends_run cls rest → span cls (run +:+ rest) = (run, rest).
Proof.
  induction run as [|c run IH]; intros rest Hrun Hrest; simpl in *.
  - destruct rest as [|c rest]; [done|]. simpl in *. by rewrite Hrest.
  - apply andb_true_iff in Hrun as [Hc Hrun]. 
    change (String c run +:+ rest) with (String c (run +:+ rest)). simpl.
    by rewrite Hc, IH.
Qed.

Lemma greedy_decisive {R} cls (k : string → string → option R) s : ∀ taken,
  (∀ t c r, cls c = true → k t (String c r) = None) →
  greedy cls k taken s = k (taken +:+ (span cls s).1) (span cls s).2.
Proof.
  induction s as [|c s IH]; intros taken Hk; simpl.
  - by rewrite string_append_nil_r.
  - destruct (cls c) eqn:Hc; simpl; [|by rewrite string_append_nil_r].
    rewrite IH by done. rewrite string_append_assoc. simpl.
    change (String c "" +:+ (span cls s).1) with (String c (span cls s).1).
    destruct (k _ _); [done|]. by apply Hk.
Qed.

Lemma greedy_longest {R} cls (k : string → string → option R) s : ∀ taken r,
  k (taken +:+ (span cls s).1) (span cls s).2 = Some r →
  greedy cls k taken s = Some r.
Proof.
  induction s as [|c s IH]; intros taken r; simpl.
  - by rewrite string_append_nil_r.
  - destruct (cls c) eqn:Hc; simpl; [|by rewrite string_append_nil_r].
    intros H. rewrite (IH _ r); [done|]. by rewrite string_append_assoc.
Qed.

Lemma space_not_F c : is_space c = true → Ascii.eqb "F" c = false.
Proof. by destruct c as [[] [] [] [] [] [] [] []]. Qed.

Lemma space_not_dollar c : is_space c = true → Ascii.eqb "$" c = false.
Proof. by destruct c as [[] [] [] [] [] [] [] []]. Qed.

Lemma not_colon_space_not_colon c : not_colon_space c = true → Ascii.eqb ":" c = false.
Proof. by destruct c as [[] [] [] [] [] [] [] []]. Qed.

Local Arguments Ascii.eqb : simpl never.

Lemma exec_Lit l prog s :
  exec (Lit l :: prog) s
  = match strip_prefix l s with Some s' => exec prog s' | None => None end.
Proof. done. Qed.

Lemma exec_Star cls prog s :
  exec (Star cls :: prog) s = greedy cls (fun _ rest => exec prog rest) EmptyString s.
Proof. done. Qed.

Lemma exec_Plus cls prog s :
  exec (Plus cls :: prog) s
  = greedy cls (fun taken rest =>
                  match taken with EmptyString => None | _ => exec prog rest end)
           EmptyString s.
Proof. done. Qed.

Lemma exec_Group cls prog s :
  exec (Group cls :: prog) s
  = greedy cls (fun taken rest =>
                  match taken with
                  | EmptyString => None
                  | _ => cons taken <$> exec prog rest
                  end)
           EmptyString s.
Proof. done. Qed.

(** [exec] on the program of [fromPattern], step by step. *)
Lemma exec_fromPattern line :
  exec (prog fromPattern) line =
    match strip_prefix "FROM" (span is_space line).2 with
    | None => None
    | Some r2 =>
        match (span is_space r2).1 with
        | EmptyString => None
        | _ =>
            match strip_prefix "${REGISTRY}/" (span is_space r2).2 with
            | None => None
            | Some r4 =>
                match (span not_colon_space r4).1 with
                | EmptyString => None
                | imageName =>
                    match strip_prefix ":" (span not_colon_space r4).2 with
                    | None => None
                    | Some r6 =>
                        match (span not_space r6).1 with
                        | EmptyString => None
                        | version => Some [imageName; version]
                        end
                    end
                end
            end
        end
    end.
Proof.
  unfold fromPattern, prog.
  rewrite exec_Star, greedy_decisive; last first.
  { intros t c r Hc. rewrite exec_Lit. simpl. by rewrite (space_not_F c Hc). }
  rewrite exec_Lit.
  destruct (strip_prefix "FROM" (span is_space line).2) as [r2|]; [|done].
  rewrite exec_Plus, greedy_decisive; last first.
  { intros t c r Hc. destruct t; [done|]. rewrite exec_Lit. simpl.
    by rewrite (space_not_dollar c Hc). }
  rewrite string_append_nil_l.
  destruct (span is_space r2).1 as [|w ws]; [done|].
  rewrite exec_Lit.
  destruct (strip_prefix "${REGISTRY}/" (span is_space r2).2) as [r4|]; [|done].
  rewrite exec_Group, greedy_decisive; last first.
  { intros t c r Hc. destruct t; [done|]. rewrite exec_Lit. simpl.
    by rewrite (not_colon_space_not_colon c Hc). }
  rewrite string_append_nil_l.
  destruct (span not_colon_space r4).1 as [|i i']; [done|].
  rewrite exec_Lit.
  destruct (strip_prefix ":" (span not_colon_space r4).2) as [r6|]; [|done].
  rewrite exec_Group.
  destruct (span not_space r6).1 as [|v vs] eqn:Ev.
  - destruct r6 as [|c r6]; [done|]. simpl in *. by destruct (not_space c).
  - erewrite greedy_longest; [done|]. by rewrite string_append_nil_l, Ev.
Qed.

(** A line matches [fromPattern] exactly when it has the shape of a
    registry origin line; the groups are the image name and the version. *)
Lemma fromPattern_form line imageName version :
  FindStringSubmatch fromPattern line = Some [imageName; version] ↔
  registry_origin_line line imageName version.
Proof.
  unfold FindStringSubmatch. simpl (anchored fromPattern). cbv iota.
  rewrite exec_fromPattern. split.
  - destruct (span_spec is_space line) as (L1 & A1 & _).
    destruct (span is_space line) as [indent rem1]. cbn [fst snd] in *.
    destruct (strip_prefix "FROM" rem1) as [r2|] eqn:E2; [|done].
    apply strip_prefix_Some in E2.
    destruct (span_spec is_space r2) as (L2 & A2 & _).
    destruct (span is_space r2) as [gap rem2]. cbn [fst snd] in *.
    destruct gap as [|w ws]; [by cbv iota|]. cbv iota.
    destruct (strip_prefix "${REGISTRY}/" rem2) as [r4|] eqn:E4; [|done].
    apply strip_prefix_Some in E4.
    destruct (span_spec not_colon_space r4) as (L4 & A4 & _).
    destruct (span not_colon_space r4) as [name rem4]. cbn [fst snd] in *.
    destruct name as [|i i']; [by cbv iota|]. cbv iota.
    destruct (strip_prefix ":" rem4) as [r6|] eqn:E6; [|done].
    apply strip_prefix_Some in E6.
    destruct (span_spec not_space r6) as (L6 & A6 & R6).
    destruct (span not_space r6) as [ver rest]. cbn [fst snd] in *.
    destruct ver as [|v vs]; [by cbv iota|]. cbv iota.
    intros [= <- <-].
    exists indent, (String w ws), rest. split; [|done].
    subst line rem1 r2 rem2 r4 rem4 r6. reflexivity.
  - intros (indent & gap & rest & -> & A1 & A2 & N2 & A4 & N4 & A6 & N6 & R6).
    rewrite span_app; [|done..]. cbn [fst snd].
    assert (strip_prefix "FROM" ("FROM" +:+ gap +:+ "${REGISTRY}/" +:+
      imageName +:+ ":" +:+ version +:+ rest) = Some (gap +:+ "${REGISTRY}/" +:+
      imageName +:+ ":" +:+ version +:+ rest)) as -> by (by apply strip_prefix_Some).
    rewrite span_app; [|done..]. simpl (_.1); cbn [fst snd].
    destruct gap as [|g gap]; [done|].
    assert (strip_prefix "${REGISTRY}/" ("${REGISTRY}/" +:+
      imageName +:+ ":" +:+ version +:+ rest) = Some (
      imageName +:+ ":" +:+ version +:+ rest)) as -> by (by apply strip_prefix_Some).
    rewrite span_app; [|done..]. simpl (_.1); cbn [fst snd].
    destruct imageName as [|i imageName]; [done|].
    assert (strip_prefix ":" (":" +:+ version +:+ rest) = Some (version +:+ rest)) as ->
      by (by apply strip_prefix_Some).
    rewrite span_app; [|done..]. cbn [fst snd].
    by destruct version as [|v version].
Qed.

(** ** Matching [copyFromPattern], [stagePattern] and [registryPattern] *)

Lemma all_chars_app cls a b :
  all_chars cls (a +:+ b) = all_chars cls a && all_chars cls b.
Proof.
  induction a as [|c a IH]; [done|].
  change (String c a +:+ b) with (String c (a +:+ b)). cbn [all_chars].
  by rewrite IH, andb_assoc.
Qed.






(** *** The last tail *)






(** *** Repetitions *)







(** *** The keyword of a line *)


(** *** [copyFromPattern] *)







(** *** [stagePattern] *)






(** *** [registryPattern] *)






(** ** The lines of a text *)








(** ** The dependencies of a build file *)



Lemma scanLine_spec stageNames depsMap line key :
  is_Some (scanLine stageNames depsMap line !! key) ↔
  is_Some (depsMap !! key) ∨ line_key stageNames line key.
Proof.
  unfold scanLine, line_key.
  set (m1 := match FindStringSubmatch fromPattern line with
             | Some [imageName; version] => <[imageName +:+ ":" +:+ version:=true]> depsMap
             | _ => depsMap end).
  assert (is_Some (m1 !! key) ↔ is_Some (depsMap !! key) ∨
    ∃ imageName version, FindStringSubmatch fromPattern line = Some [imageName; version] ∧
      key = imageName +:+ ":" +:+ version) as H1.
  { subst m1. destruct (FindStringSubmatch fromPattern line) as [[|i [|v [|??]]]|];
      try (split; [by left|by intros [?|(?&?&?&?)]]).
    rewrite lookup_insert. case_decide as Hd.
    - split; [|by eexists]. intros _. right. by exists i, v.
    - split; [by left|]. intros [?|(?&?&?&?)]; [done|]. congruence. }
  clearbody m1.
  assert (is_Some (m1 !! key) → is_Some (depsMap !! key) ∨ line_key stageNames line key) as H1a.
  { intros [?|?]%H1; [by left|right; by left]. }
  assert (is_Some (depsMap !! key) ∨ (∃ imageName version,
      FindStringSubmatch fromPattern line = Some [imageName; version] ∧
      key = imageName +:+ ":" +:+ version) → is_Some (m1 !! key)) as H1b by apply H1.
  unfold line_key in H1a.
  destruct (FindStringSubmatch copyFromPattern line) as [[|r [|??]]|];
    try (split; [done|]; intros [?|[?|(?&?&?&?&?)]]; [auto..|done]).
  destruct (flag stageNames r) eqn:Hr; simpl.
  { split; [done|]. intros [?|[?|(?&?&?&?&?&?&?)]]; [auto..|]. congruence. }
  destruct (FindStringSubmatch registryPattern r) as [[|i [|v [|??]]]|] eqn:Hre;
    try (split; [done|]; intros [?|[?|(?&?&?&?&?&?&?)]]; [auto..|]; congruence).
  rewrite lookup_insert. case_decide as Hd.
  - split; [|by eexists]. intros _. right. right. by exists r, i, v.
  - split; [done|]. intros [?|[?|(?&?&?&?&?&?&?)]]; [auto..|]. congruence.
Qed.

Lemma scanLine_fold stageNames lines : ∀ depsMap key,
  is_Some (foldl (scanLine stageNames) depsMap lines !! key) ↔
  is_Some (depsMap !! key) ∨ ∃ line, line ∈ lines ∧ line_key stageNames line key.
Proof.
  induction lines as [|line lines IH]; intros depsMap key; simpl.
  - split; [by left|]. intros [?|(? & []%elem_of_nil & _)]. done.
  - rewrite IH, scanLine_spec. split.
    + intros [[?|?]|(l & ? & ?)]; [by left| |].
      * right. exists line. split; [by left|done].
      * right. exists l. split; [by right|done].
    + intros [?|(l & [->|?]%elem_of_cons & ?)]; [by left; left|by left; right|].
      right. by exists l.
Qed.

Lemma Sorted_le_NoDup_lt (l : list string) :
  Sorted String.le l → NoDup l → StronglySorted string_lt l.
Proof.
  intros Hs%Sorted_StronglySorted Hnd; [|apply _].
  induction Hs as [|x l Hs IH Hx]; [constructor|].
  apply NoDup_cons in Hnd as [Hx' Hnd]. constructor; [by apply IH|].
  apply Forall_forall. intros y Hy. split.
  - by eapply Forall_forall in Hx.
  - intros ->. done.
Qed.


(** ** Examples and witnesses *)

(** The fuel [topologicalSort] gives to [visit] always suffices. *)
Lemma topologicalSort_total jobs : topologicalSort jobs ≠ OutOfFuel.
Proof.
  destruct (sort_loop_good jobs) as (G1 & _ & _).
  unfold topologicalSort. fold s0. by destruct (each _ _ _).
Qed.

(** A rank that decreases along the needs rules out cycles. *)
Lemma acyclic_by_rank jobs (rank : string → nat) :
  (∀ a b, depends jobs a b → rank b < rank a) → acyclic jobs.
Proof.
  intros H a Hc.
  assert (∀ a b, tc (depends jobs) a b → rank b < rank a) as Htc.
  { clear a Hc. induction 1 as [a b Hab|a c b Hac _ IH]; [by apply H|].
    apply H in Hac. lia. }
  specialize (Htc a a Hc). lia.
Qed.

Ltac in_cases :=
  repeat match goal with
  | H : _ ∈ [] |- _ => by apply elem_of_nil in H
  | H : _ ∈ _ :: _ |- _ => apply elem_of_cons in H as [->|H]
  end.

Lemma diamond_NoDup : NoDup (ID <$> diamond).
Proof. by apply (bool_decide_unpack _). Qed.

Lemma diamond_needs_known : needs_known diamond.
Proof.
  intros job dep Hjob Hdep. unfold diamond in *. in_cases; simpl in *; in_cases;
    apply (bool_decide_unpack _); by vm_compute.
Qed.

Lemma diamond_acyclic : acyclic diamond.
Proof.
  apply (acyclic_by_rank _ diamond_rank). intros a b (job & Hjob & <- & Hdep).
  unfold diamond in *. in_cases; simpl in *; in_cases; vm_compute; lia.
Qed.

(** The diamond of the tests is sorted. *)
Lemma topologicalSort_acyclic_witness :
  ∃ l, topologicalSort diamond = Ret l ∧ l ≡ₚ diamond ∧ dependencies_first l.
Proof.
  exact (topologicalSort_acyclic diamond diamond_NoDup diamond_needs_known diamond_acyclic).
Defined.

Example topologicalSort_diamond :
  topologicalSort diamond
  = Ret [testJob "a" []; testJob "b" ["a"]; testJob "c" ["a"]; testJob "d" ["b"; "c"]].
Proof. vm_compute. reflexivity. Qed.

Lemma two_cycle_NoDup : NoDup (ID <$> two_cycle).
Proof. by apply (bool_decide_unpack _). Qed.

Lemma two_cycle_needs_known : needs_known two_cycle.
Proof.
  intros job dep Hjob Hdep. unfold two_cycle in *. in_cases; simpl in *; in_cases;
    apply (bool_decide_unpack _); by vm_compute.
Qed.

Lemma two_cycle_cycle : ∃ a, tc (depends two_cycle) a a.
Proof.
  exists "a". apply tc_l with "b"; [|apply tc_once].
  - exists (testJob "a" ["b"]). split; [by left|]. split; [done|by left].
  - exists (testJob "b" ["a"]). split; [right; by left|]. split; [done|by left].
Qed.

(** The circular dependency of the tests is reported. *)
Lemma topologicalSort_cyclic_witness :
  ∃ k, topologicalSort two_cycle
       = Fail ("circular dependency detected involving job " +:+ k)
       ∧ k ∈ ID <$> two_cycle ∧ tc (depends two_cycle) k k.
Proof.
  exact (topologicalSort_cyclic two_cycle two_cycle_NoDup two_cycle_needs_known
           two_cycle_cycle).
Defined.

Example topologicalSort_two_cycle :
  topologicalSort two_cycle = Fail "circular dependency detected involving job a".
Proof. vm_compute. reflexivity. Qed.

(** The identifiers of the specification, and two that collide. *)
Example generateJobID_examples :
  generateJobID "my.app" "v1.0" = "my-app-v1-0" ∧
  generateJobID "123app" "v1" = "build-123app-v1" ∧
  generateJobID "-app-" "-v1-" = "app-v1" ∧
  generateJobID "a" "b-c" = generateJobID "a-b" "c".
Proof. vm_compute. done. Qed.

Lemma colliding_jobs_acyclic : acyclic colliding_jobs.
Proof.
  apply (acyclic_by_rank _ (fun _ => 0)). intros a b (job & Hjob & <- & Hdep).
  unfold colliding_jobs in *. in_cases; simpl in *; in_cases.
Qed.

Lemma cyclic_jobs_cycle : tc (depends cyclic_jobs) "c-v1" "c-v1".
Proof.
  apply tc_l with "a-b-v1"; [|apply tc_once].
  - exists (withNeeds (makeJob "c" "c" "v1") ["a-b-v1"]).
    split; [right; right; by left|]. split; [by vm_compute|by left].
  - exists (withNeeds (makeJob "a-b" "a-b" "v1") ["c-v1"]).
    split; [by left|]. split; [by vm_compute|by left].
Qed.

(** C1.  The manifest with the images [a-b] and [a.b] gives two jobs with
    the identifier [a-b-v1].  Their build files name no dependency, so the
    needs are acyclic; yet [topologicalSort] returns one job for the two,
    without an error, and so does the ordering the generator runs on the
    manifest. *)
Theorem topologicalSort_drops_job :
  buildJobsFromConfig (String.concat "/") colliding_cfg = Ret colliding_jobs ∧
  attachNeeds no_dependencies (buildKeyMap colliding_jobs) colliding_jobs
  = Ret colliding_jobs ∧
  acyclic colliding_jobs ∧
  topologicalSort colliding_jobs = Ret [makeJob "a.b" "a.b" "v1"] ∧
  orderedJobs (String.concat "/") no_dependencies colliding_cfg
  = Ret [makeJob "a.b" "a.b" "v1"] ∧
  ¬ ∃ l, topologicalSort colliding_jobs = Ret l ∧ l ≡ₚ colliding_jobs ∧
         dependencies_first l.
Proof.
  assert (topologicalSort colliding_jobs = Ret [makeJob "a.b" "a.b" "v1"]) as E
    by (vm_compute; reflexivity).
  split; [vm_compute; reflexivity|]. split; [vm_compute; reflexivity|].
  split; [apply colliding_jobs_acyclic|]. split; [exact E|].
  split; [vm_compute; reflexivity|].
  intros (l & Hl & Hp & _). rewrite E in Hl. injection Hl as <-.
  by apply Permutation_length in Hp.
Qed.

(** C2.  In the manifest with the images [a-b], [a.b] and [c], the build
    file of [a-b] starts from [c] and that of [c] from [a-b]: the needs of
    the jobs hold the cycle [c-v1], [a-b-v1], [c-v1].  The job of [a.b]
    has the identifier [a-b-v1] too and replaces that of [a-b] in the map
    of [topologicalSort], which returns two of the three jobs and no
    error; so does the ordering the generator runs on the manifest. *)
Theorem topologicalSort_misses_cycle :
  buildJobsFromConfig (String.concat "/") cyclic_cfg = Ret cyclic_plain ∧
  attachNeeds cyclic_files (buildKeyMap cyclic_plain) cyclic_plain = Ret cyclic_jobs ∧
  tc (depends cyclic_jobs) "c-v1" "c-v1" ∧
  topologicalSort cyclic_jobs
  = Ret [makeJob "a.b" "a.b" "v1"; withNeeds (makeJob "c" "c" "v1") ["a-b-v1"]] ∧
  orderedJobs (String.concat "/") cyclic_files cyclic_cfg
  = Ret [makeJob "a.b" "a.b" "v1"; withNeeds (makeJob "c" "c" "v1") ["a-b-v1"]] ∧
  ¬ ∃ err, topologicalSort cyclic_jobs = Fail err.
Proof.
  split; [vm_compute; reflexivity|]. split; [vm_compute; reflexivity|].
  split; [apply cyclic_jobs_cycle|]. split; [vm_compute; reflexivity|].
  split; [vm_compute; reflexivity|].
  intros (err & Hl). vm_compute in Hl. done.
Qed.

(** The examples of the tests of [parseDockerfileDependencies]. *)
Example parseDockerfileDependencies_none :
  parseDockerfileDependencies (inl ("FROM alpine" +:+ nl +:+ "RUN echo hello" +:+ nl))
  = Ret [].
Proof. vm_compute. reflexivity. Qed.

Example parseDockerfileDependencies_multiple :
  parseDockerfileDependencies
    (inl ("ARG REGISTRY=test.io" +:+ nl +:+
          "FROM ${REGISTRY}/base:v1" +:+ nl +:+
          "COPY --from=${REGISTRY}/builder:v2 /app /app" +:+ nl))
  = Ret ["base:v1"; "builder:v2"].
Proof. vm_compute. reflexivity. Qed.

Example parseDockerfileDependencies_stage :
  parseDockerfileDependencies
    (inl ("FROM alpine AS builder" +:+ nl +:+
          "RUN make" +:+ nl +:+
          "FROM ${REGISTRY}/base:v1" +:+ nl +:+
          "COPY --from=builder /output /output" +:+ nl))
  = Ret ["base:v1"].
Proof. vm_compute. reflexivity. Qed.

Example parseDockerfileDependencies_duplicate :
  parseDockerfileDependencies
    (inl ("ARG REGISTRY=test.io" +:+ nl +:+
          "FROM ${REGISTRY}/base:v1" +:+ nl +:+
          "COPY --from=${REGISTRY}/base:v1 /lib /lib" +:+ nl))
  = Ret ["base:v1"].
Proof. vm_compute. reflexivity. Qed.

(** A stage alias written in the registry form is left out. *)
Example parseDockerfileDependencies_alias_in_registry_form :
  parseDockerfileDependencies
    (inl ("FROM alpine AS ${REGISTRY}/tools:v3" +:+ nl +:+
          "COPY --from=${REGISTRY}/tools:v3 /bin /bin" +:+ nl))
  = Ret [].
Proof. vm_compute. reflexivity. Qed.

Example parseDockerfileDependencies_unreadable :
  parseDockerfileDependencies (inr "open /nonexistent/Dockerfile: no such file or directory")
  = Fail "reading Dockerfile: open /nonexistent/Dockerfile: no such file or directory".
Proof. reflexivity. Qed.

(** ** Attaching the dependencies *)

Lemma buildKeyMap_fold_lookup jobs : ∀ (m : gmap string Job) key job,
  foldl (fun jobMap job => <[jobKey job := job]> jobMap) m jobs !! key = Some job →
  job ∈ jobs ∨ m !! key = Some job.
Proof.
  induction jobs as [|x l IH]; intros m key job; simpl; [by right|].
  intros H. apply IH in H as [?|H]; [left; by right|].
  rewrite lookup_insert in H. case_decide; [|by right].
  injection H as <-. left. by left.
Qed.

Lemma buildKeyMap_lookup jobs key job :
  buildKeyMap jobs !! key = Some job → job ∈ jobs.
Proof. intros [?|H]%buildKeyMap_fold_lookup; [done|]. by rewrite lookup_empty in H. Qed.

Lemma resolveNeeds_known jobs deps dep :
  dep ∈ resolveNeeds (buildKeyMap jobs) deps → dep ∈ ID <$> jobs.
Proof.
  unfold resolveNeeds. intros (key & _ & H)%list_elem_of_omap.
  destruct (buildKeyMap jobs !! key) as [job|] eqn:E; [|done].
  injection H as <-. apply list_elem_of_fmap_2. by eapply buildKeyMap_lookup.
Qed.

Lemma attachNeeds_Ret readFile jobMap jobs : ∀ jobs',
  attachNeeds readFile jobMap jobs = Ret jobs' →
  ID <$> jobs' = ID <$> jobs ∧
  ∀ job dep, job ∈ jobs' → dep ∈ Needs job →
    ∃ deps, dep ∈ resolveNeeds jobMap deps.
Proof.
  induction jobs as [|x l IH]; intros jobs'; simpl.
  - intros [= <-]. split; [done|]. by intros ?? ?%elem_of_nil.
  - destruct (parseDockerfileDependencies _) as [deps| | |]; try done.
    destruct (attachNeeds readFile jobMap l) as [l'| | |]; try done.
    intros [= <-]. destruct (IH l' eq_refl) as [IH1 IH2]. split.
    + rewrite !fmap_cons. by f_equal.
    + intros job dep [->|Hin]%elem_of_cons Hdep; [by exists deps|by eapply IH2].
Qed.

Lemma attachNeeds_outcome readFile jobMap jobs :
  attachNeeds readFile jobMap jobs ≠ Panic ∧ attachNeeds readFile jobMap jobs ≠ OutOfFuel.
Proof.
  induction jobs as [|x l [IH1 IH2]]; simpl; [done|].
  destruct (readFile (DockerfilePath x)) as [content|err]; simpl; [|done].
  by destruct (attachNeeds readFile jobMap l).
Qed.

(** The jobs that [orderJobsByDependencies] hands to [topologicalSort] need
    only jobs of the list. *)
Lemma attachNeeds_needs_known readFile jobs jobs' :
  attachNeeds readFile (buildKeyMap jobs) jobs = Ret jobs' →
  ID <$> jobs' = ID <$> jobs ∧ needs_known jobs'.
Proof.
  intros [H1 H2]%attachNeeds_Ret. split; [done|].
  intros job dep Hjob Hdep. rewrite H1.
  destruct (H2 job dep Hjob Hdep) as [deps ?]. by eapply resolveNeeds_known.
Qed.

Lemma topologicalSort_needs_known jobs :
  needs_known jobs → topologicalSort jobs ≠ Panic.
Proof.
  intros Hk. destruct (sort_loop_good jobs) as (_ & G2 & _).
  unfold topologicalSort. fold s0.
  destruct (each _ _ _) as [s|err| |] eqn:E; try done.
  destruct G2; [by apply needs_known_closed| |done].
  intros x Hx. apply buildJobMap_is_Some. by apply list_elem_of_fmap_2.
Qed.

(** [orderJobsByDependencies] returns a list or an error, whatever the
    files hold. *)
Lemma orderJobsByDependencies_returns readFile jobs :
  orderJobsByDependencies readFile jobs ≠ Panic ∧
  orderJobsByDependencies readFile jobs ≠ OutOfFuel.
Proof.
  unfold orderJobsByDependencies.
  destruct (attachNeeds_outcome readFile (buildKeyMap jobs) jobs) as [A1 A2].
  destruct (attachNeeds _ _ _) as [jobs'| | |] eqn:E; try done.
  apply attachNeeds_needs_known in E as [_ Hk].
  pose proof (topologicalSort_needs_known jobs' Hk).
  pose proof (topologicalSort_total jobs').
  by destruct (topologicalSort jobs').
Qed.

(** With distinct identifiers, [orderJobsByDependencies] orders the jobs
    when their dependencies form no cycle and reports a cycle otherwise. *)
Lemma orderJobsByDependencies_ordered readFile jobs jobs' :
  NoDup (ID <$> jobs) →
  attachNeeds readFile (buildKeyMap jobs) jobs = Ret jobs' →
  (acyclic jobs' →
   ∃ l, orderJobsByDependencies readFile jobs = Ret l ∧
        l ≡ₚ jobs' ∧ dependencies_first l)
  ∧
  ((∃ a, tc (depends jobs') a a) →
   ∃ k, orderJobsByDependencies readFile jobs
        = Fail ("sorting jobs: circular dependency detected involving job " +:+ k)
        ∧ tc (depends jobs') k k).
Proof.
  intros Hnd E. unfold orderJobsByDependencies. rewrite E.
  apply attachNeeds_needs_known in E as [HID Hk]. rewrite <-HID in Hnd.
  destruct (sort_loop_good jobs') as (G1 & G2 & G3).
  assert (topologicalSort jobs' ≠ Panic) as HP by by apply topologicalSort_needs_known.
  split.
  - intros Hac. destruct (topologicalSort jobs') as [l|err| |] eqn:Hts; try done.
    + exists l. split; [done|]. by apply topologicalSort_Ret.
    + exfalso. unfold topologicalSort in Hts. fold s0 in Hts.
      destruct (each _ _ _) as [s|err'| |] eqn:E'; try done. injection Hts as <-.
      destruct (G3 err' eq_refl) as (k & _ & Hc). by apply tc_edge_depends, Hac in Hc.
    + by destruct (topologicalSort_total jobs').
  - intros [a Ha]. destruct (topologicalSort jobs') as [l|err| |] eqn:Hts; try done.
    + apply topologicalSort_Ret in Hts as [Hp Hord]; [|done].
      destruct (dependencies_first_acyclic l) with (a := a); [by rewrite Hp|done|].
      eapply tc_congruence with (f := λ x, x); [|done].
      intros x y (job & ? & ? & ?). exists job. by rewrite Hp.
    + unfold topologicalSort in Hts. fold s0 in Hts.
      destruct (each _ _ _) as [s|err'| |] eqn:E'; try done. injection Hts as <-.
      destruct (G3 err' eq_refl) as (k & -> & Hc%tc_edge_depends). by exists k.
    + by destruct (topologicalSort_total jobs').
Qed.

(** The job lists of the tests of [orderJobsByDependencies]: the image
    [app] is built from the image [base]. *)
Example orderJobsByDependencies_app_base :
  orderJobsByDependencies
    (fun path =>
       if String.eqb path "images/app/v1/Dockerfile"
       then inl ("ARG REGISTRY=test.io" +:+ nl +:+ "FROM ${REGISTRY}/base:v1" +:+ nl)
       else inl ("FROM alpine" +:+ nl))
    [makeJob "app" "app" "v1"; makeJob "base" "base" "v1"]
  = Ret [makeJob "base" "base" "v1"; withNeeds (makeJob "app" "app" "v1") ["base-v1"]].
Proof. vm_compute. reflexivity. Qed.

(** Two images whose identifiers collide: one job comes out. *)
Example orderJobsByDependencies_colliding :
  orderJobsByDependencies no_dependencies colliding_jobs
  = Ret [makeJob "a.b" "a.b" "v1"].
Proof. vm_compute. reflexivity. Qed.

(** *** The references of [COPY] lines *)

Example parseDockerfileDependencies_prefixed :
  parseDockerfileDependencies (inl copy_prefixed) = Ret ["a:b"].
Proof. vm_compute. reflexivity. Qed.

Example parseDockerfileDependencies_twice :
  parseDockerfileDependencies (inl copy_twice) = Ret [].
Proof. vm_compute. reflexivity. Qed.




End workflow_spec.

(* ================================================================== *)
(** * Further properties of package config *)
(* ================================================================== *)

Module config_laws.
Import config config_spec.

(** The loops that copy a map entry by entry rebuild the map. *)
Lemma insert_fold_id (m : gmap string value) :
  map_fold (fun k v result => <[k := v]> result) (∅ : gmap string value) m = m.
Proof.
  pose proof (copy_fold_fmap id m) as H. unfold id in H at 1.
  rewrite H. apply map_fmap_id.
Qed.

Lemma mergeEntry_scalar srcVal destVal :
  (∀ destMap, destVal ≠ Some (VMap destMap)) →
  mergeEntry srcVal destVal = deepCopyValue srcVal.
Proof.
  intros H. destruct srcVal, destVal as [[]|]; try reflexivity.
  by destruct (H m0).
Qed.

Lemma mergeInto_empty_l source : mergeInto ∅ source = source.
Proof.
  apply map_eq. intros k. rewrite mergeInto_lookup_entry, lookup_empty.
  destruct (source !! k) as [v|]; [|done].
  rewrite mergeEntry_scalar by done. by rewrite deepCopyValue_id.
Qed.

Lemma mergeInto_empty_r dest : mergeInto dest ∅ = dest.
Proof. apply map_eq. intros k. by rewrite mergeInto_lookup_entry, lookup_empty. Qed.

Lemma mergeInto_self_n n : ∀ m : gmap string value,
  value_size (VMap m) < n → mergeInto m m = m.
Proof.
  induction n as [|n IH]; intros m Hm; [lia|].
  apply map_eq. intros k. rewrite mergeInto_lookup_entry.
  destruct (m !! k) as [v|] eqn:E; [|done]. f_equal.
  destruct v as [| | | |l|o|];
    try (rewrite mergeEntry_scalar by done; apply deepCopyValue_id).
  rewrite mergeEntry_nested. f_equal. apply IH.
  apply value_size_lookup in E. lia.
Qed.

Lemma mergeInto_self m : mergeInto m m = m.
Proof. apply (mergeInto_self_n (S (value_size (VMap m)))). lia. Qed.

(** A deep copy holds what the original holds, at every depth of nested
    mappings and sequences; the copy of nil is nil. *)
Theorem deepCopy_equal ic v :
  deepCopy ic = ic ∧ deepCopyValue v = v.
Proof. split; [apply deepCopy_id|apply deepCopyValue_id]. Qed.

(** Merging with the empty configuration, on either side, gives the other
    configuration back. *)
Theorem Merge_emptyImageConfig ic :
  Merge (Some ic) (Some emptyImageConfig) = Some ic ∧
  Merge (Some emptyImageConfig) (Some ic) = Some ic.
Proof.
  destruct ic as [b vals]. split; unfold Merge, emptyImageConfig; simpl; f_equal.
  - rewrite map_fold_empty, mergeInto_empty_l. f_equal.
    destruct b as [b|]; [|done]. by rewrite copyBaseImage_id.
  - rewrite copy_fold_fmap, mergeInto_empty_r. f_equal.
    + destruct b as [b|]; [|done]. by rewrite copyBaseImage_id.
    + apply map_eq. intros k. rewrite lookup_fmap.
      destruct (vals !! k); [|done]. simpl. by rewrite deepCopyValue_id.
Qed.

(** Merging a configuration with itself changes nothing. *)
Theorem Merge_idempotent ic : Merge (Some ic) (Some ic) = Some ic.
Proof.
  destruct ic as [b vals]. unfold Merge. simpl. f_equal.
  rewrite copy_fold_fmap.
  assert (deepCopyValue <$> vals = vals) as ->.
  { apply map_eq. intros k. rewrite lookup_fmap.
    destruct (vals !! k); [|done]. simpl. by rewrite deepCopyValue_id. }
  rewrite mergeInto_self. f_equal.
  destruct b as [b|]; [|done]. by rewrite copyBaseImage_id.
Qed.

(** The merged values have the keys of the overlay and those of the
    defaults, and no other: merging drops no key and invents none. *)
Theorem Merge_keys ic defaults :
  ∃ result, Merge (Some ic) (Some defaults) = Some result ∧
    dom (Values result) = dom (Values ic) ∪ dom (Values defaults).
Proof.
  eexists. split; [reflexivity|]. simpl. rewrite copy_fold_fmap.
  apply set_eq. intros k. rewrite elem_of_union, !elem_of_dom.
  rewrite mergeInto_lookup_entry, lookup_fmap.
  destruct (Values ic !! k), (Values defaults !! k); simpl;
    split; rewrite ?is_Some_alt; tauto.
Qed.

(** ** Reading and writing manifests *)

Lemma MarshalYAML_lookup ic k :
  MarshalYAML ic !! k
  = match BaseImage_ ic with
    | Some b => if decide (k = "base_image") then Some (VBase b) else Values ic !! k
    | None => Values ic !! k
    end.
Proof.
  unfold MarshalYAML. rewrite insert_fold_id.
  destruct (BaseImage_ ic) as [b|]; [|done].
  rewrite lookup_insert. repeat case_decide; congruence.
Qed.

Lemma UnmarshalYAML_decoded ic raw :
  ∃ ic', UnmarshalYAML ic (inl raw) = inl ic' ∧
    Values ic' !! "base_image" = None ∧
    (∀ k, k ≠ "base_image" → Values ic' !! k = raw !! k) ∧
    BaseImage_ ic'
    = match raw !! "base_image" with
      | Some (VMap m) =>
          Some {| Name := string_field m "name"; Source := string_field m "source" |}
      | _ => BaseImage_ ic
      end.
Proof.
  eexists. split; [reflexivity|]. simpl. rewrite insert_fold_id.
  split; [|split; [|done]].
  - destruct (raw !! "base_image") eqn:E; [apply lookup_delete_eq|done].
  - intros k Hk. destruct (raw !! "base_image"); [|done].
    by rewrite lookup_delete_ne.
Qed.

(** Decoding a version or a defaults block keeps every entry of the
    document but ["base_image"], which never stays among the values; a
    mapping under ["base_image"] becomes the base image, its [name] and
    [source] read as strings (empty when missing or not strings); anything
    else under that key is dropped and the receiver keeps the base image it
    had.  A decoding error is handed on. *)
Theorem UnmarshalYAML_values ic raw :
  (∃ ic', UnmarshalYAML ic (inl raw) = inl ic' ∧
    Values ic' !! "base_image" = None ∧
    (∀ k, k ≠ "base_image" → Values ic' !! k = raw !! k) ∧
    BaseImage_ ic'
    = match raw !! "base_image" with
      | Some (VMap m) =>
          Some {| Name := string_field m "name"; Source := string_field m "source" |}
      | _ => BaseImage_ ic
      end) ∧
  ∀ err, UnmarshalYAML ic (inr err) = inr err.
Proof. split; [apply UnmarshalYAML_decoded|done]. Qed.

(** Decoding a document and encoding the result again gives every entry
    back unchanged, except ["base_image"]: a mapping there comes back as
    the base image read from it, and any other value there (a plain string,
    say) is lost unless the receiver had a base image of its own. *)
Theorem MarshalYAML_UnmarshalYAML ic raw :
  ∃ ic', UnmarshalYAML ic (inl raw) = inl ic' ∧
    (∀ k, k ≠ "base_image" → MarshalYAML ic' !! k = raw !! k) ∧
    MarshalYAML ic' !! "base_image"
    = match raw !! "base_image" with
      | Some (VMap m) =>
          Some (VBase {| Name := string_field m "name";
                         Source := string_field m "source" |})
      | _ => VBase <$> BaseImage_ ic
      end.
Proof.
  destruct (UnmarshalYAML_decoded ic raw) as (ic' & Heq & Hb & Hk & HB).
  exists ic'. split; [done|]. split.
  - intros k Hne. rewrite MarshalYAML_lookup, Hk by done.
    destruct (BaseImage_ ic'); [|done]. by rewrite decide_False.
  - rewrite MarshalYAML_lookup, HB, Hb.
    destruct (raw !! "base_image") as [[]|]; try done;
      by destruct (BaseImage_ ic).
Qed.

End config_laws.

(* ================================================================== *)
(** * Further properties of package template *)
(* ================================================================== *)

Module template_laws.
Import config template template_spec.

(** Writing the entries of [m] one by one over [init]: the entries of [m]
    win, the other entries of [init] stay. *)
Lemma insert_fold_lookup (init m : gmap string value) k :
  map_fold (fun k v data => <[k := v]> data) init m !! k
  = match m !! k with
    | Some v => Some v
    | None => init !! k
    end.
Proof.
  revert k. apply (map_fold_weak_ind (fun r m => ∀ k, r !! k =
    match m !! k with Some v => Some v | None => init !! k end)).
  - intros k. by rewrite lookup_empty.
  - intros i x m' r Hi IH k. rewrite !lookup_insert. case_decide; [done|apply IH].
Qed.

Lemma NewData_values mergedConfig imageName k :
  Values (NewData mergedConfig imageName) !! k
  = if decide (k = "image_name") then Some (VStr imageName)
    else match config.Values mergedConfig !! k with
         | Some v => Some v
         | None =>
             if decide (k = "base_image") then VBase <$> BaseImage_ mergedConfig
             else None
         end.
Proof.
  unfold NewData. simpl.
  rewrite lookup_insert. case_decide as H1; [by rewrite decide_True|].
  rewrite decide_False by done. rewrite insert_fold_lookup.
  destruct (config.Values mergedConfig !! k); [done|].
  destruct (BaseImage_ mergedConfig) as [b|]; simpl.
  - rewrite lookup_insert. case_decide as H2; [by rewrite decide_True|].
    by rewrite decide_False.
  - rewrite lookup_empty. by case_decide.
Qed.

(** What a template reads from fresh data: ["image_name"] is always the
    image's name, whatever the configuration holds under that key; a value
    the configuration holds under ["base_image"] hides the base image; every
    other value is the configuration's; a key held nowhere reads nil; the
    registry flag starts cleared. *)
Theorem NewData_lookup mergedConfig imageName k :
  get (NewData mergedConfig imageName) k
  = (if decide (k = "image_name") then VStr imageName
     else match config.Values mergedConfig !! k with
          | Some v => v
          | None =>
              if decide (k = "base_image")
              then default VNil (VBase <$> BaseImage_ mergedConfig)
              else VNil
          end) ∧
  rootPathIncluded (NewData mergedConfig imageName) = false.
Proof.
  split; [|done]. unfold get. rewrite NewData_values.
  case_decide; [done|]. destruct (config.Values mergedConfig !! k); [done|].
  by case_decide.
Qed.

Section laws.
Variable Sprint : value → string.

Lemma from_image_S fuel ref d r :
  from_image Sprint fuel ref d = Some r → fromImage Sprint (S fuel) ref d = Some r.
Proof.
  intros H. destruct ref as [| | |k| | |];
    try (apply (fromImage_mono Sprint fuel); [exact H|lia]).
  unfold from_image in H. simpl.
  destruct (Values d !! k) as [val|] eqn:E; [done|].
  apply (fromImage_mono Sprint fuel _ _ _ (S fuel)) in H; [|lia].
  simpl in H. by rewrite E in H.
Qed.

(** The lookup the [from_image] template function makes before it calls
    [fromImage] changes nothing: the function returns exactly what
    [fromImage] returns for the same argument, and returns whenever it
    does. *)
Theorem from_image_agrees ref d text d' :
  returns Sprint ref d text d' ↔
  ∃ fuel, fromImage Sprint fuel ref d = Some (text, d').
Proof.
  split; intros [fuel H].
  - exists (S fuel). by apply from_image_S.
  - exists fuel. by apply from_image_fromImage.
Qed.

Lemma originDirective_keeps name source d :
  Values (originDirective name source d).2 = Values d ∧
  generationMessage (originDirective name source d).2 = generationMessage d ∧
  (rootPathIncluded d = true →
   rootPathIncluded (originDirective name source d).2 = true).
Proof.
  destruct (originDirective_state name source d) as [->|[-> _]]; done.
Qed.

Lemma from_image_keeps fuel ref d text d' :
  from_image Sprint fuel ref d = Some (text, d') →
  Values d' = Values d ∧ generationMessage d' = generationMessage d ∧
  (rootPathIncluded d = true → rootPathIncluded d' = true).
Proof.
  intros (name & source & H)%from_image_originDirective.
  assert (d' = (originDirective name source d).2) as -> by (by rewrite <-H).
  apply originDirective_keeps.
Qed.

(** A template run, however many origins it resolves, never changes the
    values or the generation message of its data, gives one text for each
    call, and never clears the registry flag once it is set. *)
Theorem render_keeps_values fuel refs : ∀ d texts d',
  render Sprint fuel refs d = Some (texts, d') →
  Values d' = Values d ∧ generationMessage d' = generationMessage d ∧
  length texts = length refs ∧
  (rootPathIncluded d = true → rootPathIncluded d' = true).
Proof.
  induction refs as [|ref refs IH]; intros d texts d' H; simpl in H.
  - by injection H as <- <-.
  - destruct (from_image Sprint fuel ref d) as [[text d1]|] eqn:E1; [|done].
    destruct (render Sprint fuel refs d1) as [[texts' d2]|] eqn:E2; [|done].
    injection H as <- <-.
    apply from_image_keeps in E1 as (Hv1 & Hm1 & Hf1).
    apply IH in E2 as (Hv2 & Hm2 & Hl & Hf2).
    repeat split; simpl; [congruence|congruence|by rewrite Hl|auto].
Qed.

Lemma from_image_header fuel ref d text d' :
  from_image Sprint fuel ref d = Some (text, d') →
  ∃ header image, text = header +:+ "FROM " +:+ image ∧
    ((header = EmptyString ∧ d' = d)
     ∨ (∃ registry, header = "ARG REGISTRY=" +:+ registry +:+ nl ∧
          Values d !! "registry" = Some (VStr registry) ∧
          rootPathIncluded d = false ∧ d' = mark_declared d)
     ∨ (header = "# ERROR: registry not set in config" +:+ nl ∧
          Values d !! "registry" = None ∧
          rootPathIncluded d = false ∧ d' = d)
     ∨ (header = "# ERROR: registry is not a string" +:+ nl ∧
          (∃ v, Values d !! "registry" = Some v ∧ not_a_string v) ∧
          rootPathIncluded d = false ∧ d' = d)).
Proof.
  intros (name & source & H)%from_image_originDirective. revert H.
  unfold originDirective.
  destruct (String.eqb source "dockerhub"); simpl.
  { intros [= -> ->]. exists EmptyString, name. split; [done|by left]. }
  destruct (rootPathIncluded d) eqn:Hf; simpl.
  { intros [= -> ->]. exists EmptyString, ("${REGISTRY}/" +:+ name).
    split; [done|by left]. }
  destruct (Values d !! "registry") as [v|] eqn:Hr.
  - assert ((∃ registry, v = VStr registry) ∨ not_a_string v) as [[registry ->]|Hv].
    { destruct v; try (right; intros ?; discriminate). left. by eexists. }
    + intros [= -> ->]. exists ("ARG REGISTRY=" +:+ registry +:+ nl), ("${REGISTRY}/" +:+ name).
      split; [done|]. right. left. exists registry. done.
    + intros H. exists ("# ERROR: registry is not a string" +:+ nl), ("${REGISTRY}/" +:+ name).
      assert (text = "# ERROR: registry is not a string" +:+ nl +:+ "FROM " +:+ "${REGISTRY}/" +:+ name
              ∧ d' = d) as [-> ->].
      { destruct v; try (by injection H as <- <-). by destruct (Hv s). }
      split; [reflexivity|]. right. right. right.
      split; [done|]. split; [by exists v|done].
  - intros [= -> ->].
    exists ("# ERROR: registry not set in config" +:+ nl), ("${REGISTRY}/" +:+ name).
    split; [reflexivity|]. right. right. left. done.
Qed.

(** What [fromImage] returns is what [originDirective] gives for a
    terminal that the indirections lead to from the argument. *)
Lemma fromImage_ends fuel : ∀ v d r,
  fromImage Sprint fuel v d = Some r →
  ∃ t, resolves (Values d) v t ∧
       r = originDirective (descriptor Sprint t).1 (descriptor Sprint t).2 d.
Proof.
  induction fuel as [|fuel IH]; intros v d r; [done|]. cbn [fromImage].
  destruct v as [| | |k| | |b].
  all: try (intros [= <-]; eexists; split; [by apply resolves_terminal|done]).
  destruct (Values d !! k) as [val|] eqn:Hk.
  - intros (t & Ht & ->)%IH. exists t. split; [|done]. by eapply resolves_key.
  - intros [= <-]. exists (VStr k). split; [by apply resolves_literal|done].
Qed.

Lemma from_image_ends fuel arg d r :
  from_image Sprint fuel arg d = Some r →
  ∃ t, resolves (Values d) arg t ∧
       r = originDirective (descriptor Sprint t).1 (descriptor Sprint t).2 d.
Proof.
  unfold from_image. destruct arg as [| | |k| | |b]; try apply fromImage_ends.
  destruct (Values d !! k) as [val|] eqn:Hk; [|apply fromImage_ends].
  intros (t & Ht & ->)%fromImage_ends. exists t. split; [|done].
  by eapply resolves_key.
Qed.

(** Whenever [from_image] returns, the indirections lead from its
    argument to a terminal, and the text and the data returned are the
    origin text and the state of that terminal: [FROM] and the name for a
    public terminal, the name after [${REGISTRY}/] for the others, behind
    the declaration of the registry when it is a string and was not yet
    declared (the flag is then set), and behind an error comment when it
    is missing or no string. *)
Theorem from_image_shape fuel ref d text d' :
  from_image Sprint fuel ref d = Some (text, d') →
  ∃ t, resolves (Values d) ref t ∧
       text = origin_text Sprint (Values d) (rootPathIncluded d) t ∧
       d' = origin_state Sprint d t.
Proof.
  intros (t & Ht & H)%from_image_ends. exists t. split; [done|].
  rewrite originDirective_origin_text in H. by injection H as -> ->.
Qed.

(** When the chain of references that starts at a key comes back to that
    key, neither [from_image] nor [fromImage] returns for it: the recursion
    has no end. *)
Theorem from_image_circular d k :
  tc (ref_step (Values d)) k k →
  (∀ fuel, fromImage Sprint fuel (VStr k) d = None) ∧
  ¬ ∃ text d', returns Sprint (VStr k) d text d'.
Proof.
  intros Hc. split; [by apply fromImage_cycle|].
  intros (text & d' & fuel & H). apply from_image_S in H.
  by rewrite (fromImage_cycle Sprint d k Hc) in H.
Qed.

End laws.

Lemma render_keeps_values_witness :
  Values (mark_declared registry_ctx) = Values registry_ctx ∧
  generationMessage (mark_declared registry_ctx) = generationMessage registry_ctx ∧
  length ["ARG REGISTRY=my-registry.io" +:+ nl +:+ "FROM ${REGISTRY}/myimage";
          "FROM ${REGISTRY}/anotherimage"] = length [myimage; anotherimage] ∧
  (rootPathIncluded registry_ctx = true →
   rootPathIncluded (mark_declared registry_ctx) = true).
Proof.
  apply (render_keeps_values no_Sprint 1 [myimage; anotherimage] registry_ctx).
  vm_compute. reflexivity.
Defined.

Lemma from_image_shape_witness :
  ∃ t, resolves (Values chain_ctx) (VStr "base") t ∧
       "ARG REGISTRY=test.io" +:+ nl +:+ "FROM ${REGISTRY}/golang"
       = origin_text no_Sprint (Values chain_ctx) (rootPathIncluded chain_ctx) t ∧
       mark_declared chain_ctx = origin_state no_Sprint chain_ctx t.
Proof.
  apply (from_image_shape no_Sprint 4 (VStr "base") chain_ctx).
  vm_compute. reflexivity.
Defined.

Lemma from_image_circular_witness :
  (∀ fuel, fromImage no_Sprint fuel (VStr "self") looping_ctx = None) ∧
  ¬ ∃ text d', returns no_Sprint (VStr "self") looping_ctx text d'.
Proof. apply from_image_circular. apply tc_once. vm_compute. reflexivity. Defined.

End template_laws.

(* ================================================================== *)
(** * Properties of package generator *)
(* ================================================================== *)

Module generator_laws.
Import config generator config_spec config_laws template_laws.

(** The values [GenerateImage] merges for a version: the version's own
    settings over the image defaults, each empty when not given. *)
Lemma templateData_unfold cfg image imageName versionName versionConfig :
  ∃ merged,
    Merge (Some (default emptyImageConfig versionConfig))
          (Some (default emptyImageConfig (ImageDefaults image))) = Some merged ∧
    templateData cfg image imageName versionName versionConfig
    = Some (template.NewData
              {| BaseImage_ := BaseImage_ merged;
                 Values :=
                   match Values merged !! "registry" with
                   | Some _ => <["version" := VStr versionName]> (Values merged)
                   | None =>
                       <["registry" := VStr (Registry (Defaults_ cfg))]>
                         (<["version" := VStr versionName]> (Values merged))
                   end |} imageName).
Proof.
  unfold templateData.
  destruct (ImageDefaults image) as [defs|], versionConfig as [vc|]; simpl;
    (eexists; split; [reflexivity|]); f_equal; f_equal; f_equal;
    rewrite lookup_insert_ne by done; done.
Qed.

(** The data of a version are always built: the merge never returns nil,
    so writing the version into its values never panics.  In the data
    ["version"] is the version's label and ["image_name"] the image's name,
    whatever the manifest holds under these keys; a registry is always set;
    the registry flag starts cleared. *)
Theorem templateData_injected cfg image imageName versionName versionConfig :
  ∃ data, templateData cfg image imageName versionName versionConfig = Some data ∧
    template.Values data !! "version" = Some (VStr versionName) ∧
    template.Values data !! "image_name" = Some (VStr imageName) ∧
    is_Some (template.Values data !! "registry") ∧
    template.rootPathIncluded data = false.
Proof.
  destruct (templateData_unfold cfg image imageName versionName versionConfig)
    as (merged & _ & ->).
  eexists. split; [reflexivity|].
  repeat split; try rewrite NewData_values.
  - rewrite decide_False by done. cbn [Values].
    destruct (Values merged !! "registry");
      by rewrite ?lookup_insert_ne, lookup_insert_eq by done.
  - by rewrite decide_True.
  - rewrite decide_False by done. cbn [Values].
    destruct (Values merged !! "registry") eqn:E.
    + by rewrite lookup_insert_ne, E by done.
    + by rewrite lookup_insert_eq.
Qed.

(** The merged values, key by key, with the copies left out. *)
Lemma Merge_lookup ic defaults merged k :
  Merge (Some ic) (Some defaults) = Some merged →
  Values merged !! k
  = match Values ic !! k, Values defaults !! k with
    | Some (VMap o), Some (VMap d) => Some (VMap (mergeInto d o))
    | Some v, _ => Some v
    | None, dv => dv
    end.
Proof.
  intros [= <-]. cbn [Values]. rewrite copy_fold_fmap.
  rewrite mergeInto_lookup_entry, lookup_fmap.
  destruct (Values ic !! k) as [ov|], (Values defaults !! k) as [dv|];
    cbn [fmap option_fmap option_map].
  - rewrite (deepCopyValue_id dv).
    destruct ov as [| | | |l|o|], dv as [| | | |l'|d|];
      try (rewrite mergeEntry_scalar by done; by rewrite deepCopyValue_id);
      try exact (f_equal Some (deepCopyValue_id _)).
    by rewrite mergeEntry_nested.
  - rewrite mergeEntry_scalar by done. rewrite deepCopyValue_id. by destruct ov.
  - by rewrite deepCopyValue_id.
  - done.
Qed.

(** The registry a version is rendered with: the version's own setting
    when it has one (merged with the image defaults' when both are
    mappings), else the image defaults' setting, and the global default
    registry only when neither sets the key; the global default is then
    used as it is, even when it is empty. *)
Theorem templateData_registry cfg image imageName versionName versionConfig :
  ∃ data, templateData cfg image imageName versionName versionConfig = Some data ∧
    template.Values data !! "registry"
    = Some match Values (default emptyImageConfig versionConfig) !! "registry",
                 Values (default emptyImageConfig (ImageDefaults image)) !! "registry" with
           | Some (VMap o), Some (VMap d) => VMap (mergeInto d o)
           | Some v, _ => v
           | None, Some v => v
           | None, None => VStr (Registry (Defaults_ cfg))
           end.
Proof.
  destruct (templateData_unfold cfg image imageName versionName versionConfig)
    as (merged & Hm & ->).
  eexists. split; [reflexivity|].
  rewrite NewData_values, decide_False by done. cbn [Values].
  pose proof (Merge_lookup _ _ _ "registry" Hm) as Hr.
  destruct (Values merged !! "registry") as [r|] eqn:Er.
  - rewrite lookup_insert_ne, Er by done. f_equal.
    destruct (Values (default emptyImageConfig versionConfig) !! "registry") as [ov|],
             (Values (default emptyImageConfig (ImageDefaults image)) !! "registry") as [dv|];
      [destruct ov, dv|destruct ov| |]; congruence.
  - rewrite lookup_insert_eq. f_equal.
    destruct (Values (default emptyImageConfig versionConfig) !! "registry") as [ov|],
             (Values (default emptyImageConfig (ImageDefaults image)) !! "registry") as [dv|];
      [destruct ov, dv|destruct ov| |]; congruence.
Qed.

(** The base image a template reads under ["base_image"], when no value
    of the manifest is filed under that key (as after decoding): the
    version's base image as a whole when it declares one, else the image
    defaults' as a whole; the two are never mixed field by field. *)
Theorem templateData_base_image cfg image imageName versionName versionConfig :
  Values (default emptyImageConfig versionConfig) !! "base_image" = None →
  Values (default emptyImageConfig (ImageDefaults image)) !! "base_image" = None →
  ∃ data, templateData cfg image imageName versionName versionConfig = Some data ∧
    template.Values data !! "base_image"
    = VBase <$> match BaseImage_ (default emptyImageConfig versionConfig) with
                | Some b => Some b
                | None => BaseImage_ (default emptyImageConfig (ImageDefaults image))
                end.
Proof.
  intros Hv Hd.
  destruct (templateData_unfold cfg image imageName versionName versionConfig)
    as (merged & Hm & ->).
  eexists. split; [reflexivity|].
  rewrite NewData_values, decide_False by done. cbn [Values BaseImage_].
  pose proof (Merge_lookup _ _ _ "base_image" Hm) as Hb.
  rewrite Hv, Hd in Hb.
  assert (BaseImage_ merged
          = match BaseImage_ (default emptyImageConfig versionConfig) with
            | Some b => Some b
            | None => BaseImage_ (default emptyImageConfig (ImageDefaults image))
            end) as <-.
  { injection Hm as <-. cbn [BaseImage_].
    destruct (BaseImage_ (default emptyImageConfig versionConfig)) as [b|];
      [by rewrite copyBaseImage_id|].
    destruct (BaseImage_ (default emptyImageConfig (ImageDefaults image))) as [b|];
      [by rewrite copyBaseImage_id|done]. }
  destruct (Values merged !! "registry");
    rewrite ?lookup_insert_ne, Hb by done; by rewrite decide_True.
Qed.

Lemma templateData_base_image_witness :
  ∃ data, templateData test_cfg test_image "test" "v1" (Some test_version) = Some data ∧
    template.Values data !! "base_image"
    = VBase <$> match BaseImage_ (default emptyImageConfig (Some test_version)) with
                | Some b => Some b
                | None => BaseImage_ (default emptyImageConfig (ImageDefaults test_image))
                end.
Proof.
  apply templateData_base_image; vm_compute; reflexivity.
Defined.

Section rendering.
Variable Sprint : value → string.

Lemma render_registry_present fuel refs : ∀ d texts d',
  is_Some (template.Values d !! "registry") →
  template.render Sprint fuel refs d = Some (texts, d') →
  Forall (fun text => has_prefix "# ERROR: registry not set in config" text = false)
         texts.
Proof.
  induction refs as [|ref refs IH]; intros d texts d' Hr H; simpl in H.
  - injection H as <- <-. constructor.
  - destruct (template.from_image Sprint fuel ref d) as [[text d1]|] eqn:E1; [|done].
    destruct (template.render Sprint fuel refs d1) as [[texts' d2]|] eqn:E2; [|done].
    injection H as <- <-.
    pose proof (from_image_keeps Sprint _ _ _ _ _ E1) as (Hv & _ & _).
    constructor; [|eapply IH; [|exact E2]; by rewrite Hv].
    apply from_image_header in E1 as (header & image & -> & Hcase).
    destruct Hcase as [[-> _]|[(registry & -> & _)|[(_ & Hn & _)|[-> _]]]];
      try reflexivity.
    rewrite Hn in Hr. by destruct Hr.
Qed.

(** In the data [GenerateImage] builds, a registry is always set, so no
    origin of a generated file carries the comment that the registry is not
    set: a manifest without any registry gets the global default, empty or
    not, in its declaration line. *)
Theorem templateData_never_unset cfg image imageName versionName versionConfig
    data fuel refs texts d' :
  templateData cfg image imageName versionName versionConfig = Some data →
  template.render Sprint fuel refs data = Some (texts, d') →
  Forall (fun text => has_prefix "# ERROR: registry not set in config" text = false)
         texts.
Proof.
  intros Hd Hrender. apply (render_registry_present fuel refs data texts d'); [|done].
  destruct (templateData_unfold cfg image imageName versionName versionConfig)
    as (merged & _ & Heq).
  rewrite Heq in Hd. injection Hd as <-.
  rewrite NewData_values, decide_False by done. cbn [Values].
  destruct (Values merged !! "registry") eqn:E.
  - by rewrite lookup_insert_ne, E by done.
  - by rewrite lookup_insert_eq.
Qed.

End rendering.

Lemma templateData_never_unset_witness :
  Forall (fun text => has_prefix "# ERROR: registry not set in config" text = false)
         ["ARG REGISTRY=test.io" +:+ nl +:+ "FROM ${REGISTRY}/ubuntu";
          "FROM ${REGISTRY}/ubuntu"].
Proof.
  eapply (templateData_never_unset template.no_Sprint test_cfg test_image "test" "v1"
            (Some test_version) _ 2 [VStr "base_image"; VStr "base_image"]).
  - vm_compute. reflexivity.
  - vm_compute. reflexivity.
Defined.

End generator_laws.

(* ================================================================== *)
(** * Further properties of package workflow *)
(* ================================================================== *)

Module workflow_laws.
Import workflow workflow_spec.

(** ** Job identifiers *)

Lemma all_chars_replace_invalid s : all_chars is_id_char (replace_invalid s) = true.
Proof.
  induction s as [|c s IH]; [done|]. cbn [replace_invalid all_chars].
  rewrite IH, andb_true_r. by destruct (is_id_char c) eqn:E.
Qed.

(** One step of [collapse_dashes], with the test on the head of the
    collapsed rest written as a comparison. *)
Lemma collapse_dashes_cons c s :
  collapse_dashes (String c s)
  = if Ascii.eqb c "-" then
      match collapse_dashes s with
      | String c' _ =>
          if Ascii.eqb c' "-" then collapse_dashes s else String "-" (collapse_dashes s)
      | EmptyString => String "-" EmptyString
      end
    else String c (collapse_dashes s).
Proof.
  change (collapse_dashes (String c s))
    with (if Ascii.eqb c "-" then
            match collapse_dashes s with
            | String "-" rest => String "-" rest
            | t => String "-" t
            end
          else String c (collapse_dashes s)).
  destruct (Ascii.eqb c "-"); [|done].
  generalize (collapse_dashes s). intros t.
  destruct t as [|c' r]; [done|].
  destruct c' as [[] [] [] [] [] [] [] []]; reflexivity.
Qed.

Lemma all_chars_collapse_dashes s :
  all_chars is_id_char s = true → all_chars is_id_char (collapse_dashes s) = true.
Proof.
  induction s as [|c s IH]; [done|]. cbn [all_chars].
  intros [Hc Hs]%andb_true_iff. rewrite collapse_dashes_cons.
  specialize (IH Hs). destruct (Ascii.eqb c "-").
  - destruct (collapse_dashes s) as [|c' r]; [done|].
    destruct (Ascii.eqb c' "-"); [done|]. cbn [all_chars] in *. by rewrite IH.
  - cbn [all_chars]. by rewrite Hc, IH.
Qed.

Lemma all_chars_trim_left_dashes cls s :
  all_chars cls s = true → all_chars cls (trim_left_dashes s) = true.
Proof.
  induction s as [|c s IH]; [done|]. cbn [all_chars trim_left_dashes].
  intros [Hc Hs]%andb_true_iff. destruct (Ascii.eqb c "-"); [by apply IH|].
  cbn [all_chars]. by rewrite Hc, Hs.
Qed.

Lemma all_chars_trim_right_dashes cls s :
  all_chars cls s = true → all_chars cls (trim_right_dashes s) = true.
Proof.
  induction s as [|c s IH]; [done|]. cbn [all_chars trim_right_dashes].
  intros [Hc Hs]%andb_true_iff. specialize (IH Hs).
  destruct (trim_right_dashes s) as [|c' r].
  - destruct (Ascii.eqb c "-"); [done|]. cbn [all_chars]. by rewrite Hc.
  - cbn [all_chars] in *. by rewrite Hc, IH.
Qed.

(** Whatever the image name and the version, the identifier is one that
    a workflow accepts: it is not empty, it starts with a letter or an
    underscore, and it holds only letters, digits, underscores and
    dashes. *)
Theorem generateJobID_valid imageName version :
  ∃ c rest, generateJobID imageName version = String c rest ∧
    is_id_start c = true ∧
    all_chars is_id_char (generateJobID imageName version) = true.
Proof.
  unfold generateJobID.
  set (id := trim_right_dashes (trim_left_dashes (collapse_dashes
               (replace_invalid (imageName +:+ "-" +:+ version))))).
  assert (all_chars is_id_char id = true) as Hid.
  { apply all_chars_trim_right_dashes, all_chars_trim_left_dashes,
      all_chars_collapse_dashes, all_chars_replace_invalid. }
  destruct id as [|c r] eqn:E.
  - by exists "b"%char, "uild-".
  - destruct (is_id_start c) eqn:Hc.
    + by exists c, r.
    + exists "b"%char, ("uild-" +:+ String c r). split; [done|]. split; [done|].
      by rewrite all_chars_app, Hid.
Qed.

(** *** Names made of letters, digits and underscores *)

Lemma is_word_char_id c : is_word_char c = true → is_id_char c = true.
Proof. unfold is_word_char. by intros [? _]%andb_true_iff. Qed.

Lemma is_word_char_dash c : is_word_char c = true → Ascii.eqb c "-" = false.
Proof. unfold is_word_char. intros [_ H]%andb_true_iff. by apply negb_true_iff. Qed.

Lemma all_chars_impl (cls cls' : ascii → bool) s :
  (∀ c, cls c = true → cls' c = true) →
  all_chars cls s = true → all_chars cls' s = true.
Proof.
  intros H. induction s as [|c s IH]; [done|]. cbn [all_chars].
  intros [Hc Hs]%andb_true_iff. by rewrite (H c Hc), IH.
Qed.

Lemma replace_invalid_id s : all_chars is_id_char s = true → replace_invalid s = s.
Proof.
  induction s as [|c s IH]; [done|]. cbn [all_chars replace_invalid].
  intros [-> Hs]%andb_true_iff. by rewrite IH.
Qed.

Lemma collapse_dashes_word w t :
  all_chars is_word_char w = true →
  collapse_dashes (w +:+ t) = w +:+ collapse_dashes t.
Proof.
  induction w as [|c w IH]; [done|]. cbn [all_chars].
  intros [Hc Hw]%andb_true_iff.
  change (String c w +:+ t) with (String c (w +:+ t)).
  rewrite collapse_dashes_cons, (is_word_char_dash c Hc), IH by done. done.
Qed.

Lemma trim_right_dashes_word a v :
  all_chars is_word_char v = true → v ≠ EmptyString →
  trim_right_dashes (a +:+ v) = a +:+ v.
Proof.
  intros Hv Hne. induction a as [|c a IH].
  - change (EmptyString +:+ v) with v. clear Hne.
    induction v as [|c v IH]; [done|]. cbn [all_chars] in Hv.
    apply andb_true_iff in Hv as [Hc Hv]. cbn [trim_right_dashes].
    rewrite (IH Hv). destruct v; [|done]. by rewrite (is_word_char_dash c Hc).
  - change (String c a +:+ v) with (String c (a +:+ v)). cbn [trim_right_dashes].
    rewrite IH. destruct (a +:+ v) eqn:E; [|done].
    destruct a; [|done]. by destruct v.
Qed.

(** The identifier of a pair of names made of letters, digits and
    underscores: the two names joined by a dash, after ["build-"] when the
    image name starts with a digit. *)
Lemma generateJobID_word imageName version :
  all_chars is_word_char imageName = true → imageName ≠ EmptyString →
  all_chars is_word_char version = true → version ≠ EmptyString →
  generateJobID imageName version
  = match imageName with
    | String c _ =>
        if is_id_start c then imageName +:+ "-" +:+ version
        else "build-" +:+ imageName +:+ "-" +:+ version
    | EmptyString => EmptyString
    end.
Proof.
  intros Hi Hie Hv Hve. unfold generateJobID.
  rewrite replace_invalid_id.
  2:{ rewrite !all_chars_app, (all_chars_impl _ _ _ is_word_char_id Hi),
        (all_chars_impl _ _ _ is_word_char_id Hv). done. }
  rewrite collapse_dashes_word by done.
  assert (collapse_dashes ("-" +:+ version) = "-" +:+ version) as ->.
  { change ("-" +:+ version) with (String "-" version).
    rewrite collapse_dashes_cons. cbn [Ascii.eqb Bool.eqb].
    pose proof (collapse_dashes_word version EmptyString Hv) as Hc.
    rewrite string_append_nil_r in Hc. cbn [collapse_dashes] in Hc.
    rewrite string_append_nil_r in Hc. rewrite Hc.
    destruct version as [|c v]; [done|]. cbn [all_chars] in Hv.
    apply andb_true_iff in Hv as [Hc' _]. by rewrite (is_word_char_dash c Hc'). }
  destruct imageName as [|c i]; [done|]. cbn [all_chars] in Hi.
  apply andb_true_iff in Hi as [Hc Hi].
  change (String c i +:+ "-" +:+ version) with (String c (i +:+ "-" +:+ version)).
  cbn [trim_left_dashes]. rewrite (is_word_char_dash c Hc).
  change (String c (i +:+ "-" +:+ version)) with (String c i +:+ "-" +:+ version).
  rewrite <-string_append_assoc, trim_right_dashes_word by done.
  rewrite string_append_assoc. done.
Qed.

(** Two words followed by the same separator, which is no word
    character, and then by anything: the words are the same, and so is
    what follows. *)
Lemma word_split (sep : ascii) a a' b b' :
  is_word_char sep = false →
  all_chars is_word_char a = true → all_chars is_word_char a' = true →
  a +:+ String sep b = a' +:+ String sep b' → a = a' ∧ b = b'.
Proof.
  intros Hsep. revert a'. induction a as [|c a IH]; intros [|c' a'] Ha Ha' H;
    unfold String.append in H; fold String.append in H.
  - by injection H as ->.
  - injection H as <- _. cbn [all_chars] in Ha'. by rewrite Hsep in Ha'.
  - injection H as -> _. cbn [all_chars] in Ha. by rewrite Hsep in Ha.
  - cbn [all_chars] in Ha, Ha'. apply andb_true_iff in Ha as [_ Ha].
    apply andb_true_iff in Ha' as [_ Ha']. injection H as -> H.
    destruct (IH a' Ha Ha' H) as [-> ->]. done.
Qed.

Lemma dash_split a a' b b' :
  all_chars is_word_char a = true → all_chars is_word_char a' = true →
  a +:+ "-" +:+ b = a' +:+ "-" +:+ b' → a = a' ∧ b = b'.
Proof. by apply (word_split "-"). Qed.

Lemma generateJobID_word_inj imageName version imageName' version' :
  all_chars is_word_char imageName = true → imageName ≠ EmptyString →
  all_chars is_word_char version = true → version ≠ EmptyString →
  all_chars is_word_char imageName' = true → imageName' ≠ EmptyString →
  all_chars is_word_char version' = true → version' ≠ EmptyString →
  generateJobID imageName version = generateJobID imageName' version' →
  imageName = imageName' ∧ version = version'.
Proof.
  intros Hi Hie Hv Hve Hi' Hie' Hv' Hve'.
  rewrite !generateJobID_word by done. intros H.
  destruct imageName as [|c i]; [done|]. destruct imageName' as [|c' i']; [done|].
  assert (∀ x y (w z : string),
            all_chars is_word_char w = true → all_chars is_word_char z = true →
            w +:+ "-" +:+ z = "build-" +:+ x +:+ "-" +:+ y → False) as Hmix.
  { intros x y w z Hw Hz Heq.
    change ("build-" +:+ x +:+ "-" +:+ y) with ("build" +:+ "-" +:+ (x +:+ "-" +:+ y)) in Heq.
    apply dash_split in Heq as [_ ->]; [|done..].
    rewrite !all_chars_app in Hz. cbn in Hz. by rewrite andb_false_r in Hz. }
  destruct (is_id_start c), (is_id_start c').
  - apply dash_split in H as [-> ->]; done.
  - by destruct (Hmix _ _ _ _ Hi Hv H).
  - symmetry in H. by destruct (Hmix _ _ _ _ Hi' Hv' H).
  - unfold String.append in H; fold String.append in H. injection H as -> H.
    cbn [all_chars] in Hi, Hi'. apply andb_true_iff in Hi as [_ Hi].
    apply andb_true_iff in Hi' as [_ Hi'].
    apply dash_split in H as [-> ->]; done.
Qed.

(** Image names and versions made of letters, digits and underscores only
    get identifiers of their own: two different pairs never share an
    identifier. *)
Theorem generateJobID_injective imageName version imageName' version' :
  all_chars is_word_char imageName = true → imageName ≠ EmptyString →
  all_chars is_word_char version = true → version ≠ EmptyString →
  all_chars is_word_char imageName' = true → imageName' ≠ EmptyString →
  all_chars is_word_char version' = true → version' ≠ EmptyString →
  (imageName, version) ≠ (imageName', version') →
  generateJobID imageName version ≠ generateJobID imageName' version'.
Proof.
  intros Hi Hie Hv Hve Hi' Hie' Hv' Hve' Hne H. apply Hne.
  by destruct (generateJobID_word_inj _ _ _ _ Hi Hie Hv Hve Hi' Hie' Hv' Hve' H)
    as [-> ->].
Qed.

Lemma generateJobID_injective_witness :
  generateJobID "app" "v1" ≠ generateJobID "app" "v2".
Proof.
  apply generateJobID_injective; try reflexivity; discriminate.
Defined.

(** ** Where a dependency is read from *)

Lemma mentions_refl s : mentions s s.
Proof. exists EmptyString, EmptyString. by rewrite string_append_nil_r. Qed.

Lemma mentions_app part before text after :
  mentions part text → mentions part (before +:+ text +:+ after).
Proof.
  intros (b & a & ->). exists (before +:+ b), (a +:+ after).
  by rewrite !string_append_assoc.
Qed.

Lemma mentions_prefix part text after : mentions part text → mentions part (text +:+ after).
Proof. intros H. by apply (mentions_app part EmptyString text after). Qed.

Lemma mentions_suffix part before text : mentions part text → mentions part (before +:+ text).
Proof.
  intros H. apply (mentions_app part before text EmptyString) in H.
  by rewrite string_append_nil_r in H.
Qed.

Lemma mentions_trans a b c : mentions a b → mentions b c → mentions a c.
Proof. intros Hab (before & after & ->). by apply mentions_app. Qed.

(** What [greedy] hands on when it succeeds: a run of the class taken
    from the front of the text. *)
Lemma greedy_Some {R} cls (k : string → string → option R) s : ∀ taken r,
  greedy cls k taken s = Some r →
  ∃ t rest, s = t +:+ rest ∧ all_chars cls t = true ∧ k (taken +:+ t) rest = Some r.
Proof.
  induction s as [|c s IH]; intros taken r; cbn [greedy].
  - intros H. exists EmptyString, EmptyString. by rewrite !string_append_nil_r.
  - assert (k taken (String c s) = Some r →
            ∃ t rest, String c s = t +:+ rest ∧ all_chars cls t = true ∧
                      k (taken +:+ t) rest = Some r) as Hstop.
    { intros H. exists EmptyString, (String c s). by rewrite string_append_nil_r. }
    destruct (cls c) eqn:Ec; [|done].
    destruct (greedy cls k (taken +:+ String c EmptyString) s) as [r'|] eqn:Eg; [|done].
    intros [= <-]. apply IH in Eg as (t & rest & -> & Ht & Hk).
    exists (String c t), rest. split; [done|]. split; [cbn; by rewrite Ec|].
    by rewrite string_append_assoc in Hk.
Qed.

Lemma search_Some prog s r :
  search prog s = Some r → ∃ before s', s = before +:+ s' ∧ exec prog s' = Some r.
Proof.
  induction s as [|c s IH]; cbn [search].
  - destruct (exec prog EmptyString) eqn:E; [|done]. intros [= <-].
    by exists EmptyString, EmptyString.
  - destruct (exec prog (String c s)) eqn:E.
    + intros [= <-]. by exists EmptyString, (String c s).
    + intros (before & s' & -> & H)%IH. by exists (String c before), s'.
Qed.

(** The groups of a match are parts of the text matched. *)
Lemma exec_mentions prog : ∀ s gs,
  exec prog s = Some gs → Forall (fun g => mentions g s) gs.
Proof.
  induction prog as [|n prog IH]; intros s gs.
  { intros [= <-]. constructor. }
  destruct n as [l|cls|cls|cls].
  - rewrite exec_Lit. destruct (strip_prefix l s) as [s'|] eqn:E; [|done].
    apply strip_prefix_Some in E as ->. intros H%IH.
    eapply Forall_impl; [exact H|]. intros g Hg. by apply mentions_suffix.
  - rewrite exec_Star. intros (t & rest & -> & _ & H%IH)%greedy_Some.
    eapply Forall_impl; [exact H|]. intros g Hg. by apply mentions_suffix.
  - rewrite exec_Plus. intros (t & rest & -> & _ & H)%greedy_Some.
    destruct t as [|c t]; [done|]. apply IH in H.
    eapply Forall_impl; [exact H|]. intros g Hg. by apply mentions_suffix.
  - rewrite exec_Group. intros (t & rest & -> & _ & H)%greedy_Some.
    destruct t as [|c t]; [done|].
    change (EmptyString +:+ String c t) with (String c t) in H.
    destruct (exec prog rest) as [gs'|] eqn:E; [|done]. injection H as <-.
    constructor; [apply mentions_prefix, mentions_refl|].
    apply IH in E. eapply Forall_impl; [exact E|]. intros g Hg. by apply mentions_suffix.
Qed.

(** What [registryPattern] finds is an image name and a version that the
    text holds right after [${REGISTRY}/]. *)
Lemma registryPattern_Some s imageName version :
  FindStringSubmatch registryPattern s = Some [imageName; version] →
  all_chars not_colon_space imageName = true ∧ imageName ≠ EmptyString ∧
  all_chars not_space version = true ∧ version ≠ EmptyString ∧
  mentions ("${REGISTRY}/" +:+ imageName +:+ ":" +:+ version) s.
Proof.
  unfold FindStringSubmatch. cbn [anchored prog registryPattern].
  intros (before & s' & -> & H)%search_Some. revert H.
  rewrite exec_Lit. destruct (strip_prefix "${REGISTRY}/" s') as [s1|] eqn:E1; [|done].
  apply strip_prefix_Some in E1 as ->.
  rewrite exec_Group. intros (i & s2 & -> & Hi & H)%greedy_Some.
  destruct i as [|c i]; [done|].
  change (EmptyString +:+ String c i) with (String c i) in H.
  destruct (exec [Lit ":"; Group not_space] s2) as [gs|] eqn:E2; [|done].
  injection H as <- ->. revert E2.
  rewrite exec_Lit. destruct (strip_prefix ":" s2) as [s3|] eqn:E3; [|done].
  apply strip_prefix_Some in E3 as ->.
  rewrite exec_Group. intros (v & s4 & -> & Hv & H)%greedy_Some.
  destruct v as [|c' v]; [done|].
  change (EmptyString +:+ String c' v) with (String c' v) in H.
  cbn [exec fmap option_fmap option_map] in H. injection H as <-.
  repeat split; try done.
  apply mentions_suffix.
  exists EmptyString, s4. rewrite string_append_nil_l.
  by rewrite !string_append_assoc.
Qed.

Lemma split_lines_head s :
  ∃ line lines rest, split_lines s = line :: lines ∧ s = line +:+ rest.
Proof.
  induction s as [|c s (line & lines & rest & Hs & Hr)].
  - by exists EmptyString, [], EmptyString.
  - cbn [split_lines]. destruct (Ascii.eqb c "010").
    + by exists EmptyString, (split_lines s), (String c s).
    + rewrite Hs. exists (String c line), lines, rest. split; [done|].
      rewrite Hr at 1. done.
Qed.

Lemma split_lines_mentions s line : line ∈ split_lines s → mentions line s.
Proof.
  induction s as [|c s IH]; cbn [split_lines].
  - intros ->%list_elem_of_singleton. apply mentions_refl.
  - destruct (Ascii.eqb c "010").
    + intros [->|H]%elem_of_cons.
      * exists EmptyString, (String c s). done.
      * apply (mentions_suffix line (String c EmptyString) s). by apply IH.
    + destruct (split_lines_head s) as (l0 & ls & rest & Hs & Hr). rewrite Hs in *.
      intros [->|H]%elem_of_cons.
      * rewrite Hr. apply (mentions_prefix _ (String c l0) rest), mentions_refl.
      * apply (mentions_suffix line (String c EmptyString) s). apply IH. by right.
Qed.

(** The keys [parseDockerfileDependencies] returns are those its second
    loop finds in some line. *)
Lemma parseDockerfileDependencies_elem content :
  ∃ deps, parseDockerfileDependencies (inl content) = Ret deps ∧
    ∀ key, key ∈ deps ↔
      ∃ line, line ∈ split_lines content ∧
              line_key (collectStageNames (split_lines content)) line key.
Proof.
  eexists. split; [reflexivity|]. intros key.
  unfold sort_strings. rewrite merge_sort_Permutation, list_elem_of_fmap.
  assert ((∃ y : string * bool, key = y.1 ∧ y ∈ map_to_list
     (foldl (scanLine (collectStageNames (split_lines content))) ∅ (split_lines content)))
     ↔ is_Some (foldl (scanLine (collectStageNames (split_lines content))) ∅
                  (split_lines content) !! key)) as ->.
  { split.
    - intros ([k b] & -> & H%elem_of_map_to_list). by eexists.
    - intros [b H]. exists (key, b). split; [done|]. by apply elem_of_map_to_list. }
  rewrite scanLine_fold, lookup_empty. split; [|by right].
  by intros [[? [=]]|H].
Qed.

Lemma line_key_shape stageNames line key :
  line_key stageNames line key →
  ∃ imageName version, key = imageName +:+ ":" +:+ version ∧
    all_chars not_colon_space imageName = true ∧ imageName ≠ EmptyString ∧
    all_chars not_space version = true ∧ version ≠ EmptyString ∧
    mentions ("${REGISTRY}/" +:+ key) line.
Proof.
  intros [(i & v & Hm & ->)|(r & i & v & Hc & _ & Hr & ->)]; exists i, v.
  - apply fromPattern_form in Hm
      as (indent & gap & rest & -> & _ & _ & _ & Hi & Hie & Hv & Hve & _).
    repeat split; try done.
    exists (indent +:+ "FROM" +:+ gap), rest. by rewrite !string_append_assoc.
  - apply registryPattern_Some in Hr as (Hi & Hie & Hv & Hve & Hmr).
    repeat split; try done. apply (mentions_trans _ r); [done|].
    unfold FindStringSubmatch in Hc. cbn [anchored prog copyFromPattern] in Hc.
    apply exec_mentions in Hc. by apply Forall_cons in Hc as [Hc _].
Qed.

(** Every dependency returned has the form [image:version], with a
    non-empty image name free of colons and blanks and a non-empty version
    free of blanks, and the build file holds it right after
    [${REGISTRY}/]: a dependency is never read from an origin that names
    another registry or none. *)
Theorem parseDockerfileDependencies_shape content deps key :
  parseDockerfileDependencies (inl content) = Ret deps → key ∈ deps →
  ∃ imageName version, key = imageName +:+ ":" +:+ version ∧
    all_chars not_colon_space imageName = true ∧ imageName ≠ EmptyString ∧
    all_chars not_space version = true ∧ version ≠ EmptyString ∧
    mentions ("${REGISTRY}/" +:+ key) content.
Proof.
  destruct (parseDockerfileDependencies_elem content) as (deps' & -> & Hin).
  intros [= <-] (line & Hl & Hk)%Hin.
  apply line_key_shape in Hk as (i & v & -> & Hi & Hie & Hv & Hve & Hm).
  exists i, v. repeat split; try done.
  apply (mentions_trans _ line); [done|]. by apply split_lines_mentions.
Qed.

(** A build file that nowhere holds [${REGISTRY}/] has no dependencies. *)
Theorem parseDockerfileDependencies_no_registry content :
  ¬ mentions "${REGISTRY}/" content →
  parseDockerfileDependencies (inl content) = Ret [].
Proof.
  intros Hn. destruct (parseDockerfileDependencies_elem content) as (deps & -> & Hin).
  f_equal. destruct deps as [|key deps]; [done|]. destruct Hn.
  destruct (proj1 (Hin key)) as (line & Hl & Hk); [by left|].
  apply line_key_shape in Hk as (i & v & -> & _ & _ & _ & _ & Hm).
  apply (mentions_trans _ line); [|by apply split_lines_mentions].
  apply (mentions_trans _ ("${REGISTRY}/" +:+ i +:+ ":" +:+ v)); [|done].
  exists EmptyString, (i +:+ ":" +:+ v). reflexivity.
Qed.

Lemma parseDockerfileDependencies_shape_witness :
  ∃ imageName version, "base:v1" = imageName +:+ ":" +:+ version ∧
    all_chars not_colon_space imageName = true ∧ imageName ≠ EmptyString ∧
    all_chars not_space version = true ∧ version ≠ EmptyString ∧
    mentions ("${REGISTRY}/" +:+ "base:v1")
      ("ARG REGISTRY=test.io" +:+ nl +:+ "FROM ${REGISTRY}/base:v1" +:+ nl).
Proof.
  apply (parseDockerfileDependencies_shape
           ("ARG REGISTRY=test.io" +:+ nl +:+ "FROM ${REGISTRY}/base:v1" +:+ nl)
           ["base:v1"] "base:v1").
  - vm_compute. reflexivity.
  - apply elem_of_cons. by left.
Defined.

Lemma search_here prog s r : exec prog s = Some r → search prog s = Some r.
Proof. intros H. destruct s; cbn [search]; by rewrite H. Qed.

(** A text that holds [part] is one in which the pattern made of [part]
    alone is found. *)
Lemma mentions_search part text :
  mentions part text → search [Lit part] text = Some [].
Proof.
  intros (before & after & ->). induction before as [|c before IH].
  - rewrite string_append_nil_l. apply search_here.
    rewrite exec_Lit. by rewrite (proj2 (strip_prefix_Some part _ after) eq_refl).
  - change (String c before +:+ part +:+ after) with (String c (before +:+ part +:+ after)).
    cbn [search]. rewrite IH.
    destruct (exec [Lit part] (String c (before +:+ part +:+ after))) as [r|] eqn:E; [|done].
    rewrite exec_Lit in E. destruct (strip_prefix part _); [|done].
    by injection E as <-.
Qed.

Lemma parseDockerfileDependencies_no_registry_witness :
  parseDockerfileDependencies (inl ("FROM alpine" +:+ nl)) = Ret [].
Proof.
  apply parseDockerfileDependencies_no_registry.
  intros H%mentions_search. vm_compute in H. discriminate H.
Defined.

(** ** Lists that are in build order already *)

(** Needs that were all visited cost nothing. *)
Lemma each_visited jobMap fuel deps s :
  (∀ dep, dep ∈ deps → flag (visited s) dep = true) →
  each (visit jobMap (S fuel)) deps s = Ret s.
Proof.
  induction deps as [|dep deps IH]; intros H; [done|].
  cbn [each visit]. rewrite (H dep) by (apply elem_of_cons; by left).
  apply IH. intros dep' Hd. apply H. (apply elem_of_cons; by right).
Qed.

Lemma sort_loop_stable jobMap n : ∀ post pre s,
  (∀ job, job ∈ post → jobMap !! ID job = Some job) →
  NoDup (ID <$> (pre ++ post)) →
  (∀ i job dep, post !! i = Some job → dep ∈ Needs job →
     0 < n ∧ dep ∈ ID <$> (pre ++ take i post)) →
  sorted s = pre →
  (∀ k, flag (visited s) k = true ↔ k ∈ ID <$> pre) →
  (∀ k, flag (visiting s) k = false) →
  ∃ s', each (fun job => visit jobMap (S n) (ID job)) post s = Ret s' ∧
        sorted s' = pre ++ post.
Proof.
  induction post as [|job post IH]; intros pre s Hmap Hnd Hdeps Hs Hvd Hvg.
  { exists s. by rewrite app_nil_r. }
  assert (ID job ∉ ID <$> pre) as Hfresh.
  { rewrite fmap_app, fmap_cons in Hnd. apply NoDup_app in Hnd as (_ & Hnd & _).
    intros Hin. apply (Hnd _ Hin). (apply elem_of_cons; by left). }
  assert (flag (visited s) (ID job) = false) as Hnv.
  { destruct (flag (visited s) (ID job)) eqn:E; [|done]. by apply Hvd in E. }
  cbn [each visit]. rewrite Hnv, Hvg, (Hmap job) by (apply elem_of_cons; by left).
  set (s1 := {| sorted := sorted s; visited := visited s;
                visiting := <[ID job := true]> (visiting s) |}).
  assert (each (visit jobMap n) (Needs job) s1 = Ret s1) as ->.
  { destruct (Needs job) as [|dep deps] eqn:En; [done|].
    destruct (Hdeps 0 job dep eq_refl) as [Hn _].
    { rewrite En. (apply elem_of_cons; by left). }
    destruct n as [|n]; [lia|]. apply each_visited.
    intros dep' Hd. apply Hvd.
    destruct (Hdeps 0 job dep' eq_refl) as [_ Hin]; [by rewrite En|].
    by rewrite take_0, app_nil_r in Hin. }
  cbn [sorted visited visiting].
  destruct (IH (pre ++ [job])
              {| sorted := sorted s ++ [job];
                 visited := <[ID job := true]> (visited s);
                 visiting := <[ID job := false]> (<[ID job := true]> (visiting s)) |})
    as (s' & Hs' & Hsorted).
  - intros j Hj. apply Hmap. (apply elem_of_cons; by right).
  - by rewrite <-app_assoc.
  - intros i j dep Hi Hd. destruct (Hdeps (S i) j dep Hi Hd) as [Hn Hin].
    split; [done|]. by rewrite <-app_assoc.
  - cbn. by rewrite Hs.
  - intros k. cbn [visited]. rewrite flag_insert, fmap_app, elem_of_app.
    change (ID <$> [job]) with [ID job]. rewrite list_elem_of_singleton.
    case_decide as Hk; [subst; tauto|]. rewrite Hvd.
    split; [tauto|]. intros [?|?]; [done|congruence].
  - intros k. cbn. rewrite !flag_insert. repeat case_decide; auto.
  - exists s'. split; [done|]. by rewrite Hsorted, <-app_assoc.
Qed.

Lemma topologicalSort_ordered jobs :
  NoDup (ID <$> jobs) → dependencies_first jobs → topologicalSort jobs = Ret jobs.
Proof.
  intros Hnd Hdf. unfold topologicalSort.
  destruct (sort_loop_stable (buildJobMap jobs) (length jobs) jobs []
              {| sorted := []; visited := ∅; visiting := ∅ |})
    as (s' & -> & Hs); try done.
  - intros job Hj. by apply buildJobMap_lookup_NoDup.
  - intros i job dep Hi Hd.
    destruct (Hdf i job dep Hi Hd) as (i' & job' & Hlt & Hi' & <-).
    split.
    + apply lookup_lt_Some in Hi. lia.
    + cbn. apply list_elem_of_fmap. exists job'. split; [done|].
      apply list_elem_of_lookup. exists i'. by rewrite lookup_take_lt.
  - intros k. cbn. unfold flag. rewrite lookup_empty. cbn.
    split; [done|]. by intros ?%elem_of_nil.
  - by rewrite Hs.
Qed.

(** A list whose jobs have distinct identifiers and stand after the jobs
    they need is returned as it is: jobs without dependencies keep the order
    of the manifest. *)
Theorem topologicalSort_stable jobs :
  NoDup (ID <$> jobs) → dependencies_first jobs → topologicalSort jobs = Ret jobs.
Proof. apply topologicalSort_ordered. Qed.

(** Sorting is idempotent: a returned order, sorted again, comes back
    unchanged. *)
Theorem topologicalSort_idempotent jobs l :
  NoDup (ID <$> jobs) → topologicalSort jobs = Ret l → topologicalSort l = Ret l.
Proof.
  intros Hnd Hl. destruct (topologicalSort_Ret jobs l Hnd Hl) as [Hp Hdf].
  apply topologicalSort_ordered; [|done]. by rewrite Hp.
Qed.

Lemma diamond_sorted_NoDup : NoDup (ID <$> diamond_sorted).
Proof. by apply (bool_decide_unpack _). Qed.

Lemma diamond_sorted_first : dependencies_first diamond_sorted.
Proof. exact (proj2 (topologicalSort_Ret diamond _ diamond_NoDup topologicalSort_diamond)). Qed.

Lemma topologicalSort_stable_witness : topologicalSort diamond_sorted = Ret diamond_sorted.
Proof. exact (topologicalSort_stable diamond_sorted diamond_sorted_NoDup diamond_sorted_first). Defined.

Lemma topologicalSort_idempotent_witness :
  topologicalSort diamond_sorted = Ret diamond_sorted.
Proof.
  exact (topologicalSort_idempotent diamond diamond_sorted diamond_NoDup
           topologicalSort_diamond).
Defined.

(** ** Ordering the jobs of a manifest *)

Lemma attachNeeds_attached readFile jobMap jobs : ∀ jobs',
  attachNeeds readFile jobMap jobs = Ret jobs' →
  Forall2 (attached readFile jobMap) jobs jobs'.
Proof.
  induction jobs as [|job jobs IH]; intros jobs' H; simpl in H.
  - injection H as <-. constructor.
  - destruct (parseDockerfileDependencies (readFile (DockerfilePath job)))
      as [deps| | |] eqn:Ep; try done.
    destruct (attachNeeds readFile jobMap jobs) as [l| | |]; try done.
    injection H as <-. constructor; [by exists deps|by apply IH].
Qed.

(** Whatever the jobs and whatever the build files hold,
    [orderJobsByDependencies] returns a list or an error: it never reads
    through a nil job, since the needs it attaches are identifiers of jobs
    of the list, and its recursion never runs deeper than the number of
    jobs. *)
Theorem orderJobsByDependencies_safe readFile jobs :
  (∃ l, orderJobsByDependencies readFile jobs = Ret l) ∨
  (∃ err, orderJobsByDependencies readFile jobs = Fail err).
Proof.
  destruct (orderJobsByDependencies_returns readFile jobs) as [Hp Hf].
  destruct (orderJobsByDependencies readFile jobs) as [l|err| |]; try done.
  - left. by exists l.
  - right. by exists err.
Qed.

(** When the jobs have distinct identifiers, a returned order holds
    every job of the input once, with the needs read from its build file
    attached, and every job stands after the jobs it needs. *)
Theorem orderJobsByDependencies_sound readFile jobs l :
  NoDup (ID <$> jobs) →
  orderJobsByDependencies readFile jobs = Ret l →
  ∃ jobs', Forall2 (attached readFile (buildKeyMap jobs)) jobs jobs' ∧
           l ≡ₚ jobs' ∧ dependencies_first l.
Proof.
  intros Hnd H. unfold orderJobsByDependencies in H.
  destruct (attachNeeds readFile (buildKeyMap jobs) jobs) as [jobs'| | |] eqn:Ea; try done.
  exists jobs'. split; [by apply attachNeeds_attached|].
  destruct (topologicalSort jobs') as [l'| | |] eqn:Es; try done.
  injection H as <-. apply topologicalSort_Ret; [|done].
  apply attachNeeds_needs_known in Ea as [-> _]. done.
Qed.

Lemma orderJobsByDependencies_sound_witness :
  ∃ jobs', Forall2 (attached app_on_base
                      (buildKeyMap [makeJob "app" "app" "v1"; makeJob "base" "base" "v1"]))
             [makeJob "app" "app" "v1"; makeJob "base" "base" "v1"] jobs' ∧
           [makeJob "base" "base" "v1"; withNeeds (makeJob "app" "app" "v1") ["base-v1"]]
           ≡ₚ jobs' ∧
           dependencies_first
             [makeJob "base" "base" "v1"; withNeeds (makeJob "app" "app" "v1") ["base-v1"]].
Proof.
  apply (orderJobsByDependencies_sound app_on_base
           [makeJob "app" "app" "v1"; makeJob "base" "base" "v1"]).
  - apply (bool_decide_unpack _). vm_compute. reflexivity.
  - vm_compute. reflexivity.
Defined.

Lemma attached_attachNeeds readFile jobMap jobs jobs' :
  Forall2 (attached readFile jobMap) jobs jobs' →
  attachNeeds readFile jobMap jobs = Ret jobs'.
Proof.
  induction 1 as [|job job' jobs jobs' (deps & Hd & ->) _ IH]; [done|].
  cbn [attachNeeds]. by rewrite Hd, IH.
Qed.

(** When the jobs have distinct identifiers and every build file can be
    read, the call returns a complete order if the needs read from the
    files form no cycle, and it fails with [sorting jobs: circular
    dependency detected involving job], followed by the identifier of a job
    on a cycle, if they form one. *)
Theorem orderJobsByDependencies_complete readFile jobs jobs' :
  NoDup (ID <$> jobs) →
  Forall2 (attached readFile (buildKeyMap jobs)) jobs jobs' →
  (acyclic jobs' →
   ∃ l, orderJobsByDependencies readFile jobs = Ret l ∧
        l ≡ₚ jobs' ∧ dependencies_first l)
  ∧
  ((∃ a, tc (depends jobs') a a) →
   ∃ k, orderJobsByDependencies readFile jobs
        = Fail ("sorting jobs: circular dependency detected involving job " +:+ k)
        ∧ tc (depends jobs') k k).
Proof.
  intros Hnd Ha. apply orderJobsByDependencies_ordered; [done|].
  by apply attached_attachNeeds.
Qed.

Lemma orderJobsByDependencies_complete_witness :
  (acyclic [withNeeds (makeJob "app" "app" "v1") ["base-v1"]; makeJob "base" "base" "v1"] →
   ∃ l, orderJobsByDependencies app_on_base
          [makeJob "app" "app" "v1"; makeJob "base" "base" "v1"] = Ret l ∧
        l ≡ₚ [withNeeds (makeJob "app" "app" "v1") ["base-v1"]; makeJob "base" "base" "v1"] ∧
        dependencies_first l)
  ∧
  ((∃ a, tc (depends [withNeeds (makeJob "app" "app" "v1") ["base-v1"];
                      makeJob "base" "base" "v1"]) a a) →
   ∃ k, orderJobsByDependencies app_on_base
          [makeJob "app" "app" "v1"; makeJob "base" "base" "v1"]
        = Fail ("sorting jobs: circular dependency detected involving job " +:+ k)
        ∧ tc (depends [withNeeds (makeJob "app" "app" "v1") ["base-v1"];
                       makeJob "base" "base" "v1"]) k k).
Proof.
  apply orderJobsByDependencies_complete.
  - apply (bool_decide_unpack _). vm_compute. reflexivity.
  - repeat constructor.
    + exists ["base:v1"]. split; vm_compute; reflexivity.
    + exists []. split; vm_compute; reflexivity.
Defined.

(** With distinct keys, the table of [orderJobsByDependencies] files every
    job under its own key. *)
Lemma buildKeyMap_fold_NoDup jobs : ∀ (m : gmap string Job) key job,
  NoDup (jobKey <$> jobs) →
  (∀ j, j ∈ jobs → m !! jobKey j = None) →
  foldl (fun jobMap job => <[jobKey job := job]> jobMap) m jobs !! key = Some job ↔
  (job ∈ jobs ∧ jobKey job = key) ∨ m !! key = Some job.
Proof.
  induction jobs as [|x l IH]; intros m key job Hnd Hm; cbn [foldl].
  { split; [by right|]. by intros [[?%elem_of_nil _]|?]. }
  rewrite fmap_cons in Hnd. apply NoDup_cons in Hnd as [Hx Hnd].
  rewrite IH; [|done|].
  2:{ intros j Hj. rewrite lookup_insert_ne; [apply Hm; by right|].
      intros Heq. apply Hx. rewrite Heq. apply list_elem_of_fmap. by exists j. }
  rewrite lookup_insert, elem_of_cons. case_decide as Hk.
  - subst key. split.
    + intros [[? ?]|[= <-]]; left; [by split; [right|]|by split; [left|]].
    + intros [[[->|?] ?]|H]; [by right|by left|].
      rewrite Hm in H by (by left). done.
  - split.
    + intros [[? ?]|?]; [left; by split; [right|]|by right].
    + intros [[[->|?] ?]|?]; [done|by left|by right].
Qed.

Lemma buildKeyMap_NoDup jobs key job :
  NoDup (jobKey <$> jobs) →
  buildKeyMap jobs !! key = Some job ↔ job ∈ jobs ∧ jobKey job = key.
Proof.
  intros Hnd. unfold buildKeyMap. rewrite buildKeyMap_fold_NoDup; [|done|done].
  rewrite lookup_empty. split; [by intros [?|?]|by left].
Qed.

(** When the jobs have distinct identifiers and distinct keys
    [image:version], a job of the returned order needs exactly the jobs
    whose keys its build file depends on: a dependency on an image that is
    no job of the list is left out, and nothing else is. *)
Theorem orderJobsByDependencies_needs readFile jobs l :
  NoDup (ID <$> jobs) → NoDup (jobKey <$> jobs) →
  orderJobsByDependencies readFile jobs = Ret l →
  ∀ job, job ∈ l →
    ∃ deps, parseDockerfileDependencies (readFile (DockerfilePath job)) = Ret deps ∧
      ∀ id, id ∈ Needs job ↔ ∃ j, j ∈ jobs ∧ jobKey j ∈ deps ∧ ID j = id.
Proof.
  intros Hid Hkey H job Hjob. unfold orderJobsByDependencies in H.
  destruct (attachNeeds readFile (buildKeyMap jobs) jobs) as [jobs'| | |] eqn:Ea; try done.
  destruct (topologicalSort jobs') as [l'| | |] eqn:Es; try done.
  injection H as <-.
  assert (NoDup (ID <$> jobs')) as Hid'.
  { by apply attachNeeds_needs_known in Ea as [-> _]. }
  destruct (topologicalSort_Ret jobs' l' Hid' Es) as [Hp _].
  rewrite Hp in Hjob. apply attachNeeds_attached in Ea.
  apply list_elem_of_lookup in Hjob as [i Hi].
  destruct (Forall2_lookup_r _ _ _ _ _ Ea Hi) as (job0 & _ & deps & Hd & ->).
  exists deps. split; [done|]. intros id. cbn [Needs withNeeds].
  unfold resolveNeeds. rewrite list_elem_of_omap. split.
  - intros (key & Hk & Hl). destruct (buildKeyMap jobs !! key) as [j|] eqn:Ej; [|done].
    injection Hl as <-. apply buildKeyMap_NoDup in Ej as [Hj <-]; [|done]. by exists j.
  - intros (j & Hj & Hk & <-). exists (jobKey j). split; [done|].
    by rewrite (proj2 (buildKeyMap_NoDup jobs (jobKey j) j Hkey) (conj Hj eq_refl)).
Qed.

Lemma orderJobsByDependencies_needs_witness :
  ∃ deps,
    parseDockerfileDependencies
      (app_on_base (DockerfilePath (withNeeds (makeJob "app" "app" "v1") ["base-v1"])))
    = Ret deps ∧
    ∀ id, id ∈ Needs (withNeeds (makeJob "app" "app" "v1") ["base-v1"]) ↔
      ∃ j, j ∈ [makeJob "app" "app" "v1"; makeJob "base" "base" "v1"] ∧
           jobKey j ∈ deps ∧ ID j = id.
Proof.
  apply (orderJobsByDependencies_needs app_on_base
           [makeJob "app" "app" "v1"; makeJob "base" "base" "v1"]
           [makeJob "base" "base" "v1"; withNeeds (makeJob "app" "app" "v1") ["base-v1"]]).
  - apply (bool_decide_unpack _). vm_compute. reflexivity.
  - apply (bool_decide_unpack _). vm_compute. reflexivity.
  - vm_compute. reflexivity.
  - apply elem_of_cons. right. apply elem_of_cons. by left.
Defined.

Lemma attachNeeds_unreadable readFile jobMap pre job post err :
  (∀ j, j ∈ pre → ∃ content, readFile (DockerfilePath j) = inl content) →
  readFile (DockerfilePath job) = inr err →
  attachNeeds readFile jobMap (pre ++ job :: post)
  = Fail ("parsing dependencies for " +:+ Name job +:+ ": reading Dockerfile: " +:+ err).
Proof.
  intros Hpre Herr. induction pre as [|j pre IH]; simpl.
  - by rewrite Herr.
  - destruct (Hpre j) as [content ->]; [by left|]. cbn [parseDockerfileDependencies].
    rewrite IH; [done|]. intros j' Hj'. apply Hpre. by right.
Qed.

(** The first job, in the order given, whose build file cannot be read
    ends the call: the error names that job and carries the cause, no job
    is sorted and nothing is returned besides the error. *)
Theorem orderJobsByDependencies_unreadable readFile pre job post err :
  (∀ j, j ∈ pre → ∃ content, readFile (DockerfilePath j) = inl content) →
  readFile (DockerfilePath job) = inr err →
  orderJobsByDependencies readFile (pre ++ job :: post)
  = Fail ("parsing dependencies for " +:+ Name job +:+ ": reading Dockerfile: " +:+ err).
Proof.
  intros Hpre Herr. unfold orderJobsByDependencies.
  by rewrite (attachNeeds_unreadable readFile _ pre job post err Hpre Herr).
Qed.

Lemma orderJobsByDependencies_unreadable_witness :
  orderJobsByDependencies only_base
    ([makeJob "base" "base" "v1"] ++ makeJob "app" "app" "v1" :: [])
  = Fail ("parsing dependencies for " +:+ Name (makeJob "app" "app" "v1") +:+
          ": reading Dockerfile: " +:+ "open: no such file or directory").
Proof.
  apply orderJobsByDependencies_unreadable.
  - intros j Hj. apply list_elem_of_singleton in Hj as ->.
    eexists. vm_compute. reflexivity.
  - vm_compute. reflexivity.
Defined.

(** ** The pattern of a registry origin line *)

(** [fromPattern] finds an image and a version in a line exactly when the
    line reads: optional blanks, [FROM], at least one blank,
    [${REGISTRY}/], a non-empty image name without colon or blank, a colon,
    a non-empty version without blank, and then a blank or the end of the
    line.  The keyword is matched in upper case only, and nothing but
    blanks may stand before it. *)
Theorem fromPattern_registry_origin_line line imageName version :
  FindStringSubmatch fromPattern line = Some [imageName; version] ↔
  registry_origin_line line imageName version.
Proof. apply fromPattern_form. Qed.

(** ** The jobs of a manifest *)

Lemma foldl_snoc_fmap {A B} (f : A → B) l : ∀ acc,
  foldl (fun acc x => acc ++ [f x]) acc l = acc ++ (f <$> l).
Proof.
  induction l as [|x l IH]; intros acc; simpl; [by rewrite app_nil_r|].
  by rewrite IH, <-app_assoc.
Qed.

Lemma foldl_snoc_bind {A B C} (h : A → list B) (g : A → B → C) l : ∀ acc,
  foldl (fun acc x => foldl (fun acc y => acc ++ [g x y]) acc (h x)) acc l
  = acc ++ (l ≫= fun x => g x <$> h x).
Proof.
  induction l as [|x l IH]; intros acc; simpl; [by rewrite app_nil_r|].
  by rewrite IH, foldl_snoc_fmap, <-app_assoc.
Qed.

Lemma sort_strings_keys {V} (m : gmap string V) :
  StronglySorted string_lt (sort_strings (map_to_list m).*1) ∧
  ∀ k, k ∈ sort_strings (map_to_list m).*1 ↔ is_Some (m !! k).
Proof.
  split.
  - apply Sorted_le_NoDup_lt; [apply (Sorted_merge_sort _)|].
    unfold sort_strings. rewrite merge_sort_Permutation. apply NoDup_fst_map_to_list.
  - intros k. unfold sort_strings. rewrite merge_sort_Permutation, list_elem_of_fmap.
    split.
    + intros ([k' v] & -> & H%elem_of_map_to_list). by exists v.
    + intros [v H]. exists (k, v). split; [done|]. by apply elem_of_map_to_list.
Qed.

Lemma StronglySorted_pairs (names : list string) (vs : string → list string) :
  StronglySorted string_lt names →
  (∀ i, StronglySorted string_lt (vs i)) →
  StronglySorted pair_lt (names ≫= fun i => pair i <$> vs i).
Proof.
  intros Hn Hv. induction Hn as [|i names Hn IH Hall]; [constructor|].
  cbn [mbind list_bind]. 
  assert (Forall (fun p => string_lt i p.1) (names ≫= fun i => pair i <$> vs i)) as Hlater.
  { apply Forall_forall. intros [i' v'] (i'' & Hin & Hi'')%list_elem_of_bind.
    apply list_elem_of_fmap in Hin as (v'' & [= -> ->] & _).
    cbn. by apply (proj1 (Forall_forall _ _) Hall). }
  specialize (Hv i). induction Hv as [|v vs' Hv IHv Hallv]; [done|].
  cbn [fmap list_fmap app]. constructor; [done|].
  apply Forall_app. split.
  - apply Forall_forall. intros [i' v'] (v'' & [= -> ->] & Hin)%list_elem_of_fmap.
    right. split; [done|]. cbn. by apply (proj1 (Forall_forall _ _) Hallv).
  - eapply Forall_impl; [exact Hlater|]. intros p Hp. by left.
Qed.

Lemma StronglySorted_pair_lt_NoDup (l : list (string * string)) :
  StronglySorted pair_lt l → NoDup l.
Proof.
  induction 1 as [|p l Hs IH Hall]; constructor; [|done].
  intros Hin. apply (proj1 (Forall_forall _ _) Hall) in Hin.
  destruct Hin as [[_ Hne]|[_ [_ Hne]]]; by apply Hne.
Qed.

Section jobs.
Variable Join : list string → string.

(** The two nested loops of [buildJobsFromConfig] list, for each image
    name in order, the jobs of its versions in order. *)
Lemma buildJobsFromConfig_bind cfg :
  buildJobsFromConfig Join cfg
  = Ret (sort_strings (map_to_list (config.Images cfg)).*1 ≫= fun imageName =>
           let image :=
             default {| config.Path := EmptyString; config.ImageDefaults := None;
                        config.Versions := ∅ |} (config.Images cfg !! imageName) in
           (fun version =>
              {| ID := generateJobID imageName version;
                 Name := "Build " +:+ imageName +:+ ":" +:+ version;
                 ImageName := imageName;
                 Version := version;
                 DockerfilePath :=
                   Join ["images"; config.Path image; version; "Dockerfile"];
                 Needs := [] |})
           <$> sort_strings (map_to_list (config.Versions image)).*1).
Proof.
  unfold buildJobsFromConfig. f_equal.
  exact (foldl_snoc_bind
           (fun imageName =>
              sort_strings (map_to_list (config.Versions
                (default {| config.Path := EmptyString; config.ImageDefaults := None;
                            config.Versions := ∅ |}
                         (config.Images cfg !! imageName)))).*1)
           (fun imageName version =>
              {| ID := generateJobID imageName version;
                 Name := "Build " +:+ imageName +:+ ":" +:+ version;
                 ImageName := imageName;
                 Version := version;
                 DockerfilePath :=
                   Join ["images";
                         config.Path (default {| config.Path := EmptyString;
                                                 config.ImageDefaults := None;
                                                 config.Versions := ∅ |}
                                              (config.Images cfg !! imageName));
                         version; "Dockerfile"];
                 Needs := [] |})
           _ []).
Qed.

Lemma fmap_bind_pairs {A} (f : A → string * string) (names : list string)
    (job : string → string → A) (vs : string → list string) :
  (∀ i v, f (job i v) = (i, v)) →
  f <$> (names ≫= fun i => job i <$> vs i) = names ≫= fun i => pair i <$> vs i.
Proof.
  intros Hf. induction names as [|i names IH]; [done|].
  cbn [mbind list_bind]. rewrite fmap_app, <-list_fmap_compose. f_equal; [|exact IH].
  apply list_fmap_ext. intros ? v _. apply Hf.
Qed.

Lemma buildJobsFromConfig_spec cfg :
  ∃ jobs, buildJobsFromConfig Join cfg = Ret jobs ∧
    StronglySorted pair_lt (jobPair <$> jobs) ∧
    (∀ imageName version, (imageName, version) ∈ jobPair <$> jobs ↔
       ∃ image, config.Images cfg !! imageName = Some image ∧
                is_Some (config.Versions image !! version)) ∧
    (∀ job, job ∈ jobs →
       ∃ image, config.Images cfg !! ImageName job = Some image ∧
         ID job = generateJobID (ImageName job) (Version job) ∧
         Name job = "Build " +:+ ImageName job +:+ ":" +:+ Version job ∧
         DockerfilePath job
         = Join ["images"; config.Path image; Version job; "Dockerfile"] ∧
         Needs job = []).
Proof.
  eexists. split; [apply buildJobsFromConfig_bind|].
  cbv zeta. split; [|split].
  - rewrite fmap_bind_pairs by done. apply StronglySorted_pairs; intros; apply sort_strings_keys.
  - intros imageName version. rewrite fmap_bind_pairs by done.
    rewrite list_elem_of_bind. split.
    + intros (i & (v & [= -> ->] & Hv)%list_elem_of_fmap & Hi).
      apply sort_strings_keys in Hi as [image Hi]. apply sort_strings_keys in Hv.
      rewrite Hi in Hv. by exists image.
    + intros (image & Hi & Hv). exists imageName. split.
      * apply list_elem_of_fmap. exists version. split; [done|].
        apply sort_strings_keys. by rewrite Hi.
      * apply sort_strings_keys. by exists image.
  - intros job (i & (v & -> & Hv)%list_elem_of_fmap & Hi)%list_elem_of_bind.
    apply sort_strings_keys in Hi as [image Hi]. exists image. cbn.
    by rewrite Hi.
Qed.

(** [buildJobsFromConfig] makes one job for every version of every image
    of the manifest and no other; the jobs come ordered by image name and
    then by version, both strictly ascending in byte order, so none comes
    twice; each job carries the identifier, the title and the build file
    path of its image and version, and no needs yet. *)
Theorem buildJobsFromConfig_jobs cfg :
  ∃ jobs, buildJobsFromConfig Join cfg = Ret jobs ∧
    StronglySorted pair_lt (jobPair <$> jobs) ∧
    (∀ imageName version, (imageName, version) ∈ jobPair <$> jobs ↔
       ∃ image, config.Images cfg !! imageName = Some image ∧
                is_Some (config.Versions image !! version)) ∧
    (∀ job, job ∈ jobs →
       ∃ image, config.Images cfg !! ImageName job = Some image ∧
         ID job = generateJobID (ImageName job) (Version job) ∧
         Name job = "Build " +:+ ImageName job +:+ ":" +:+ Version job ∧
         DockerfilePath job
         = Join ["images"; config.Path image; Version job; "Dockerfile"] ∧
         Needs job = []).
Proof. apply buildJobsFromConfig_spec. Qed.

Lemma buildJobsFromConfig_distinct_ids cfg jobs :
  (∀ imageName image, config.Images cfg !! imageName = Some image →
     word imageName ∧
     ∀ version, is_Some (config.Versions image !! version) → word version) →
  buildJobsFromConfig Join cfg = Ret jobs →
  NoDup (ID <$> jobs) ∧ NoDup (jobKey <$> jobs).
Proof.
  intros Hw Hjobs.
  destruct (buildJobsFromConfig_spec cfg) as (jobs' & Hj & Hs & Hin & Hf).
  rewrite Hj in Hjobs. injection Hjobs as ->.
  apply StronglySorted_pair_lt_NoDup in Hs.
  assert (∀ job, job ∈ jobs → word (ImageName job) ∧ word (Version job)) as Hwj.
  { intros job Hjob.
    assert ((ImageName job, Version job) ∈ jobPair <$> jobs) as Hp.
    { apply list_elem_of_fmap. by exists job. }
    apply Hin in Hp as (image & Hi & Hv).
    destruct (Hw _ _ Hi) as [Hwi Hwv]. split; [done|by apply Hwv]. }
  split.
  - rewrite (list_fmap_ext ID (fun job => generateJobID (jobPair job).1 (jobPair job).2) jobs).
    2:{ intros i job Hjob. apply list_elem_of_lookup_2 in Hjob.
        by destruct (Hf job Hjob) as (_ & _ & -> & _). }
    rewrite (list_fmap_compose jobPair (fun p => generateJobID p.1 p.2)).
    apply NoDup_fmap_2_strong; [|done].
    intros [i v] [i' v'] (job & [= -> ->] & Hjob)%list_elem_of_fmap
      (job' & [= -> ->] & Hjob')%list_elem_of_fmap H. cbn in H.
    destruct (Hwj job Hjob) as [[A1 A2] [A3 A4]].
    destruct (Hwj job' Hjob') as [[B1 B2] [B3 B4]].
    by destruct (generateJobID_word_inj _ _ _ _ A1 A2 A3 A4 B1 B2 B3 B4 H) as [-> ->].
  - change jobKey with ((fun p : string * string => p.1 +:+ ":" +:+ p.2) ∘ jobPair).
    rewrite (list_fmap_compose jobPair).
    apply NoDup_fmap_2_strong; [|done].
    intros [i v] [i' v'] (job & [= -> ->] & Hjob)%list_elem_of_fmap
      (job' & [= -> ->] & Hjob')%list_elem_of_fmap H. cbn in H.
    destruct (Hwj job Hjob) as [[A1 _] _]. destruct (Hwj job' Hjob') as [[B1 _] _].
    by destruct (word_split ":" _ _ _ _ eq_refl A1 B1 H) as [-> ->].
Qed.

(** When every image name and every version label of the manifest is
    non-empty and made of letters, digits and underscores, the jobs of
    [buildJobsFromConfig] have pairwise distinct identifiers, which is what
    [topologicalSort] needs to tell them apart, and pairwise distinct keys
    [image:version], under which [orderJobsByDependencies] files them. *)
Theorem buildJobsFromConfig_distinct cfg jobs :
  (∀ imageName image, config.Images cfg !! imageName = Some image →
     word imageName ∧
     ∀ version, is_Some (config.Versions image !! version) → word version) →
  buildJobsFromConfig Join cfg = Ret jobs →
  NoDup (ID <$> jobs) ∧ NoDup (jobKey <$> jobs).
Proof. apply buildJobsFromConfig_distinct_ids. Qed.

(** The jobs [Generate] writes.  Whatever the manifest and the build
    files, the job list is built and ordered without a panic: the result
    is a list or an error.  When every image name and version label is a
    word, a returned list holds one job for every version of every image
    of the manifest and no other, none twice, and every job stands after
    the jobs it needs. *)
Theorem orderedJobs_manifest readFile cfg :
  ((∃ l, orderedJobs Join readFile cfg = Ret l) ∨
   (∃ err, orderedJobs Join readFile cfg = Fail err)) ∧
  ((∀ imageName image, config.Images cfg !! imageName = Some image →
      word imageName ∧
      ∀ version, is_Some (config.Versions image !! version) → word version) →
   ∀ l, orderedJobs Join readFile cfg = Ret l →
     NoDup (jobPair <$> l) ∧
     (∀ imageName version, (imageName, version) ∈ jobPair <$> l ↔
        ∃ image, config.Images cfg !! imageName = Some image ∧
                 is_Some (config.Versions image !! version)) ∧
     dependencies_first l).
Proof.
  unfold orderedJobs.
  destruct (buildJobsFromConfig_spec cfg) as (jobs & Hj & Hs & Hin & Hf).
  rewrite Hj. split.
  - destruct (orderJobsByDependencies_returns readFile jobs) as [Hp Ho].
    destruct (orderJobsByDependencies readFile jobs) as [l|err| |]; try done.
    + left. by exists l.
    + right. by eexists.
  - intros Hw l Hl.
    destruct (orderJobsByDependencies readFile jobs) as [l'|err| |] eqn:Eo; try done.
    injection Hl as ->.
    assert (NoDup (ID <$> jobs)) as Hid.
    { by destruct (buildJobsFromConfig_distinct_ids cfg jobs Hw Hj). }
    unfold orderJobsByDependencies in Eo.
    destruct (attachNeeds readFile (buildKeyMap jobs) jobs) as [jobs'| | |] eqn:Ea;
      try done.
    destruct (topologicalSort jobs') as [l'| | |] eqn:Es; try done.
    injection Eo as ->.
    assert (NoDup (ID <$> jobs')) as Hid'.
    { by apply attachNeeds_needs_known in Ea as [-> _]. }
    destruct (topologicalSort_Ret jobs' l Hid' Es) as [Hp Hdf].
    assert (jobPair <$> jobs' = jobPair <$> jobs) as Hpairs.
    { apply attachNeeds_attached in Ea. clear -Ea.
      induction Ea as [|j j' js js' (deps & _ & ->) _ IH]; [done|].
      cbn. by rewrite IH. }
    split; [|split; [|done]].
    + rewrite Hp, Hpairs. by apply StronglySorted_pair_lt_NoDup.
    + intros i v. rewrite Hp, Hpairs. apply Hin.
Qed.

End jobs.

Lemma app_base_cfg_words imageName image :
  config.Images app_base_cfg !! imageName = Some image →
  word imageName ∧
  ∀ version, is_Some (config.Versions image !! version) → word version.
Proof.
  unfold app_base_cfg. cbn [config.Images].
  intros [[<- <-]|[_ [<- <-]%lookup_singleton_Some]]%lookup_insert_Some.
  - split; [by split|]. cbn [config.Versions].
    intros version [vc [[<- _]|[_ [<- _]%lookup_singleton_Some]]%lookup_insert_Some];
      by split.
  - split; [by split|]. unfold one_version. cbn [config.Versions].
    intros version [vc [<- _]%lookup_singleton_Some]. by split.
Qed.

Lemma buildJobsFromConfig_distinct_witness :
  NoDup (ID <$> app_base_jobs) ∧ NoDup (jobKey <$> app_base_jobs).
Proof.
  apply (buildJobsFromConfig_distinct (String.concat "/") app_base_cfg).
  - apply app_base_cfg_words.
  - vm_compute. reflexivity.
Defined.

Lemma orderedJobs_manifest_witness :
  ((∃ l, orderedJobs (String.concat "/") app_on_base app_base_cfg = Ret l) ∨
   (∃ err, orderedJobs (String.concat "/") app_on_base app_base_cfg = Fail err)) ∧
  NoDup (jobPair <$> app_base_ordered) ∧
  (∀ imageName version,
     (imageName, version) ∈ jobPair <$> app_base_ordered ↔
     ∃ image, config.Images app_base_cfg !! imageName = Some image ∧
              is_Some (config.Versions image !! version)) ∧
  dependencies_first app_base_ordered.
Proof.
  destruct (orderedJobs_manifest (String.concat "/") app_on_base app_base_cfg)
    as [Hends Hlist].
  split; [exact Hends|]. apply Hlist.
  - apply app_base_cfg_words.
  - vm_compute. reflexivity.
Defined.

End workflow_laws.
